(** * Doppioh: a shallow embedding of [console/doppioh.ts]

    Doppioh generates JavaScript or TypeScript templates for the native
    methods of a JVM class or package and, for TypeScript, the declaration
    file [JVMTypes.d.ts].  The embedding follows the source function by
    function: JavaScript strings are [string]s, the plain objects used as
    dictionaries ([cache], [headerSet]) are [gmap]s keyed by descriptor,
    arrays are lists, and every function that mutates the module- or
    template-level state is a computation in a state-and-exception monad
    whose state survives a [throw], as a JavaScript heap does. *)

From Stdlib Require Import ZArith Ascii String List Lia Permutation DecimalString.
From stdpp Require Import base option list strings gmap.

Open Scope string_scope.
Open Scope list_scope.

#[local] Arguments String.append !_ _ / : simpl nomatch.

(** ** JavaScript string primitives *)

Module JS.
#[local] Open Scope Z_scope.

(** [s.length] *)
Definition len (s : string) : Z := Z.of_nat (String.length s).

(** Clamping of a relative index, as [String.prototype.slice] does. *)
Definition clamp (n : Z) (i : Z) : Z :=
  if i <? 0 then Z.max (n + i) 0 else Z.min i n.

(** [s.slice(b, e)] *)
Definition slice (b e : Z) (s : string) : string :=
  let from := clamp (len s) b in
  let to := clamp (len s) e in
  String.substring (Z.to_nat from) (Z.to_nat (to - from)) s.

(** [s.substring(b, e)]: both indices are clamped to the string and
    swapped when out of order. *)
Definition substring (b e : Z) (s : string) : string :=
  let b' := Z.min (Z.max b 0) (len s) in
  let e' := Z.min (Z.max e 0) (len s) in
  String.substring (Z.to_nat (Z.min b' e')) (Z.to_nat (Z.max b' e' - Z.min b' e')) s.

(** [s.slice(b)] *)
Definition slice_from (b : Z) (s : string) : string :=
  slice b (len s) s.

(** [s.indexOf(pat, from)], for [0 <= from]; [-1] when there is no match. *)
Definition indexOf (pat : string) (from : Z) (s : string) : Z :=
  match index (Z.to_nat from) pat s with
  | Some i => Z.of_nat i
  | None => -1
  end.

(** [s[0] === c] *)
Definition head_is (c : ascii) (s : string) : bool :=
  match s with
  | String a _ => Ascii.eqb a c
  | EmptyString => false
  end.

(** [s.replace(/c/g, by)] for a one-character pattern [c]. *)
Fixpoint replace_char (c : ascii) (by_ : string) (s : string) : string :=
  match s with
  | EmptyString => EmptyString
  | String a r =>
      if Ascii.eqb a c then by_ +:+ replace_char c by_ r
      else String a (replace_char c by_ r)
  end.

(** [s.replace(/\/\//g, '_')]: matches are found left to right and do not
    overlap. *)
Fixpoint replace_slash_slash (s : string) : string :=
  match s with
  | EmptyString => EmptyString
  | String a r =>
      match r with
      | String b r' =>
          if Ascii.eqb a "/" && Ascii.eqb b "/"
          then String "_" (replace_slash_slash r')
          else String a (replace_slash_slash r)
      | EmptyString => String a EmptyString
      end
  end.

(** [s.split(':')] on a one-character separator. *)
Fixpoint split_on (c : ascii) (s : string) : list string :=
  match s with
  | EmptyString => [EmptyString]
  | String a r =>
      if Ascii.eqb a c then EmptyString :: split_on c r
      else match split_on c r with
           | w :: ws => String a w :: ws
           | [] => [String a EmptyString]
           end
  end.

(** [l.join(sep)] *)
Fixpoint join (sep : string) (l : list string) : string :=
  match l with
  | [] => EmptyString
  | [x] => x
  | x :: r => x +:+ sep +:+ join sep r
  end.

End JS.

(** ** Outcomes of a computation

    [Throw e] is a JavaScript exception carrying the message [e].
    [Diverge] says that an iteration budget was used up: the [fuel] of the
    header worklist loop, which runs as long as classes keep being
    discovered, or the [gas] of a loop that is shown below never to need
    it. *)

Inductive outcome (A : Type) : Type :=
| Ok (a : A)
| Throw (e : string)
| Diverge.
Arguments Ok {A} a.
Arguments Throw {A} e.
Arguments Diverge {A}.

(** ** [src/util] helpers used by doppioh *)

(** Modelled from the spec: [util.descriptor2typestr] is not part of this
    file.  Doppioh applies it to reference descriptors [L<name>;] only
    (the ['L'] cases of [findClass] and [jvmtype2tstype], and internal
    names of reference classes), for which it yields the internal type
    name [<name>] between the leading [L] and the closing [;]. *)
Definition descriptor2typestr (desc : string) : string :=
  JS.slice 1 (-1) desc.

(** Modelled from the spec: [util.is_primitive_type] is not part of this
    file.  A primitive or void descriptor is a single character. *)
Definition is_primitive_type (desc : string) : bool :=
  match desc with
  | String c EmptyString =>
      existsb (Ascii.eqb c) ["B"; "C"; "D"; "F"; "I"; "J"; "S"; "V"; "Z"]%char
  | _ => false
  end.

(** ** [TSTemplate.tstype2jvmtype]

    The function calls itself on [tsType.slice(9, tsType.length - 1)], a
    strictly shorter string; [gas] bounds the nesting and
    [tstype2jvmtype] supplies more than the string is long. *)
Fixpoint tstype2jvmtype_rec (gas : nat) (tsType : string) : outcome string :=
  if (JS.indexOf "JVMArray" 0 tsType =? 0)%Z then
    match gas with
    | O => Diverge
    | S gas' =>
        match tstype2jvmtype_rec gas' (JS.slice 9 (JS.len tsType - 1) tsType) with
        | Ok d => Ok ("[" +:+ d)
        | Throw e => Throw e
        | Diverge => Diverge
        end
    end
  else if String.eqb tsType "number" then Throw "Ambiguous."
  else if String.eqb tsType "void" then Ok "V"
  else
    Ok ("L" +:+ JS.replace_slash_slash (JS.replace_char "_" "/" tsType) +:+ ";").

Definition tstype2jvmtype (tsType : string) : outcome string :=
  tstype2jvmtype_rec (String.length tsType) tsType.

(** The output name of a reference descriptor, as computed in the ['L']
    case of [jvmtype2tstype]. *)
Definition ts_refname (desc : string) : string :=
  JS.replace_char "/" "_" (JS.replace_char "_" "__" (descriptor2typestr desc)).

(** The string returned by [jvmtype2tstype(desc, prefix)]; the method
    itself, with its side effect on the header worklist, is
    [jvmtype2tstype] below.  The recursion on [desc.slice(1)] is the
    recursion on the tail of the string. *)
Fixpoint ts_typename (prefix : bool) (desc : string) : string :=
  match desc with
  | String c component =>
      if Ascii.eqb c "[" then
        (if prefix then "JVMTypes." else "") +:+ "JVMArray<" +:+ ts_typename prefix component +:+ ">"
      else if Ascii.eqb c "L" then
        (if prefix then "JVMTypes." else "") +:+ ts_refname desc
      else if Ascii.eqb c "J" then "Long"
      else if Ascii.eqb c "V" then "void"
      else "number"
  | EmptyString => "number"
  end.

(** ** Class metadata

    [ClassData], [methods.Method] and [methods.Field] are produced by the
    class-file parser; doppioh only reads them through getters.  Each getter
    it calls is a field here.  [m_cls_isInterface] and [f_cls_isInterface]
    stand for [m.cls.accessFlags.isInterface()] and
    [f.cls.accessFlags.isInterface()]; [f_cls_internalName] for
    [f.cls.getInternalName()]. *)

Record Method : Type := mkMethod {
  signature : string;
  fullSignature : string;
  parameterTypes : list string;
  returnType : string;
  m_isStatic : bool;
  m_isNative : bool;
  m_cls_isInterface : bool
}.

Record Field : Type := mkField {
  f_name : string;
  rawDescriptor : string;
  f_isStatic : bool;
  f_cls_internalName : string;
  f_cls_isInterface : bool
}.

Record ReferenceClassData : Type := mkRef {
  getInternalName : string;
  getSuperClassReference : option string;
  getInterfaceClassReferences : list string;
  isInterface : bool;
  getMethods : list Method;
  getMirandaAndDefaultMethods : list Method;
  getUninheritedDefaultMethods : list Method;
  getFields : list Field;
  getInjectedFields : list (string * string);
  getInjectedMethods : list (string * string);
  getInjectedStaticMethods : list (string * string);
  isResolved : bool
}.

Inductive ClassData : Type :=
| ReferenceCD (r : ReferenceClassData)
| ArrayCD (component : string)
| PrimitiveCD (desc : string).

(** [rv.setResolved(superClass, interfaceClasses)] links the class to the
    objects the cache holds for its superclass and interfaces; doppioh never
    reads the links back, so the model records only that the step ran. *)
Definition setResolved (r : ReferenceClassData) (superClass : option ClassData)
    (interfaceClasses : list ClassData) : ReferenceClassData :=
  {| getInternalName := getInternalName r;
     getSuperClassReference := getSuperClassReference r;
     getInterfaceClassReferences := getInterfaceClassReferences r;
     isInterface := isInterface r;
     getMethods := getMethods r;
     getMirandaAndDefaultMethods := getMirandaAndDefaultMethods r;
     getUninheritedDefaultMethods := getUninheritedDefaultMethods r;
     getFields := getFields r;
     getInjectedFields := getInjectedFields r;
     getInjectedMethods := getInjectedMethods r;
     getInjectedStaticMethods := getInjectedStaticMethods r;
     isResolved := true |}.

(** ** The inputs of a run

    [classpath t] is [new ReferenceClassData(loadClass(t))]: the parsed
    class file found for the type name [t] on the class path, [None] when
    no class path item yields bytes or the parser rejects them (the two
    are not told apart: the error of [loadClass] stands for the parser's
    as well).
    [stackDepth] is the number of nested [findClass] activations the engine
    allows before it raises a [RangeError].  [existingHeaders] is the text
    of [JVMTypes.d.ts] in the output directory ([None]: the file cannot be
    read).  [doppiojvmPath] is [path.relative(outputPath, doppiojvmPath)].
    [int_classname] is [util.int_classname], taken as a parameter.
    [classes] is what [getClasses(targetPath)] returns in the main
    callback; [getClasses] itself is [Classpath.getClasses] below. *)
Record Env : Type := mkEnv {
  classpath : string -> option ReferenceClassData;
  stackDepth : nat;
  existingHeaders : option string;
  doppiojvmPath : string;
  force_headers : option string;
  int_classname : string -> string;
  typescript : bool;
  classes : list string
}.

(** ** Observable steps

    The trace records, in program order, each class-file load, each
    assignment [cache[descriptor] = rv], each [generateQueue.push] and each
    declaration written by [_processHeader]. *)
Inductive Event : Type :=
| EvLoad (type : string)
| EvCache (descriptor : string)
| EvPush (desc : string) (cls : ClassData)
| EvEmit (cls : ReferenceClassData).

(** ** Program state

    [cache] is the module-level object; [stub] is the text written so far
    to the stub stream; the next five fields are the private members of
    [TSTemplate] ([headerStream] is the text written so far to
    [JVMTypes.d.ts]); the last two are the members of [JSTemplate].
    [cache] and [headerSet] are finite maps from descriptors.  A key
    that is the name of a property which an empty JavaScript object
    inherits ([toString], [constructor], ...) reads as present in the
    source; no descriptor of a class file is such a name, and the maps do
    not tell these keys from the others. *)
Record State : Type := mkState {
  cache : gmap string ClassData;
  trace : list Event;
  stub : string;
  headerCount : nat;
  headerSet : gmap string bool;
  classesSeen : list string;
  headerStream : string;
  generateQueue : list ClassData;
  firstMethod : bool;
  firstClass : bool
}.

Definition initialState : State :=
  {| cache := ∅; trace := []; stub := ""; headerCount := 0;
     headerSet := ∅; classesSeen := []; headerStream := "";
     generateQueue := []; firstMethod := true; firstClass := true |}.

Definition set_cache (f : gmap string ClassData -> gmap string ClassData) (st : State) : State :=
  mkState (f (cache st)) (trace st) (stub st) (headerCount st) (headerSet st)
    (classesSeen st) (headerStream st) (generateQueue st) (firstMethod st) (firstClass st).
Definition set_trace (f : list Event -> list Event) (st : State) : State :=
  mkState (cache st) (f (trace st)) (stub st) (headerCount st) (headerSet st)
    (classesSeen st) (headerStream st) (generateQueue st) (firstMethod st) (firstClass st).
Definition set_stub (f : string -> string) (st : State) : State :=
  mkState (cache st) (trace st) (f (stub st)) (headerCount st) (headerSet st)
    (classesSeen st) (headerStream st) (generateQueue st) (firstMethod st) (firstClass st).
Definition set_headerCount (f : nat -> nat) (st : State) : State :=
  mkState (cache st) (trace st) (stub st) (f (headerCount st)) (headerSet st)
    (classesSeen st) (headerStream st) (generateQueue st) (firstMethod st) (firstClass st).
Definition set_headerSet (f : gmap string bool -> gmap string bool) (st : State) : State :=
  mkState (cache st) (trace st) (stub st) (headerCount st) (f (headerSet st))
    (classesSeen st) (headerStream st) (generateQueue st) (firstMethod st) (firstClass st).
Definition set_classesSeen (f : list string -> list string) (st : State) : State :=
  mkState (cache st) (trace st) (stub st) (headerCount st) (headerSet st)
    (f (classesSeen st)) (headerStream st) (generateQueue st) (firstMethod st) (firstClass st).
Definition set_headerStream (f : string -> string) (st : State) : State :=
  mkState (cache st) (trace st) (stub st) (headerCount st) (headerSet st)
    (classesSeen st) (f (headerStream st)) (generateQueue st) (firstMethod st) (firstClass st).
Definition set_generateQueue (f : list ClassData -> list ClassData) (st : State) : State :=
  mkState (cache st) (trace st) (stub st) (headerCount st) (headerSet st)
    (classesSeen st) (headerStream st) (f (generateQueue st)) (firstMethod st) (firstClass st).
Definition set_firstMethod (b : bool) (st : State) : State :=
  mkState (cache st) (trace st) (stub st) (headerCount st) (headerSet st)
    (classesSeen st) (headerStream st) (generateQueue st) b (firstClass st).
Definition set_firstClass (b : bool) (st : State) : State :=
  mkState (cache st) (trace st) (stub st) (headerCount st) (headerSet st)
    (classesSeen st) (headerStream st) (generateQueue st) (firstMethod st) b.

(** ** The monad of doppioh computations *)

Definition M (A : Type) : Type := State -> outcome A * State.

Definition ret {A} (a : A) : M A := fun st => (Ok a, st).

Definition bind {A B} (m : M A) (k : A -> M B) : M B :=
  fun st =>
    match m st with
    | (Ok a, st') => k a st'
    | (Throw e, st') => (Throw e, st')
    | (Diverge, st') => (Diverge, st')
    end.

Definition throw {A} (e : string) : M A := fun st => (Throw e, st).

Definition modify (f : State -> State) : M unit := fun st => (Ok tt, f st).

(** [try { m } catch (e) { h(e) }]: what [m] did to the state before it
    threw stays done. *)
Definition try_catch {A} (m : M A) (h : string -> M A) : M A :=
  fun st =>
    match m st with
    | (Throw e, st') => h e st'
    | r => r
    end.

Definition lift {A} (o : outcome A) : M A := fun st => (o, st).

Declare Scope doppio_scope.
Delimit Scope doppio_scope with doppio.
Notation "x <- m ;; k" := (bind m (fun x => k))
  (at level 100, m at next level, right associativity) : doppio_scope.
Notation "m ;;; k" := (bind m (fun _ => k))
  (at level 100, right associativity) : doppio_scope.
Open Scope doppio_scope.

(** [l.forEach(f)] *)
Fixpoint forEach {A} (f : A -> M unit) (l : list A) : M unit :=
  match l with
  | [] => ret tt
  | x :: r => f x ;;; forEach f r
  end.

(** [l.map(f)] with an effectful callback. *)
Fixpoint mapM {A B} (f : A -> M B) (l : list A) : M (list B) :=
  match l with
  | [] => ret []
  | x :: r => y <- f x ;; ys <- mapM f r ;; ret (y :: ys)
  end.

Definition log (e : Event) : M unit := modify (set_trace (fun t => t ++ [e])).

(** ** Exceptions

    The [e] of [Throw e] is the message of an [Error] that doppioh creates
    with [new Error(message)]; an error that the engine raises is carried
    with the name of its class in front, as a template literal shows it
    ("RangeError: ...", "TypeError: ...").  No message of doppioh starts
    like that.  [toString e] is what [`${e}`] makes of the caught value:
    [Error.prototype.toString] puts the name of the class and a colon in
    front of the message. *)
Definition raised_by_engine (e : string) : bool :=
  String.prefix "RangeError: " e || String.prefix "TypeError: " e.

Definition toString (e : string) : string :=
  if raised_by_engine e then e else "Error: " +:+ e.

(** ** [loadClass] and [findClass] *)

Definition loadClass (E : Env) (type : string) : M ReferenceClassData :=
  log (EvLoad type) ;;;
  match classpath E type with
  | Some r => ret r
  | None => throw ("Unable to find class " +:+ type)
  end.

(** The [try] statement of [findClass], entered when the descriptor is not
    cached; [findClass] is the function itself, for the nested calls.  The
    message of the new [Error] is the first line of the source's: the
    second line, the text of [e.stack], is the engine's and is left out,
    and so is the engine's limit on the length of a string, which a long
    chain of wrapped messages can reach.  No statement below depends on
    the text that follows the descriptor. *)
Definition resolveClass (E : Env) (findClass : string -> M ClassData)
    (descriptor : string) : M ClassData :=
  try_catch
    (rv <- (if JS.head_is "L" descriptor then
              r <- loadClass E (descriptor2typestr descriptor) ;;
              superClass <- match getSuperClassReference r with
                            | Some name => c <- findClass name ;; ret (Some c)
                            | None => ret None
                            end ;;
              interfaceClasses <- mapM findClass (getInterfaceClassReferences r) ;;
              ret (ReferenceCD (setResolved r superClass interfaceClasses))
            else if JS.head_is "[" descriptor then
              ret (ArrayCD (JS.slice_from 1 descriptor))
            else
              ret (PrimitiveCD descriptor)) ;;
     modify (set_cache (<[descriptor := rv]>)) ;;;
     log (EvCache descriptor) ;;;
     ret rv)
    (fun e => throw ("Unable to read class file for " +:+ descriptor +:+ ": " +:+ toString e)).

(** [depth] counts the [findClass] activations still available on the call
    stack; a call beyond it raises the engine's [RangeError], which the
    [catch] of the enclosing activation wraps like any other failure. *)
Fixpoint findClass (E : Env) (depth : nat) (descriptor : string) : M ClassData :=
  fun st =>
    match depth with
    | O => (Throw "RangeError: Maximum call stack size exceeded", st)
    | S depth' =>
        match cache st !! descriptor with
        | Some cd => (Ok cd, st)
        | None => resolveClass E (findClass E depth') descriptor st
        end
    end.

(** ** Text helpers *)

Definition nl : string := String "010"%char EmptyString.
Definition dq : string := String "034"%char EmptyString.

(** Decimal rendering of an array index inside a template literal. *)
Definition show_nat (n : nat) : string :=
  DecimalString.NilZero.string_of_uint (Nat.to_uint n).

Definition write (s : string) : M unit :=
  modify (set_stub (fun t => t +:+ s)).

Definition headerStream_write (s : string) : M unit :=
  modify (set_headerStream (fun t => t +:+ s)).

(** [l.map((x, i) => f(x, i))], indices counted from [i]. *)
Fixpoint mapMi {A B} (f : A -> nat -> M B) (i : nat) (l : list A) : M (list B) :=
  match l with
  | [] => ret []
  | x :: r => y <- f x i ;; ys <- mapMi f (S i) r ;; ret (y :: ys)
  end.

(** ** [TSTemplate] *)

Module TSTemplate.

(** [generateClassDefinition(desc)].  The array case calls itself on
    [desc.slice(1)], the tail of the string. *)
Fixpoint generateClassDefinition (E : Env) (desc : string) : M unit :=
  fun st =>
    if bool_decide (is_Some (headerSet st !! desc)) || is_primitive_type desc then
      (Ok tt, st)
    else
      let enqueue :=
        modify (set_headerSet (<[desc := true]>)) ;;;
        cls <- findClass E (stackDepth E) desc ;;
        modify (set_generateQueue (fun q => q ++ [cls])) ;;;
        log (EvPush desc cls) in
      match desc with
      | String c component =>
          if Ascii.eqb c "[" then generateClassDefinition E component st
          else enqueue st
      | EmptyString => enqueue st
      end.

(** [jvmtype2tstype(desc, prefix)] *)
Fixpoint jvmtype2tstype (E : Env) (desc : string) (prefix : bool) : M string :=
  match desc with
  | String c component =>
      if Ascii.eqb c "[" then
        inner <- jvmtype2tstype E component prefix ;;
        ret ((if prefix then "JVMTypes." else "") +:+ "JVMArray<" +:+ inner +:+ ">")
      else if Ascii.eqb c "L" then
        generateClassDefinition E desc ;;;
        ret ((if prefix then "JVMTypes." else "") +:+
             JS.replace_char "/" "_" (JS.replace_char "_" "__" (descriptor2typestr desc)))
      else if Ascii.eqb c "J" then ret "Long"
      else if Ascii.eqb c "V" then ret "void"
      else ret "number"
  | EmptyString => ret "number"
  end.

Definition headersStart (E : Env) : M unit :=
  headerStream_write
    ("// TypeScript declaration file for JVM types. Automatically generated by doppioh." +:+ nl +:+
     "// http://github.com/plasma-umass/doppio" +:+ nl +:+
     "import DoppioJVM = require('" +:+ doppiojvmPath E +:+ "');" +:+ nl +:+
     "import JVMThread = DoppioJVM.VM.Threading.JVMThread;" +:+ nl +:+
     "import Long = DoppioJVM.VM.Long;" +:+ nl +:+
     "import ClassData = DoppioJVM.VM.ClassFile.ClassData;" +:+ nl +:+
     "import ArrayClassData = DoppioJVM.VM.ClassFile.ArrayClassData;" +:+ nl +:+
     "import ReferenceClassData = DoppioJVM.VM.ClassFile.ReferenceClassData;" +:+ nl +:+
     "import Monitor = DoppioJVM.VM.Monitor;" +:+ nl +:+
     "import ClassLoader = DoppioJVM.VM.ClassFile.ClassLoader;" +:+ nl +:+
     "import Interfaces = DoppioJVM.VM.Interfaces;" +:+ nl +:+
     nl +:+
     "declare module JVMTypes {" +:+ nl).

Definition getExtension : string := "ts".

Definition fileStart (E : Env) : M unit :=
  write
    ("import JVMTypes = require(" +:+ dq +:+ "./JVMTypes" +:+ dq +:+ ");" +:+ nl +:+
     "import DoppioJVM = require('" +:+ doppiojvmPath E +:+ "');" +:+ nl +:+
     "import JVMThread = DoppioJVM.VM.Threading.JVMThread;" +:+ nl +:+
     "import Long = DoppioJVM.VM.Long;" +:+ nl +:+
     "declare var registerNatives: (natives: any) => void;" +:+ nl).

(** The loop body of [fileEnd] for the class at index [i]. *)
Definition fileEnd_entry (kls : string) (i : nat) : M unit :=
  (if (0 <? i)%nat then write "," else ret tt) ;;;
  write (nl +:+ "  '" +:+ JS.replace_char "_" "/" kls +:+ "': " +:+ kls).

Definition fileEnd : M unit :=
  write (nl +:+ "// Export line. This is what DoppioJVM sees." +:+ nl +:+ "registerNatives({") ;;;
  seen <- (fun st => (Ok (classesSeen st), st)) ;;
  mapMi fileEnd_entry 0 seen ;;;
  write (nl +:+ "});" +:+ nl).

Definition classStart (E : Env) (className : string) : M unit :=
  write (nl +:+ "class " +:+ className +:+ " {" +:+ nl) ;;;
  modify (set_classesSeen (fun l => l ++ [className])) ;;;
  generateClassDefinition E ("L" +:+ JS.replace_char "_" "/" className +:+ ";").

Definition classEnd (className : string) : M unit :=
  write (nl +:+ "}" +:+ nl).

Definition method (E : Env) (classDesc methodName : string) (isStatic : bool)
    (argTypes : list string) (rType : string) : M unit :=
  trueRtype <- jvmtype2tstype E rType true ;;
  let rval :=
    if String.eqb trueRtype "number" then "0"
    else if negb (String.eqb trueRtype "void") then "null"
    else "" in
  forEach (generateClassDefinition E) (argTypes ++ [rType]) ;;;
  javaThis <- (if isStatic then ret ""
               else t <- jvmtype2tstype E classDesc true ;; ret (", javaThis: " +:+ t)) ;;
  args <- (if (length argTypes =? 0)%nat then ret ""
           else l <- mapMi (fun type i =>
                              t <- jvmtype2tstype E type true ;;
                              ret ("arg" +:+ show_nat i +:+ ": " +:+ t)) 0 argTypes ;;
                ret (", " +:+ JS.join ", " l)) ;;
  rt <- jvmtype2tstype E rType true ;;
  write
    (nl +:+ "  public static '" +:+ methodName +:+ "'(thread: JVMThread" +:+ javaThis +:+ args +:+
     "): " +:+ rt +:+ " {" +:+ nl +:+
     "    thread.throwNewException('Ljava/lang/UnsatisfiedLinkError;', 'Native method not implemented.');" +:+
     (if negb (String.eqb rval "") then nl +:+ "    return " +:+ rval +:+ ";" else "") +:+ nl +:+
     "  }" +:+ nl).

(** [_outputMethod(m, stream)]; every call site leaves [nonVirtualOnly]
    at its default [false]. *)
Definition _outputMethod (E : Env) (m : Method) (nonVirtualOnly : bool) : M unit :=
  let argTypes := parameterTypes m in
  let rType := returnType m in
  cbSig <- (if String.eqb rType "V" then ret "e?: java_lang_Throwable"
            else t <- jvmtype2tstype E rType false ;;
                 ret ("e?: java_lang_Throwable" +:+ ", rv?: " +:+ t)) ;;
  let methodFlags := "public" +:+ (if m_isStatic m then " static" else "") in
  args <- (if (0 <? length argTypes)%nat then
             l <- mapM (fun type =>
                          t <- jvmtype2tstype E type false ;;
                          ret (t +:+ (if String.eqb type "J" || String.eqb type "D"
                                      then ", any" else ""))) argTypes ;;
             ret ("args: [" +:+ JS.join ", " l +:+ "]")
           else ret "args: {}[]") ;;
  let methodSig := "(thread: JVMThread, " +:+ args +:+ ", cb?: (" +:+ cbSig +:+ ") => void): void" in
  if m_cls_isInterface m then
    if m_isStatic m then ret tt
    else headerStream_write ("    " +:+ dq +:+ signature m +:+ dq +:+ methodSig +:+ ";" +:+ nl)
  else
    (if negb nonVirtualOnly then
       headerStream_write ("    " +:+ methodFlags +:+ " " +:+ dq +:+ signature m +:+ dq +:+
                           methodSig +:+ ";" +:+ nl)
     else ret tt) ;;;
    headerStream_write ("    " +:+ methodFlags +:+ " " +:+ dq +:+ fullSignature m +:+ dq +:+
                        methodSig +:+ ";" +:+ nl).

Definition _outputField (E : Env) (f : Field) : M unit :=
  let fieldType := rawDescriptor f in
  if f_cls_isInterface f then ret tt
  else
    t <- jvmtype2tstype E fieldType false ;;
    headerStream_write
      ((if f_isStatic f then "    public static " else "    public ") +:+ dq +:+
       descriptor2typestr (f_cls_internalName f) +:+ "/" +:+ f_name f +:+ dq +:+ ": " +:+
       t +:+ ";" +:+ nl).

Definition _outputInjectedField (name type : string) : M unit :=
  headerStream_write ("    public " +:+ name +:+ ": " +:+ type +:+ ";" +:+ nl).

Definition _outputInjectedMethod (name type : string) : M unit :=
  headerStream_write ("    public " +:+ name +:+ type +:+ ";" +:+ nl).

Definition _outputInjectedStaticMethod (name type : string) : M unit :=
  headerStream_write ("    public static " +:+ name +:+ type +:+ ";" +:+ nl).

(** [_processHeader(cls)].  The worklist holds whatever [findClass]
    returned; on an array or primitive record the first call of a
    [ReferenceClassData] getter is a [TypeError].  The progress line on
    the console is not modelled, its [headerCount++] is. *)
Definition _processHeader (E : Env) (cls : ClassData) : M unit :=
  match cls with
  | ReferenceCD cls =>
      let desc := getInternalName cls in
      let interfaces := getInterfaceClassReferences cls in
      let superClass := getSuperClassReference cls in
      let methods := getMethods cls ++ getMirandaAndDefaultMethods cls in
      modify (set_headerCount S) ;;;
      name <- jvmtype2tstype E desc false ;;
      headerStream_write
        ((if isInterface cls then "  export interface " else "  export class ") +:+ name) ;;;
      log (EvEmit cls) ;;;
      match superClass with
      | Some superName =>
          t <- jvmtype2tstype E superName false ;;
          headerStream_write (" extends " +:+ t)
      | None => ret tt
      end ;;;
      (if (0 <? length interfaces)%nat then
         (if isInterface cls then headerStream_write ", "
          else headerStream_write " implements ") ;;;
         l <- mapM (fun ifaceName => jvmtype2tstype E ifaceName false) interfaces ;;
         headerStream_write (JS.join ", " l)
       else ret tt) ;;;
      headerStream_write (" {" +:+ nl) ;;;
      forEach (fun '(name, type) => _outputInjectedField name type) (getInjectedFields cls) ;;;
      forEach (fun '(name, type) => _outputInjectedMethod name type) (getInjectedMethods cls) ;;;
      forEach (fun '(name, type) => _outputInjectedStaticMethod name type)
        (getInjectedStaticMethods cls) ;;;
      forEach (_outputField E) (getFields cls) ;;;
      forEach (fun m => _outputMethod E m false) methods ;;;
      forEach (fun m => _outputMethod E m false) (getUninheritedDefaultMethods cls) ;;;
      headerStream_write ("  }" +:+ nl)
  | _ => throw "TypeError: cls.getInterfaceClassReferences is not a function"
  end.

(** [_processGenerateQueue()]: [pop] takes the last element.  The loop
    runs until the worklist is empty; [fuel] bounds its iterations. *)
Fixpoint _processGenerateQueue (E : Env) (fuel : nat) : M unit :=
  fun st =>
    match last (generateQueue st) with
    | None => (Ok tt, st)
    | Some cls =>
        match fuel with
        | O => (Diverge, st)
        | S fuel' =>
            (modify (set_generateQueue (fun q => removelast q)) ;;;
             _processHeader E cls ;;;
             _processGenerateQueue E fuel') st
        end
    end.

Definition generateArrayDefinition : M unit :=
  headerStream_write
    ("  export class JVMArray<T> extends java_lang_Object {" +:+ nl +:+
     "    /**" +:+ nl +:+
     "     * NOTE: Our arrays are either JS arrays, or TypedArrays for primitive" +:+ nl +:+
     "     * types." +:+ nl +:+
     "     */" +:+ nl +:+
     "    public array: T[];" +:+ nl +:+
     "    public getClass(): ArrayClassData<T>;" +:+ nl +:+
     "    /**" +:+ nl +:+
     "     * Create a new JVM array of this type that starts at start, and ends at" +:+ nl +:+
     "     * end. End defaults to the end of the array." +:+ nl +:+
     "     */" +:+ nl +:+
     "    public slice(start: number, end?: number): JVMArray<T>;" +:+ nl +:+
     "  }" +:+ nl).

Definition generateMiscDefinitions : M unit :=
  headerStream_write
    ("  // Basic, valid JVM types." +:+ nl +:+
     "  export type BasicType = number | java_lang_Object | Long;" +:+ nl +:+
     "  export type JVMFunction = (thread: JVMThread, args: BasicType[], cb: (e?: JVMTypes.java_lang_Object, rv?: BasicType) => void) => void;" +:+ nl).

(** [headersEnd()] *)
Definition headersEnd (E : Env) (fuel : nat) : M unit :=
  _processGenerateQueue E fuel ;;;
  headerStream_write ("}" +:+ nl +:+ "export = JVMTypes;" +:+ nl).

(** One scanning loop of the constructor:
    [while ((searchIdx = existingHeaders.indexOf(marker, searchIdx)) > -1)].
    [markerLength] is the literal 13 or 17 of the source; [skipArrays] is
    the [clsName.indexOf("JVMArray") !== 0] test of the first pass.
    [searchIdx] grows with every iteration, so the loop ends; [gas]
    bounds the iterations and the constructor supplies more than the text
    is long. *)
Fixpoint replayLoop (E : Env) (marker : string) (markerLength : Z) (skipArrays : bool)
    (existing : string) (gas : nat) (searchIdx : Z) : M unit :=
  let searchIdx := JS.indexOf marker searchIdx existing in
  if (-1 <? searchIdx)%Z then
    match gas with
    | O => lift Diverge
    | S gas' =>
        let clsName :=
          JS.slice (searchIdx + markerLength)
            (JS.indexOf " " (searchIdx + markerLength) existing) existing in
        (if skipArrays && (JS.indexOf "JVMArray" 0 clsName =? 0)%Z then ret tt
         else desc <- lift (tstype2jvmtype clsName) ;; generateClassDefinition E desc) ;;;
        replayLoop E marker markerLength skipArrays existing gas' (searchIdx + 1)
    end
  else ret tt.

(** The [try] block of the constructor. *)
Definition replayExisting (E : Env) : M unit :=
  existing <- match existingHeaders E with
              | Some text => ret text
              | None => throw "ENOENT: no such file or directory"
              end ;;
  replayLoop E "export class " 13 true existing (S (String.length existing)) 0 ;;;
  replayLoop E "export interface " 17 false existing (S (String.length existing)) 0.

(** [new TSTemplate(doppiojvmPath, outputPath)] *)
Definition constructor (E : Env) : M unit :=
  try_catch (replayExisting E) (fun _ => ret tt) ;;;
  headersStart E ;;;
  generateArrayDefinition ;;;
  generateMiscDefinitions ;;;
  generateClassDefinition E "Ljava/lang/Throwable;" ;;;
  match force_headers E with
  | Some clses =>
      if String.eqb clses "" then ret tt
      else forEach (fun clsName => generateClassDefinition E (int_classname E clsName))
             (JS.split_on ":" clses)
  | None => ret tt
  end.

End TSTemplate.

(** ** [JSTemplate] *)

Module JSTemplate.

Definition getExtension : string := "js".

Definition fileStart : M unit :=
  write ("// This entire object is exported. Feel free to define private helper functions above it."
         +:+ nl +:+ "registerNatives({").

Definition fileEnd : M unit :=
  write (nl +:+ "});" +:+ nl).

Definition classStart (className : string) : M unit :=
  modify (set_firstMethod true) ;;;
  (fun st => if firstClass st then modify (set_firstClass false) st
             else write ("," +:+ nl) st) ;;;
  write (nl +:+ "  '" +:+ JS.replace_char "_" "/" className +:+ "': {" +:+ nl).

Definition classEnd (className : string) : M unit :=
  write (nl +:+ nl +:+ "  }").

Definition method (classDesc methodName : string) (isStatic : bool)
    (argTypes : list string) (rType : string) : M unit :=
  let argSig := "thread" +:+ (if isStatic then "" else ", javaThis") +:+
                String.concat "" (map (fun i => ", arg" +:+ show_nat i) (seq 0 (length argTypes))) in
  (fun st => if firstMethod st then modify (set_firstMethod false) st
             else write ("," +:+ nl) st) ;;;
  write (nl +:+ "    '" +:+ methodName +:+ "': function(" +:+ argSig +:+ ") {") ;;;
  write (nl +:+ "      thread.throwNewException('Ljava/lang/UnsatisfiedLinkError;', 'Native method not implemented.');") ;;;
  write (nl +:+ "    }").

End JSTemplate.

(** ** [ITemplate]: a Doppioh output template

    The [stream] argument of the interface is the stub stream, the [stub]
    component of the state. *)
Record ITemplate : Type := mkTemplate {
  getExtension : string;
  fileStart : M unit;
  fileEnd : M unit;
  classStart : string -> M unit;
  classEnd : string -> M unit;
  method : string -> string -> bool -> list string -> string -> M unit
}.

Definition TSTemplate_ (E : Env) : ITemplate :=
  {| getExtension := TSTemplate.getExtension;
     fileStart := TSTemplate.fileStart E;
     fileEnd := TSTemplate.fileEnd;
     classStart := TSTemplate.classStart E;
     classEnd := TSTemplate.classEnd;
     method := TSTemplate.method E |}.

Definition JSTemplate_ : ITemplate :=
  {| getExtension := JSTemplate.getExtension;
     fileStart := JSTemplate.fileStart;
     fileEnd := JSTemplate.fileEnd;
     classStart := JSTemplate.classStart;
     classEnd := JSTemplate.classEnd;
     method := JSTemplate.method |}.

(** ** [processClassData]

    [processMethods] is the [methods.forEach] callback run over the method
    list, with the local variable [nativeFound] threaded through. *)
Fixpoint processMethods (template : ITemplate) (classData : ReferenceClassData)
    (fixedClassName : string) (methods : list Method) (nativeFound : bool) : M bool :=
  match methods with
  | [] => ret nativeFound
  | m :: rest =>
      nativeFound' <-
        (if m_isNative m then
           (if negb nativeFound then classStart template fixedClassName else ret tt) ;;;
           method template (getInternalName classData) (signature m) (m_isStatic m)
             (parameterTypes m) (returnType m) ;;;
           ret true
         else ret nativeFound) ;;
      processMethods template classData fixedClassName rest nativeFound'
  end.

Definition processClassData (template : ITemplate) (classData : ReferenceClassData) : M unit :=
  let fixedClassName := JS.replace_char "/" "_" (getInternalName classData) in
  let fixedClassName := JS.substring 1 (JS.len fixedClassName - 1) fixedClassName in
  nativeFound <- processMethods template classData fixedClassName (getMethods classData) false ;;
  if nativeFound then classEnd template fixedClassName else ret tt.

(** ** The main callback

    Runs once the class path is loaded.  [processClasses] is the loop over
    the descriptors of [getClasses], which denote reference classes; on any
    other record [classData.getMethods] is a [TypeError].  [mainBody] is
    what follows the construction of the template; [fuel] is the iteration
    budget of the header worklist loop.  The runs of [main] are those in
    which [getClasses] has returned, [classes E]; when it throws instead,
    the callback ends after [fileStart]. *)
Definition processClasses (E : Env) (template : ITemplate) : M unit :=
  forEach (fun desc =>
             cd <- findClass E (stackDepth E) desc ;;
             match cd with
             | ReferenceCD classData => processClassData template classData
             | _ => throw "TypeError: classData.getMethods is not a function"
             end) (classes E).

Definition mainBody (E : Env) (fuel : nat) (template : ITemplate) : M unit :=
  fileStart template ;;;
  processClasses E template ;;;
  fileEnd template ;;;
  if typescript E then TSTemplate.headersEnd E fuel else ret tt.

Definition main (E : Env) (fuel : nat) : M unit :=
  template <- (if typescript E then TSTemplate.constructor E ;;; ret (TSTemplate_ E)
               else ret JSTemplate_) ;;
  mainBody E fuel template.

(** ** The class path: [loadClass], [getClasses] and [file2desc]

    A class path item is known to doppioh through four methods of
    [IClasspathItem].  [tryLoadClassSync] yields the bytes of a class
    file, [tryStatSync] the answer of [stat.isDirectory()] on the stats
    object it returns, [tryReaddirSync] a directory listing; [None] is the
    [null] each of them returns for a missing resource.  Of Node's [path]
    module [getClasses] calls [join] and [extname]; both are taken as
    they are. *)

Module Classpath.

Inductive TriState : Type := TRUE | FALSE | INDETERMINATE.

Record IClasspathItem : Type := mkItem {
  hasClass : string -> TriState;
  tryLoadClassSync : string -> option string;
  tryStatSync : string -> option bool;
  tryReaddirSync : string -> option (list string)
}.

Record Path : Type := mkPath {
  join : string -> string -> string;
  extname : string -> string
}.

(** [java/lang/String.class => Ljava/lang/String;] *)
Definition file2desc (fname : string) : string :=
  "L" +:+ JS.slice 0 (JS.len fname - 6) fname +:+ ";".

(** [loadClass(type)]: the loop over the class path, as a recursion on the
    items still to be asked. *)
Fixpoint loadClass (classpath : list IClasspathItem) (type : string) : outcome string :=
  match classpath with
  | [] => Throw ("Unable to find class " +:+ type)
  | item :: rest =>
      match hasClass item type with
      | INDETERMINATE | TRUE =>
          match tryLoadClassSync item type with
          | Some buff => Ok buff
          | None => loadClass rest type
          end
      | FALSE => loadClass rest type
      end
  end.

(** The two [tryStatSync] calls of the first loop of [getClasses]. *)
Definition statItem (item : string) (cp : IClasspathItem) : option bool :=
  match tryStatSync cp item with
  | Some stat => Some stat
  | None => tryStatSync cp (item +:+ ".class")
  end.

(** The first loop of [getClasses], with its variables [cpItems] and
    [isDir]. *)
Fixpoint findItems (classpath : list IClasspathItem) (item : string)
    (cpItems : list IClasspathItem) (isDir : bool) : list IClasspathItem * bool :=
  match classpath with
  | [] => (cpItems, isDir)
  | cp :: rest =>
      match statItem item cp with
      | None => findItems rest item cpItems isDir
      | Some stat => findItems rest item (cpItems ++ [cp]) stat
      end
  end.

(** The loop over one directory listing. *)
Fixpoint scanListing (path : Path) (dir : string) (dirListing : list string)
    (rv dirStack : list string) : list string * list string :=
  match dirListing with
  | [] => (rv, dirStack)
  | item :: rest =>
      let itemPath := join path dir item in
      if String.eqb (extname path itemPath) ".class"
      then scanListing path dir rest (rv ++ [file2desc itemPath]) dirStack
      else scanListing path dir rest rv (dirStack ++ [itemPath])
  end.

(** The loop over [cpItems] for one directory. *)
Fixpoint scanItems (path : Path) (dir : string) (cpItems : list IClasspathItem)
    (rv dirStack : list string) : list string * list string :=
  match cpItems with
  | [] => (rv, dirStack)
  | cp :: rest =>
      match tryReaddirSync cp dir with
      | None => scanItems path dir rest rv dirStack
      | Some dirListing =>
          let '(rv', dirStack') := scanListing path dir dirListing rv dirStack in
          scanItems path dir rest rv' dirStack'
      end
  end.

(** [while (dirStack.length > 0)]: [pop] takes the last element.  The loop
    runs as long as directories keep being found; [fuel] bounds its
    iterations. *)
Fixpoint walk (path : Path) (cpItems : list IClasspathItem) (fuel : nat)
    (rv dirStack : list string) : outcome (list string) :=
  match last dirStack with
  | None => Ok rv
  | Some dir =>
      match fuel with
      | O => Diverge
      | S fuel' =>
          let '(rv', dirStack') := scanItems path dir cpItems rv (removelast dirStack) in
          walk path cpItems fuel' rv' dirStack'
      end
  end.

(** [getClasses(item)].  [isDir] is read only after some item has set
    it. *)
Definition getClasses (path : Path) (classpath : list IClasspathItem) (fuel : nat)
    (item : string) : outcome (list string) :=
  let '(cpItems, isDir) := findItems classpath item [] false in
  if (length cpItems =? 0)%nat then Throw ("Unable to find resource " +:+ item +:+ ".")
  else if isDir then walk path cpItems fuel [] [item]
  else Ok [if String.eqb (extname path item) ".class" then file2desc item
           else "L" +:+ item +:+ ";"].

End Classpath.

(** ** The names of the stub artifact

    [targetName] names the stub file, [targetPath] is what [getClasses] is
    asked for. *)
Definition targetName (className : string) : string :=
  JS.replace_char "." "_" (JS.replace_char "/" "_" className).

Definition targetPath (className : string) : string :=
  JS.replace_char "." "/" className.

(** ** The output directory

    Before the class path is set up, the script makes sure that the output
    directory exists.  Node's [fs] module is an external collaborator: the
    two operations the script calls are taken as they are, as operations
    on the state [W] of the file system.  [existsSync] answers whether
    the path can be reached; [mkdirSync] creates a directory or throws
    (the path exists, if only as a symbolic link that leads nowhere; its
    parent is missing; the process may not write there; ...).  Nothing is
    assumed about them. *)

Module FS.

Record FileSystem (W : Type) : Type := mkFileSystem {
  existsSync : string -> W -> bool;
  mkdirSync : string -> W -> outcome W
}.
Arguments existsSync {W} _ _ _.
Arguments mkdirSync {W} _ _ _.

End FS.

(** [if (!fs.existsSync(outputDirectory)) { fs.mkdirSync(outputDirectory); }] *)
Definition createOutputDirectory {W : Type} (fs : FS.FileSystem W) (outputDirectory : string)
    (w : W) : outcome W :=
  if negb (FS.existsSync fs outputDirectory w) then FS.mkdirSync fs outputDirectory w
  else Ok w.

(** * Sample class paths *)

Module Samples.

Definition cls (name : string) (super : option string) (ifaces : list string)
    (iface : bool) (ms : list Method) : ReferenceClassData :=
  mkRef name super ifaces iface ms [] [] [] [] [] [] false.

Definition native (sig : string) (static : bool) (args : list string) (rt : string) : Method :=
  mkMethod sig ("X/" +:+ sig) args rt static true false.

Definition plainMethod (sig : string) : Method :=
  mkMethod sig ("X/" +:+ sig) [] "V" false false false.

Definition Object_ := cls "Ljava/lang/Object;" None [] false [].
Definition Throwable_ := cls "Ljava/lang/Throwable;" (Some "Ljava/lang/Object;") [] false [].
Definition Foo_Bar := cls "LFoo_Bar;" (Some "Ljava/lang/Object;") [] false [].
Definition a__b := cls "La/_b;" (Some "Ljava/lang/Object;") [] false [].
Definition Base := cls "Lp/Base;" (Some "Ljava/lang/Object;") [] true [].
Definition Sub := cls "Lp/Sub;" (Some "Ljava/lang/Object;") ["Lp/Base;"] true [].
Definition Plain := cls "LPlain;" (Some "Ljava/lang/Object;") [] false [plainMethod "run()V"].
Definition Nat_ :=
  cls "LNat;" (Some "Ljava/lang/Object;") []
    false [plainMethod "run()V"; native "peek(I)J" true ["I"] "J"; native "poke()V" false [] "V"].
Definition number_ := cls "Lnumber;" (Some "Ljava/lang/Object;") [] false [].
Definition A := cls "LA;" (Some "LB;") [] false [].
Definition B := cls "LB;" (Some "LA;") [] false [].

Definition all : list ReferenceClassData :=
  [Object_; Throwable_; Foo_Bar; a__b; Base; Sub; Plain; Nat_; number_; A; B].

(** The class path finds a class under the type name of its descriptor. *)
Definition cp (t : string) : option ReferenceClassData :=
  List.find (fun r => String.eqb (descriptor2typestr (getInternalName r)) t) all.

Definition env (ts : bool) (hdr : option string) (requested : list string) : Env :=
  mkEnv cp 16 hdr "doppiojvm" None (fun s => s) ts requested.

(** A class with a field of the type [Gone], which the class path does not
    hold (any more), and the class path with this class added. *)
Definition Stale : ReferenceClassData :=
  mkRef "LStale;" (Some "Ljava/lang/Object;") [] false [native "peek()V" true [] "V"] [] []
    [mkField "gone" "LGone;" false "LStale;" false] [] [] [] false.

Definition stale_cp (t : string) : option ReferenceClassData :=
  if String.eqb t "Stale" then Some Stale else cp t.

Definition stale_env (ts : bool) (hdr : option string) (requested : list string) : Env :=
  mkEnv stale_cp 16 hdr "doppiojvm" None (fun s => s) ts requested.

End Samples.

(** * Specification vocabulary *)

(** The computation fails with an exception. *)
Definition fails {A} (o : outcome A) : Prop := exists e, o = Throw e.

(** [n] array dimensions in front of a descriptor. *)
Fixpoint array_of (n : nat) (desc : string) : string :=
  match n with
  | O => desc
  | S n' => String "[" (array_of n' desc)
  end.

(** Every package separator of the name is followed by a character that is
    neither a separator nor an underscore (or ends the name). *)
Fixpoint separators_isolated (name : string) : bool :=
  match name with
  | String a r =>
      (if Ascii.eqb a "/" then negb (JS.head_is "/" r || JS.head_is "_" r) else true)
      && separators_isolated r
  | EmptyString => true
  end.

(** Internal names whose output name [tstype2jvmtype] reads as a reference
    type and can split back into its segments. *)
Definition decodable_name (name : string) : bool :=
  separators_isolated name
  && negb (String.prefix "JVMArray" name)
  && negb (String.eqb name "number")
  && negb (String.eqb name "void").


(** The string contains neither an underscore nor a package separator. *)
Fixpoint plain (s : string) : bool :=
  match s with
  | String a r => negb (Ascii.eqb a "_") && negb (Ascii.eqb a "/") && plain r
  | EmptyString => true
  end.


(** ** Relations between the state before and after a computation *)

(** [always R m]: whatever the outcome of [m], the state it leaves is
    [R]-related to the one it started in. *)
Definition always (R : relation State) {A} (m : M A) : Prop :=
  forall st, R st (snd (m st)).

(** The trace only grows. *)
Definition trace_extends (st st' : State) : Prop :=
  exists t, trace st' = trace st ++ t.

(** ** The class block of the stub artifact, as the specification words it *)

(** [fixedClassName] of [processClassData]. *)
Definition fixedClassName (classData : ReferenceClassData) : string :=
  let fixed := JS.replace_char "/" "_" (getInternalName classData) in
  JS.substring 1 (JS.len fixed - 1) fixed.

Definition nativeMethods (classData : ReferenceClassData) : list Method :=
  List.filter m_isNative (getMethods classData).


(** A sample file system: directories, files and symbolic links in a
    tree, under paths that are lists of segments.  [existsSync] follows a
    link, [mkdirSync] does not; it creates one level, under a parent that
    is a directory. *)
Module SampleFS.

Inductive node : Type :=
| Dir
| File (content : string)
| Link (target : list string).

Definition segments (p : string) : list string := JS.split_on "/" p.

Definition existsSync (p : string) (t : gmap (list string) node) : bool :=
  match t !! segments p with
  | Some (Link target) => bool_decide (is_Some (t !! target))
  | Some _ => true
  | None => false
  end.

Definition mkdirSync (p : string) (t : gmap (list string) node)
    : outcome (gmap (list string) node) :=
  match t !! segments p with
  | Some _ => Throw ("EEXIST: file already exists, mkdir '" +:+ p +:+ "'")
  | None =>
      match t !! removelast (segments p) with
      | Some Dir => Ok (<[segments p := Dir]> t)
      | Some _ => Throw ("ENOTDIR: not a directory, mkdir '" +:+ p +:+ "'")
      | None => Throw ("ENOENT: no such file or directory, mkdir '" +:+ p +:+ "'")
      end
  end.

Definition fs : FS.FileSystem (gmap (list string) node) :=
  FS.mkFileSystem (gmap (list string) node) existsSync mkdirSync.

(** A home directory that holds nothing but a link to a directory that is
    gone. *)
Definition home : gmap (list string) node :=
  <[ ["home"; "old"] := Link ["home"; "gone"] ]> (<[ ["home"] := Dir ]> {[ [] := Dir ]}).

End SampleFS.

(** [f] reads the same in both states. *)
Definition same {A} (f : State -> A) : relation State :=
  fun st st' => f st' = f st.

(** Text is only ever appended to the header stream. *)
Definition header_extends (st st' : State) : Prop :=
  exists t, headerStream st' = headerStream st +:+ t.

(** The first line of the declaration [_processHeader] writes for an
    interface that has a superclass reference. *)
Definition interfaceDeclaration (cls : ReferenceClassData) (superName : string) : string :=
  "  export interface " +:+ ts_typename false (getInternalName cls) +:+
  " extends " +:+ ts_typename false superName +:+
  (if (0 <? length (getInterfaceClassReferences cls))%nat then
     ", " +:+ JS.join ", " (map (ts_typename false) (getInterfaceClassReferences cls))
   else "") +:+
  " {" +:+ nl.

(** Descriptors marked in [headerSet] stay marked. *)
Definition headerSet_grows (st st' : State) : Prop :=
  forall d, is_Some (headerSet st !! d) -> is_Some (headerSet st' !! d).

(** The descriptor [classStart] rebuilds from the class name it is given. *)
Definition seedDescriptor (classData : ReferenceClassData) : string :=
  "L" +:+ JS.replace_char "_" "/" (fixedClassName classData) +:+ ";".

(** The computation uses up no iteration budget. *)
Definition never_diverges {A} (m : M A) : Prop :=
  forall st, fst (m st) <> Diverge.

(** A prior header whose first declaration can be replayed and whose second
    names a class that is not on the class path. *)
Definition brokenHeader : string :=
  "  export class Foo__Bar extends java_lang_Object {" +:+ nl +:+
  "  }" +:+ nl +:+
  "  export class Missing {" +:+ nl.

(** ** The header worklist, read off the trace *)

(** The pushes onto [generateQueue], oldest first: the descriptor that
    [generateClassDefinition] was called with and the record pushed. *)
Fixpoint pushes (t : list Event) : list (string * ClassData) :=
  match t with
  | [] => []
  | EvPush desc cls :: r => (desc, cls) :: pushes r
  | _ :: r => pushes r
  end.

(** The declarations written by [_processHeader], oldest first. *)
Fixpoint emits (t : list Event) : list ReferenceClassData :=
  match t with
  | [] => []
  | EvEmit cls :: r => cls :: emits r
  | _ :: r => emits r
  end.

(** No descriptor was pushed twice, and every pushed descriptor is marked
    in [headerSet]. *)
Definition pushed_once (st : State) : Prop :=
  NoDup (pushes (trace st)).*1
  /\ forall d, d ∈ (pushes (trace st)).*1 -> is_Some (headerSet st !! d).

(** Every record pushed so far has been emitted, is being emitted
    ([inflight]) or waits on the worklist. *)
Definition accounted (inflight : list ClassData) (st : State) : Prop :=
  (pushes (trace st)).*2 ≡ₚ (ReferenceCD <$> emits (trace st)) ++ inflight ++ generateQueue st.

Definition keeps_pushed_once (st st' : State) : Prop :=
  pushed_once st -> pushed_once st'.

Definition keeps_accounted (st st' : State) : Prop :=
  forall inflight, accounted inflight st -> accounted inflight st'.

(** What [findClass] leaves alone: everything but the cache and the load
    and cache events of the trace. *)
Definition resolver_frame (st st' : State) : Prop :=
  headerSet st' = headerSet st
  /\ generateQueue st' = generateQueue st
  /\ pushes (trace st') = pushes (trace st)
  /\ emits (trace st') = emits (trace st).

(** What a computation that was entered with the records [inflight] in
    flight leaves behind: when it returns, everything pushed is emitted or
    still queued; when it fails, some records may be left in flight. *)
Definition settled {A} (o : outcome A) (st : State) : Prop :=
  match o with
  | Ok _ => accounted [] st
  | _ => exists inflight, accounted inflight st
  end.

(** ** The stub artifact as a function of the inputs *)

(** The environment with another prior header. *)
Definition with_existingHeaders (h : option string) (E : Env) : Env :=
  mkEnv (classpath E) (stackDepth E) h (doppiojvmPath E) (force_headers E)
    (int_classname E) (typescript E) (classes E).

(** The record [findClass] returns for a descriptor, whenever it returns. *)
Definition canon (E : Env) (descriptor : string) : ClassData :=
  if JS.head_is "L" descriptor then
    match classpath E (descriptor2typestr descriptor) with
    | Some r => ReferenceCD (setResolved r None [])
    | None => PrimitiveCD descriptor
    end
  else if JS.head_is "[" descriptor then ArrayCD (JS.slice_from 1 descriptor)
  else PrimitiveCD descriptor.

Definition cache_canonical (E : Env) (st : State) : Prop :=
  forall d cd, cache st !! d = Some cd -> cd = canon E d.

Definition keeps_canonical (E : Env) (st st' : State) : Prop :=
  cache_canonical E st -> cache_canonical E st'.

(** Neither the stub stream nor the list of classes seen is touched. *)
Definition stub_untouched (st st' : State) : Prop :=
  stub st' = stub st /\ classesSeen st' = classesSeen st.

(** [l.map((x, i) => f(x, i))] with a pure callback, indices from [i]. *)
Fixpoint mapi {A B} (f : A -> nat -> B) (i : nat) (l : list A) : list B :=
  match l with
  | [] => []
  | x :: r => f x i :: mapi f (S i) r
  end.

(** The texts of a list, one after the other. *)
Definition texts (l : list string) : string := fold_right String.append "" l.

(** What [TSTemplate.method] writes. *)
Definition TS_method_text (classDesc methodName : string) (isStatic : bool)
    (argTypes : list string) (rType : string) : string :=
  let trueRtype := ts_typename true rType in
  let rval :=
    if String.eqb trueRtype "number" then "0"
    else if negb (String.eqb trueRtype "void") then "null"
    else "" in
  let javaThis := if isStatic then "" else ", javaThis: " +:+ ts_typename true classDesc in
  let args :=
    if (length argTypes =? 0)%nat then ""
    else ", " +:+ JS.join ", "
                    (mapi (fun type i => "arg" +:+ show_nat i +:+ ": " +:+ ts_typename true type)
                       0 argTypes) in
  nl +:+ "  public static '" +:+ methodName +:+ "'(thread: JVMThread" +:+ javaThis +:+ args +:+
  "): " +:+ ts_typename true rType +:+ " {" +:+ nl +:+
  "    thread.throwNewException('Ljava/lang/UnsatisfiedLinkError;', 'Native method not implemented.');" +:+
  (if negb (String.eqb rval "") then nl +:+ "    return " +:+ rval +:+ ";" else "") +:+ nl +:+
  "  }" +:+ nl.

(** What [processClassData] writes with the TypeScript template, and what
    it appends to [classesSeen]. *)
Definition TS_class_text (r : ReferenceClassData) : string :=
  match nativeMethods r with
  | [] => ""
  | natives =>
      (nl +:+ "class " +:+ fixedClassName r +:+ " {" +:+ nl) +:+
      texts (map (fun m => TS_method_text (getInternalName r) (signature m) (m_isStatic m)
                             (parameterTypes m) (returnType m)) natives) +:+
      (nl +:+ "}" +:+ nl)
  end.

Definition TS_class_seen (r : ReferenceClassData) : list string :=
  match nativeMethods r with
  | [] => []
  | _ => [fixedClassName r]
  end.

(** The records of the requested descriptors. *)
Definition requested (E : Env) (descs : list string) : list ReferenceClassData :=
  omap (fun d => match canon E d with
                 | ReferenceCD r => Some r
                 | _ => None
                 end) descs.

Definition TS_fileStart_text (E : Env) : string :=
  "import JVMTypes = require(" +:+ dq +:+ "./JVMTypes" +:+ dq +:+ ");" +:+ nl +:+
  "import DoppioJVM = require('" +:+ doppiojvmPath E +:+ "');" +:+ nl +:+
  "import JVMThread = DoppioJVM.VM.Threading.JVMThread;" +:+ nl +:+
  "import Long = DoppioJVM.VM.Long;" +:+ nl +:+
  "declare var registerNatives: (natives: any) => void;" +:+ nl.

Definition TS_fileEnd_text (seen : list string) : string :=
  (nl +:+ "// Export line. This is what DoppioJVM sees." +:+ nl +:+ "registerNatives({") +:+
  texts (mapi (fun kls i => (if (0 <? i)%nat then "," else "") +:+
                            (nl +:+ "  '" +:+ JS.replace_char "_" "/" kls +:+ "': " +:+ kls))
           0 seen) +:+
  (nl +:+ "});" +:+ nl).

(** The stub artifact of a TypeScript run that returns. *)
Definition TS_stub_text (E : Env) : string :=
  TS_fileStart_text E +:+
  texts (map TS_class_text (requested E (classes E))) +:+
  TS_fileEnd_text (concat (map TS_class_seen (requested E (classes E)))).

(** ** Further vocabulary *)

(** The character occurs in the string. *)
Fixpoint occurs (c : ascii) (s : string) : bool :=
  match s with
  | String a r => Ascii.eqb a c || occurs c r
  | EmptyString => false
  end.

(** A reference descriptor [L<name>;]. *)
Definition reference_descriptor (desc : string) : Prop :=
  exists name, desc = "L" +:+ name +:+ ";".

(** The messages [findClass] fails with: a class file that no class path
    item yields or a used-up call stack, wrapped once by each activation
    that is unwound. *)
Inductive resolution_error : string -> Prop :=
| re_missing (type : string) :
    resolution_error ("Unable to find class " +:+ type)
| re_stack :
    resolution_error "RangeError: Maximum call stack size exceeded"
| re_wrap (descriptor e : string) :
    resolution_error e ->
    resolution_error ("Unable to read class file for " +:+ descriptor +:+ ": " +:+ toString e).

(** Every exception of the computation satisfies [P]. *)
Definition throws_only (P : string -> Prop) {A} (m : M A) : Prop :=
  forall st e st', m st = (Throw e, st') -> P e.

(** Every cache entry is still there, with the record it had. *)
Definition cache_grows (st st' : State) : Prop :=
  forall d cd, cache st !! d = Some cd -> cache st' !! d = Some cd.

(** The [switch] statement of [findClass]: the record built for the
    descriptor, before it is cached. *)
Definition resolveBody (E : Env) (findClass : string -> M ClassData)
    (descriptor : string) : M ClassData :=
  if JS.head_is "L" descriptor then
    r <- loadClass E (descriptor2typestr descriptor) ;;
    superClass <- match getSuperClassReference r with
                  | Some name => c <- findClass name ;; ret (Some c)
                  | None => ret None
                  end ;;
    interfaceClasses <- mapM findClass (getInterfaceClassReferences r) ;;
    ret (ReferenceCD (setResolved r superClass interfaceClasses))
  else if JS.head_is "[" descriptor then
    ret (ArrayCD (JS.slice_from 1 descriptor))
  else
    ret (PrimitiveCD descriptor).

(** The message of the [Error] that the [catch] of [findClass] throws. *)
Definition unreadable (descriptor e : string) : string :=
  "Unable to read class file for " +:+ descriptor +:+ ": " +:+ toString e.

(** Sample class path items: a directory tree with the package [p] and a
    jar that holds the class [q/C] only. *)
Definition sampleDir : Classpath.IClasspathItem :=
  {| Classpath.hasClass := fun t =>
       if String.eqb t "p/A" || String.eqb t "p/B" then Classpath.TRUE else Classpath.FALSE;
     Classpath.tryLoadClassSync := fun t =>
       if String.eqb t "p/A" then Some "bytes of p/A"
       else if String.eqb t "p/B" then Some "bytes of p/B" else None;
     Classpath.tryStatSync := fun f =>
       if String.eqb f "p" then Some true
       else if String.eqb f "p/A.class" || String.eqb f "p/B.class" then Some false else None;
     Classpath.tryReaddirSync := fun d =>
       if String.eqb d "p" then Some ["A.class"; "B.class"] else None |}.

Definition sampleJar : Classpath.IClasspathItem :=
  {| Classpath.hasClass := fun t => Classpath.INDETERMINATE;
     Classpath.tryLoadClassSync := fun t =>
       if String.eqb t "q/C" then Some "bytes of q/C" else None;
     Classpath.tryStatSync := fun f =>
       if String.eqb f "q" then Some true
       else if String.eqb f "q/C.class" then Some false else None;
     Classpath.tryReaddirSync := fun d =>
       if String.eqb d "q" then Some ["C.class"] else None |}.

(** [path.join] and [path.extname] on two plain segments and on names with
    at most one dot. *)
Definition samplePath : Classpath.Path :=
  {| Classpath.join := fun dir item => dir +:+ "/" +:+ item;
     Classpath.extname := fun p =>
       match index 0 "." p with
       | Some i => String.substring i (String.length p - i) p
       | None => ""
       end |}.

(** ** The header artifact as a function of the classes declared *)

(** What [_outputMethod] writes for a method, with [nonVirtualOnly] left
    at [false]. *)
Definition TS_header_method_text (m : Method) : string :=
  let argTypes := parameterTypes m in
  let rType := returnType m in
  let cbSig :=
    if String.eqb rType "V" then "e?: java_lang_Throwable"
    else "e?: java_lang_Throwable" +:+ ", rv?: " +:+ ts_typename false rType in
  let methodFlags := "public" +:+ (if m_isStatic m then " static" else "") in
  let args :=
    if (0 <? length argTypes)%nat then
      "args: [" +:+
      JS.join ", " (map (fun type => ts_typename false type +:+
                                     (if String.eqb type "J" || String.eqb type "D"
                                      then ", any" else "")) argTypes) +:+ "]"
    else "args: {}[]" in
  let methodSig := "(thread: JVMThread, " +:+ args +:+ ", cb?: (" +:+ cbSig +:+ ") => void): void" in
  if m_cls_isInterface m then
    if m_isStatic m then ""
    else "    " +:+ dq +:+ signature m +:+ dq +:+ methodSig +:+ ";" +:+ nl
  else
    ("    " +:+ methodFlags +:+ " " +:+ dq +:+ signature m +:+ dq +:+ methodSig +:+ ";" +:+ nl) +:+
    ("    " +:+ methodFlags +:+ " " +:+ dq +:+ fullSignature m +:+ dq +:+ methodSig +:+ ";" +:+ nl).

(** What [_outputField] writes for a field. *)
Definition TS_header_field_text (f : Field) : string :=
  if f_cls_isInterface f then ""
  else
    (if f_isStatic f then "    public static " else "    public ") +:+ dq +:+
    descriptor2typestr (f_cls_internalName f) +:+ "/" +:+ f_name f +:+ dq +:+ ": " +:+
    ts_typename false (rawDescriptor f) +:+ ";" +:+ nl.

(** The first line of a declaration. *)
Definition TS_declaration_line (cls : ReferenceClassData) : string :=
  (if isInterface cls then "  export interface " else "  export class ") +:+
  ts_typename false (getInternalName cls) +:+
  match getSuperClassReference cls with
  | Some superName => " extends " +:+ ts_typename false superName
  | None => ""
  end +:+
  (if (0 <? length (getInterfaceClassReferences cls))%nat then
     (if isInterface cls then ", " else " implements ") +:+
     JS.join ", " (map (ts_typename false) (getInterfaceClassReferences cls))
   else "") +:+
  " {" +:+ nl.

(** What [_processHeader] writes for a class. *)
Definition TS_declaration_text (cls : ReferenceClassData) : string :=
  TS_declaration_line cls +:+
  texts (map (fun '(name, type) => "    public " +:+ name +:+ ": " +:+ type +:+ ";" +:+ nl)
           (getInjectedFields cls)) +:+
  texts (map (fun '(name, type) => "    public " +:+ name +:+ type +:+ ";" +:+ nl)
           (getInjectedMethods cls)) +:+
  texts (map (fun '(name, type) => "    public static " +:+ name +:+ type +:+ ";" +:+ nl)
           (getInjectedStaticMethods cls)) +:+
  texts (map TS_header_field_text (getFields cls)) +:+
  texts (map TS_header_method_text (getMethods cls ++ getMirandaAndDefaultMethods cls)) +:+
  texts (map TS_header_method_text (getUninheritedDefaultMethods cls)) +:+
  "  }" +:+ nl.

(** What [headersStart], [generateArrayDefinition] and
    [generateMiscDefinitions] write, one after the other, to an empty
    header stream. *)
Definition TS_header_prelude (E : Env) : string :=
  headerStream (snd ((TSTemplate.headersStart E ;;;
                      TSTemplate.generateArrayDefinition ;;;
                      TSTemplate.generateMiscDefinitions) initialState)).

(** The header artifact of a run that declared the classes [declared], in
    this order. *)
Definition TS_header_text (E : Env) (declared : list ReferenceClassData) : string :=
  TS_header_prelude E +:+
  texts (map TS_declaration_text declared) +:+
  ("}" +:+ nl +:+ "export = JVMTypes;" +:+ nl).

(** Nothing is written to the header, no declaration is recorded and none
    is counted. *)
Definition declares_nothing (st st' : State) : Prop :=
  headerStream st' = headerStream st
  /\ emits (trace st') = emits (trace st)
  /\ headerCount st' = headerCount st.

(** The header stream holds the prelude and the declarations recorded so
    far, and [headerCount] counts them. *)
Definition header_written (E : Env) (st : State) : Prop :=
  headerStream st = TS_header_prelude E +:+ texts (map TS_declaration_text (emits (trace st)))
  /\ headerCount st = length (emits (trace st)).

(** A computation that, when it returns, has appended [t] to the header
    and recorded no declaration. *)
Definition appends {A} (m : M A) (t : string) : Prop :=
  forall st a st', m st = (Ok a, st') ->
    headerStream st' = headerStream st +:+ t
    /\ emits (trace st') = emits (trace st)
    /\ headerCount st' = headerCount st.

(** The seeding that follows the prelude. *)
Definition seeding (E : Env) : M unit :=
  TSTemplate.generateClassDefinition E "Ljava/lang/Throwable;" ;;;
  match force_headers E with
  | Some clses =>
      if String.eqb clses "" then ret tt
      else forEach (fun clsName =>
                      TSTemplate.generateClassDefinition E (int_classname E clsName))
             (JS.split_on ":" clses)
  | None => ret tt
  end.

(** ** The JavaScript stub as a function of the inputs *)

(** What [JSTemplate.method] writes after the separator. *)
Definition JS_method_text (methodName : string) (isStatic : bool) (argTypes : list string)
    : string :=
  let argSig := "thread" +:+ (if isStatic then "" else ", javaThis") +:+
                String.concat "" (map (fun i => ", arg" +:+ show_nat i) (seq 0 (length argTypes))) in
  (nl +:+ "    '" +:+ methodName +:+ "': function(" +:+ argSig +:+ ") {") +:+
  (nl +:+ "      thread.throwNewException('Ljava/lang/UnsatisfiedLinkError;', 'Native method not implemented.');") +:+
  (nl +:+ "    }").

(** The entry of a class with native methods in the object literal: its
    methods, separated by commas. *)
Definition JS_class_text (r : ReferenceClassData) : option string :=
  match nativeMethods r with
  | [] => None
  | natives =>
      Some ((nl +:+ "  '" +:+ JS.replace_char "_" "/" (fixedClassName r) +:+ "': {" +:+ nl) +:+
            JS.join ("," +:+ nl)
              (map (fun m => JS_method_text (signature m) (m_isStatic m) (parameterTypes m))
                 natives) +:+
            (nl +:+ nl +:+ "  }"))
  end.

(** The stub artifact of a JavaScript run that returns: the entries of the
    requested classes that have native methods, separated by commas. *)
Definition JS_stub_text (E : Env) : string :=
  ("// This entire object is exported. Feel free to define private helper functions above it."
   +:+ nl +:+ "registerNatives({") +:+
  JS.join ("," +:+ nl) (omap JS_class_text (requested E (classes E))) +:+
  (nl +:+ "});" +:+ nl).

(** The texts of a list, each after a separator. *)
Definition separated (sep : string) (l : list string) : string :=
  texts (map (fun t => sep +:+ t) l).

(** The text that follows [stub st] when the elements of [l] are written
    one by one, the first one after a separator unless [first] is set. *)
Definition listed (first : bool) (sep : string) (l : list string) : string :=
  if first then JS.join sep l else separated sep l.

(** ** The classes a declaration names *)

(** The component at the base of an array descriptor. *)
Fixpoint base_descriptor (desc : string) : string :=
  match desc with
  | String c component => if Ascii.eqb c "[" then base_descriptor component else desc
  | EmptyString => desc
  end.

(** The descriptors that [_processHeader] hands to [jvmtype2tstype] for a
    class: its own, those of its superclass and interfaces, of its fields
    (an interface's fields are skipped) and of the return and parameter
    types of its methods ([_outputMethod] reads the return type only if
    it is not [V]). *)
Definition named_descriptors (cls : ReferenceClassData) : list string :=
  [getInternalName cls] ++
  match getSuperClassReference cls with
  | Some superName => [superName]
  | None => []
  end ++
  getInterfaceClassReferences cls ++
  flat_map (fun f => if f_cls_isInterface f then [] else [rawDescriptor f]) (getFields cls) ++
  flat_map (fun m => (if String.eqb (returnType m) "V" then [] else [returnType m])
                     ++ parameterTypes m)
    (getMethods cls ++ getMirandaAndDefaultMethods cls) ++
  flat_map (fun m => (if String.eqb (returnType m) "V" then [] else [returnType m])
                     ++ parameterTypes m)
    (getUninheritedDefaultMethods cls).

(** The reference class at the base of the descriptor, if there is one,
    is marked. *)
Definition seeded (st : State) (desc : string) : Prop :=
  JS.head_is "L" (base_descriptor desc) = true ->
  is_Some (headerSet st !! base_descriptor desc).

(** When the computation returns, it has only added marks and the
    descriptors [descs] are seeded. *)
Definition seeds {A} (m : M A) (descs : list string) : Prop :=
  forall st a st', m st = (Ok a, st') ->
    headerSet_grows st st' /\ Forall (seeded st') descs.

(** When the computation returns, it has kept [I]. *)
Definition preserves (I : State -> Prop) {A} (m : M A) : Prop :=
  forall st a st', I st -> m st = (Ok a, st') -> I st'.

(** The cache holds what the class path determines, and every marked
    descriptor has been pushed with the record of its class. *)
Definition marked_are_pushed (E : Env) (st : State) : Prop :=
  cache_canonical E st
  /\ forall d, is_Some (headerSet st !! d) -> (d, canon E d) ∈ pushes (trace st).

(** Every class declared so far has everything it names seeded. *)
Definition declared_are_seeded (st : State) : Prop :=
  forall cls, cls ∈ emits (trace st) -> Forall (seeded st) (named_descriptors cls).

(** Reference descriptors are cached with the record of a reference
    class. *)
Definition cache_kinds (st : State) : Prop :=
  forall d cd, cache st !! d = Some cd -> JS.head_is "L" d = true ->
               exists r, cd = ReferenceCD r.

Definition keeps_kinds (st st' : State) : Prop :=
  cache_kinds st -> cache_kinds st'.

(** The template of a run. *)
Definition templateOf (E : Env) : ITemplate :=
  if typescript E then TSTemplate_ E else JSTemplate_.

(** ** The hierarchy of the class path *)

(** The class of the reference descriptor [d] is on the class path and
    names [d'] as its superclass or as one of its interfaces. *)
Definition refers (E : Env) (d d' : string) : Prop :=
  JS.head_is "L" d = true
  /\ exists r, classpath E (descriptor2typestr d) = Some r
               /\ (getSuperClassReference r = Some d' \/ d' ∈ getInterfaceClassReferences r).

(** A set of classes each of which refers to a class of the set again: a
    hierarchy that does not end. *)
Definition endless (E : Env) (C : string -> Prop) : Prop :=
  forall d, C d -> exists d', refers E d d' /\ C d'.

(** [d], which is not cached, refers to [d']. *)
Definition pending (E : Env) (st : State) (d d' : string) : Prop :=
  cache st !! d = None /\ refers E d d'.

(** None of the descriptors of [C] is cached. *)
Definition uncached (C : string -> Prop) (st : State) : Prop :=
  forall d, C d -> cache st !! d = None.

(** Entries stay, the trace grows, and every assignment to the cache that
    the new part of the trace records has left an entry. *)
Definition cache_logged (st st' : State) : Prop :=
  (forall d, is_Some (cache st !! d) -> is_Some (cache st' !! d))
  /\ exists t, trace st' = trace st ++ t
               /\ forall d, EvCache d ∈ t -> is_Some (cache st' !! d).

(** ** The worklist of a run *)

(** Every marked descriptor is one of [U]. *)
Definition marks_in (U : list string) (st : State) : Prop :=
  forall d, is_Some (headerSet st !! d) -> d ∈ U.

(** Marks are added for descriptors of [L] only. *)
Definition marks_within (L : list string) (st st' : State) : Prop :=
  forall d, is_Some (headerSet st' !! d) -> is_Some (headerSet st !! d) \/ d ∈ L.

(** The worklist has grown by one record for each push. *)
Definition balance (st st' : State) : Prop :=
  length (generateQueue st') + length (pushes (trace st))
  = length (generateQueue st) + length (pushes (trace st')).

(** Records are only added to the worklist, at its end. *)
Definition queue_extends (st st' : State) : Prop :=
  exists q, generateQueue st' = generateQueue st ++ q.

(** A record of a reference class is the record of a class of the class
    path. *)
Definition known (E : Env) (cls : ClassData) : Prop :=
  forall c, cls = ReferenceCD c ->
    exists t r, classpath E t = Some r /\ c = setResolved r None [].

Definition queue_known (E : Env) (st : State) : Prop :=
  cache_canonical E st /\ Forall (known E) (generateQueue st).

Definition keeps_known (E : Env) (st st' : State) : Prop :=
  queue_known E st -> queue_known E st'.

(** The descriptors that the declarations of the classes of the class
    path can mark, for a class path that holds the classes [dom]. *)
Definition nameable (E : Env) (dom : list string) : list string :=
  flat_map (fun t => match classpath E t with
                     | Some r => base_descriptor <$> named_descriptors r
                     | None => []
                     end) dom.

(** What a header-mode run does before it drains the worklist. *)
Definition beforeHeadersEnd (E : Env) : M unit :=
  TSTemplate.constructor E ;;;
  fileStart (TSTemplate_ E) ;;;
  processClasses E (TSTemplate_ E) ;;;
  fileEnd (TSTemplate_ E).

(** A prior header that declares [Stale], and then a class that is not on
    the class path. *)
Definition staleHeader : string :=
  "  export class Stale extends java_lang_Object {" +:+ nl +:+
  "  }" +:+ nl +:+
  "  export class Missing {" +:+ nl.



(** * Properties *)

(** ** Strings *)

Lemma substring_length_le (n m : nat) (s : string) :
  (String.length (String.substring n m s) <= m)%nat.
Proof.
  revert n m; induction s as [|a s IH]; intros [|n] [|m]; simpl; try lia.
  - specialize (IH 0%nat m). lia.
  - apply IH.
  - apply IH.
Qed.

Lemma substring_app_exact (s t : string) :
  String.substring 0 (String.length s) (s +:+ t) = s.
Proof. induction s as [|a s IH]; simpl; [by destruct t | by rewrite IH]. Qed.

Lemma append_length (s t : string) :
  String.length (s +:+ t) = (String.length s + String.length t)%nat.
Proof. induction s; simpl; auto. Qed.

Lemma append_assoc (s t u : string) : (s +:+ t) +:+ u = s +:+ (t +:+ u).
Proof. induction s; simpl; congruence. Qed.

Lemma append_cons (a : ascii) (s t : string) : String a s +:+ t = String a (s +:+ t).
Proof. reflexivity. Qed.

Lemma append_nil_l (s : string) : "" +:+ s = s.
Proof. reflexivity. Qed.

Lemma append_nil_r (s : string) : s +:+ "" = s.
Proof. induction s; simpl; congruence. Qed.

(** Normal form of a string expression: appends nested to the right and
    pushed below the leading characters. *)
Ltac str_norm :=
  repeat first [ rewrite append_assoc | rewrite append_cons | rewrite append_nil_r
               | rewrite append_nil_l ].

(** ** [tstype2jvmtype] is total *)

Lemma slice_shorter (s : string) :
  (0 < String.length s)%nat ->
  (String.length (JS.slice 9 (JS.len s - 1) s) < String.length s)%nat.
Proof.
  intros Hs. unfold JS.slice.
  pose proof (substring_length_le
    (Z.to_nat (JS.clamp (JS.len s) 9))
    (Z.to_nat (JS.clamp (JS.len s) (JS.len s - 1) - JS.clamp (JS.len s) 9)) s) as H.
  unfold JS.clamp, JS.len in *.
  destruct (Z.ltb_spec (Z.of_nat (String.length s) - 1) 0); [lia|].
  destruct (Z.ltb_spec 9 0); lia.
Qed.

Lemma JVMArray_prefix_nonempty (s : string) :
  JS.indexOf "JVMArray" 0 s = 0%Z -> (0 < String.length s)%nat.
Proof. destruct s; [discriminate | simpl; lia]. Qed.

Lemma tstype2jvmtype_rec_gas (g1 g2 : nat) (s : string) :
  (String.length s <= g1)%nat -> (String.length s <= g2)%nat ->
  tstype2jvmtype_rec g1 s = tstype2jvmtype_rec g2 s.
Proof.
  revert g2 s; induction g1 as [|g1 IH]; intros g2 s H1 H2.
  - destruct s; [|simpl in H1; lia]. by destruct g2.
  - destruct g2 as [|g2].
    + destruct s; [|simpl in H2; lia]. reflexivity.
    + simpl. destruct (Z.eqb_spec (JS.indexOf "JVMArray" 0 s) 0) as [Hp|]; [|reflexivity].
      pose proof (slice_shorter s (JVMArray_prefix_nonempty s Hp)).
      rewrite (IH g2); [reflexivity | lia | lia].
Qed.

Lemma tstype2jvmtype_total (s : string) : tstype2jvmtype s <> Diverge.
Proof.
  unfold tstype2jvmtype.
  remember (String.length s) as n eqn:Hn.
  assert (Hle : (String.length s <= n)%nat) by lia. clear Hn.
  revert s Hle; induction n as [|n IH]; intros s Hle.
  - destruct s; [discriminate | simpl in Hle; lia].
  - simpl. destruct (Z.eqb_spec (JS.indexOf "JVMArray" 0 s) 0) as [Hp|].
    + pose proof (slice_shorter s (JVMArray_prefix_nonempty s Hp)).
      specialize (IH (JS.slice 9 (JS.len s - 1) s) ltac:(lia)).
      destruct (tstype2jvmtype_rec n _); congruence.
    + destruct (String.eqb s "number"); [discriminate|].
      destruct (String.eqb s "void"); discriminate.
Qed.

(** Decoding an array wrapper decodes its parameter. *)
Lemma tstype2jvmtype_array (s : string) :
  tstype2jvmtype ("JVMArray<" +:+ s +:+ ">") =
  match tstype2jvmtype s with
  | Ok d => Ok ("[" +:+ d)
  | Throw e => Throw e
  | Diverge => Diverge
  end.
Proof.
  unfold tstype2jvmtype.
  assert (Hs : JS.slice 9 (JS.len ("JVMArray<" +:+ s +:+ ">") - 1) ("JVMArray<" +:+ s +:+ ">") = s).
  { unfold JS.slice, JS.clamp, JS.len. rewrite !append_length.
    change (String.length "JVMArray<") with 9%nat. change (String.length ">") with 1%nat.
    destruct (Z.ltb_spec (Z.of_nat (9 + (String.length s + 1)) - 1) 0); [lia|].
    destruct (Z.ltb_spec 9 0); [lia|].
    set (n := String.length s).
    replace (Z.to_nat (9 `min` Z.of_nat (9 + (n + 1)))) with 9%nat by lia.
    replace (Z.to_nat ((Z.of_nat (9 + (n + 1)) - 1) `min` Z.of_nat (9 + (n + 1)) - 9 `min` Z.of_nat (9 + (n + 1))))
      with n by lia.
    simpl. apply substring_app_exact. }
  change (String.length ("JVMArray<" +:+ s +:+ ">")) with (S (String.length ("VMArray<" +:+ s +:+ ">"))).
  cbn [tstype2jvmtype_rec].
  replace (JS.indexOf "JVMArray" 0 ("JVMArray<" +:+ s +:+ ">") =? 0)%Z with true by reflexivity.
  rewrite Hs.
  rewrite (tstype2jvmtype_rec_gas _ (String.length s)); [reflexivity | | lia].
  rewrite !append_length. simpl. lia.
Qed.

(** ** The monad *)

Lemma bind_Ok_inv {A B} (m : M A) (k : A -> M B) st b st' :
  bind m k st = (Ok b, st') ->
  exists a st1, m st = (Ok a, st1) /\ k a st1 = (Ok b, st').
Proof.
  unfold bind. destruct (m st) as [[a| |] st1]; intros H; try discriminate.
  by exists a, st1.
Qed.

Lemma ret_Ok_inv {A} (a b : A) st st' : ret a st = (Ok b, st') -> a = b /\ st = st'.
Proof. unfold ret. intros [= -> ->]. done. Qed.

(** ** [jvmtype2tstype] returns [ts_typename] *)

Lemma jvmtype2tstype_value E desc prefix st s st' :
  TSTemplate.jvmtype2tstype E desc prefix st = (Ok s, st') -> s = ts_typename prefix desc.
Proof.
  revert st s st'; induction desc as [|c desc IH]; intros st s st' H; simpl in *.
  - by apply ret_Ok_inv in H as [<- _].
  - destruct (Ascii.eqb c "[").
    { apply bind_Ok_inv in H as (inner & st1 & H1 & H2).
      apply IH in H1 as ->. by apply ret_Ok_inv in H2 as [<- _]. }
    destruct (Ascii.eqb c "L").
    { apply bind_Ok_inv in H as (? & st1 & _ & H2). by apply ret_Ok_inv in H2 as [<- _]. }
    destruct (Ascii.eqb c "J"); [by apply ret_Ok_inv in H as [<- _]|].
    destruct (Ascii.eqb c "V"); by apply ret_Ok_inv in H as [<- _].
Qed.

(** ** Decoding the escaped name *)

Lemma descriptor2typestr_reference (name : string) :
  descriptor2typestr ("L" +:+ name +:+ ";") = name.
Proof.
  unfold descriptor2typestr, JS.slice, JS.clamp, JS.len.
  rewrite !append_length.
  change (String.length "L") with 1%nat. change (String.length ";") with 1%nat.
  set (n := String.length name).
  change (1 <? 0)%Z with false. change (-1 <? 0)%Z with true. cbv iota.
  replace (Z.to_nat (1 `min` Z.of_nat (1 + (n + 1)))) with 1%nat by lia.
  replace (Z.to_nat ((Z.of_nat (1 + (n + 1)) + -1) `max` 0 - 1 `min` Z.of_nat (1 + (n + 1))))
    with n by lia.
  simpl. apply substring_app_exact.
Qed.

(** What the two replacements of the decoder see after the two of the
    encoder: an underscore has become two separators, everything else is
    as it was. *)
Lemma underscores_to_separators (name : string) :
  JS.replace_char "_" "/" (JS.replace_char "/" "_" (JS.replace_char "_" "__" name)) =
  JS.replace_char "_" "//" name.
Proof.
  induction name as [|a name IH]; [reflexivity|]. simpl.
  destruct (Ascii.eqb_spec a "_") as [->|Hu]; simpl; [by rewrite IH|].
  destruct (Ascii.eqb_spec a "/") as [->|Hs]; simpl; [by rewrite IH|].
  rewrite (proj2 (Ascii.eqb_neq _ _) Hu). by rewrite IH.
Qed.

Lemma head_of_doubled (name : string) :
  JS.head_is "/" (JS.replace_char "_" "//" name) = JS.head_is "/" name || JS.head_is "_" name.
Proof.
  destruct name as [|a name]; [reflexivity|]. simpl.
  destruct (Ascii.eqb_spec a "_") as [->|Hu]; [reflexivity|]. simpl.
  by rewrite orb_false_r.
Qed.

Lemma replace_slash_slash_cons (a b : ascii) (r : string) :
  JS.replace_slash_slash (String a (String b r)) =
  if Ascii.eqb a "/" && Ascii.eqb b "/" then String "_" (JS.replace_slash_slash r)
  else String a (JS.replace_slash_slash (String b r)).
Proof. reflexivity. Qed.

Lemma undouble_separators (name : string) :
  separators_isolated name = true ->
  JS.replace_slash_slash (JS.replace_char "_" "//" name) = name.
Proof.
  induction name as [|a name IH]; [reflexivity|]. simpl.
  intros [Ha Hrest]%andb_true_iff. specialize (IH Hrest).
  destruct (Ascii.eqb_spec a "_") as [->|Hu].
  - simpl. by rewrite IH.
  - pose proof (head_of_doubled name) as Hhd.
    destruct (JS.replace_char "_" "//" name) as [|b r] eqn:Hr.
    + simpl in IH. by rewrite <- IH.
    + simpl in Hhd. rewrite replace_slash_slash_cons.
      destruct (Ascii.eqb_spec a "/") as [->|Hs].
      * rewrite Hhd. apply negb_true_iff in Ha. rewrite Ha, andb_false_r. by rewrite IH.
      * rewrite andb_false_l. by rewrite IH.
Qed.

Lemma indexOf0_prefix (p s : string) :
  p <> "" -> (JS.indexOf p 0 s =? 0)%Z = String.prefix p s.
Proof.
  intros Hp. unfold JS.indexOf. destruct s as [|b s].
  - destruct p; [done | reflexivity].
  - change (Z.to_nat 0) with 0%nat. cbn [index].
    destruct (String.prefix p (String b s)); [reflexivity|].
    destruct (index 0 p s); reflexivity.
Qed.

Lemma encoded_cons (c : ascii) (name : string) :
  JS.replace_char "/" "_" (JS.replace_char "_" "__" (String c name)) =
  if Ascii.eqb c "_" then
    String "_" (String "_" (JS.replace_char "/" "_" (JS.replace_char "_" "__" name)))
  else if Ascii.eqb c "/" then
    String "_" (JS.replace_char "/" "_" (JS.replace_char "_" "__" name))
  else String c (JS.replace_char "/" "_" (JS.replace_char "_" "__" name)).
Proof.
  cbn [JS.replace_char].
  destruct (Ascii.eqb_spec c "_") as [->|Hu]; [reflexivity|].
  cbn [JS.replace_char]. destruct (Ascii.eqb c "/"); reflexivity.
Qed.

Lemma prefix_cons (a b : ascii) (p s : string) :
  String.prefix (String a p) (String b s) = if Ascii.eqb a b then String.prefix p s else false.
Proof.
  cbn [String.prefix]. destruct (ascii_dec a b) as [->|Hne].
  - by rewrite Ascii.eqb_refl.
  - by rewrite (proj2 (Ascii.eqb_neq _ _) Hne).
Qed.

Lemma eqb_cons (a b : ascii) (p s : string) :
  String.eqb (String a p) (String b s) = if Ascii.eqb a b then String.eqb p s else false.
Proof. reflexivity. Qed.

Lemma prefix_encoded (p name : string) :
  plain p = true ->
  String.prefix p (JS.replace_char "/" "_" (JS.replace_char "_" "__" name)) = String.prefix p name.
Proof.
  revert name; induction p as [|a p IH]; intros name Hp.
  - by destruct name, (JS.replace_char _ _ _).
  - cbn [plain] in Hp. apply andb_true_iff in Hp as [[Hu Hs]%andb_true_iff Hp].
    apply negb_true_iff in Hu, Hs.
    destruct name as [|c name]; [reflexivity|]. rewrite encoded_cons.
    destruct (Ascii.eqb_spec c "_") as [->|Hcu].
    { by rewrite !prefix_cons, Hu. }
    destruct (Ascii.eqb_spec c "/") as [->|Hcs].
    { by rewrite !prefix_cons, Hu, Hs. }
    rewrite !prefix_cons. destruct (Ascii.eqb a c); [by apply IH | reflexivity].
Qed.

Lemma eqb_encoded (p name : string) :
  plain p = true ->
  String.eqb (JS.replace_char "/" "_" (JS.replace_char "_" "__" name)) p = String.eqb name p.
Proof.
  revert p; induction name as [|c name IH]; intros p Hp; [reflexivity|].
  rewrite encoded_cons. destruct p as [|a p].
  - destruct (Ascii.eqb c "_"); [reflexivity|]. by destruct (Ascii.eqb c "/").
  - cbn [plain] in Hp. apply andb_true_iff in Hp as [[Hu Hs]%andb_true_iff Hp].
    apply negb_true_iff in Hu, Hs.
    destruct (Ascii.eqb_spec c "_") as [->|Hcu].
    { by rewrite !eqb_cons, (Ascii.eqb_sym "_" a), Hu. }
    destruct (Ascii.eqb_spec c "/") as [->|Hcs].
    { by rewrite !eqb_cons, (Ascii.eqb_sym "_" a), (Ascii.eqb_sym "/" a), Hu, Hs. }
    rewrite !eqb_cons. destruct (Ascii.eqb c a); [by apply IH | reflexivity].
Qed.

Lemma tstype2jvmtype_reference (e : string) :
  String.prefix "JVMArray" e = false ->
  String.eqb e "number" = false ->
  String.eqb e "void" = false ->
  tstype2jvmtype e =
  Ok ("L" +:+ JS.replace_slash_slash (JS.replace_char "_" "/" e) +:+ ";").
Proof.
  intros Hp Hn Hv. unfold tstype2jvmtype.
  destruct (String.length e); simpl; rewrite indexOf0_prefix, Hp, Hn, Hv; done.
Qed.

(** The round trip on the strings themselves. *)
Lemma decode_encoded_name (name : string) :
  decodable_name name = true ->
  tstype2jvmtype (ts_typename false ("L" +:+ name +:+ ";")) = Ok ("L" +:+ name +:+ ";").
Proof.
  unfold decodable_name.
  intros [[[Hsep Hp%negb_true_iff]%andb_true_iff Hn%negb_true_iff]%andb_true_iff
           Hv%negb_true_iff]%andb_true_iff.
  change (ts_typename false ("L" +:+ name +:+ ";")) with (ts_refname ("L" +:+ name +:+ ";")).
  unfold ts_refname. rewrite descriptor2typestr_reference.
  rewrite tstype2jvmtype_reference.
  - by rewrite underscores_to_separators, undouble_separators.
  - by rewrite prefix_encoded.
  - by rewrite eqb_encoded.
  - by rewrite eqb_encoded.
Qed.

(** ** Claims on the type mapper *)

(** C2 (as stated, refuted): the descriptor [La/_b;], a class [_b] in
    package [a], encodes to [a___b], which decodes to [La_/b;]; and the
    output name of [Lnumber;] is rejected by the explicit test for
    [number]. *)
Lemma roundtrip_breaks_after_separator :
  (exists s,
     fst (TSTemplate.jvmtype2tstype (Samples.env true None []) "La/_b;" false initialState) = Ok s
     /\ tstype2jvmtype s = Ok "La_/b;"
     /\ tstype2jvmtype s <> Ok "La/_b;")
  /\ (exists s,
     fst (TSTemplate.jvmtype2tstype (Samples.env true None []) "Lnumber;" false initialState) = Ok s
     /\ tstype2jvmtype s = Throw "Ambiguous.").
Proof.
  split.
  - exists "a___b". split; [|split]; [vm_compute; reflexivity .. | discriminate].
  - exists "number". split; vm_compute; reflexivity.
Qed.

(** C2 (amended): for every reference descriptor [L<name>;] whose name is
    decodable -- no package separator is directly followed by an underscore
    or another separator, and the name neither starts with [JVMArray] nor is
    [number] or [void] -- decoding its unqualified output name gives back
    the descriptor, and that output name is what [jvmtype2tstype] returns
    whenever it returns; [Foo_Bar] encodes to [Foo__Bar], which decodes to
    [Foo_Bar]. *)
Theorem roundtrip_reference_descriptor (name : string) :
  decodable_name name = true ->
  tstype2jvmtype (ts_typename false ("L" +:+ name +:+ ";")) = Ok ("L" +:+ name +:+ ";")
  /\ (forall E st s st',
        TSTemplate.jvmtype2tstype E ("L" +:+ name +:+ ";") false st = (Ok s, st') ->
        tstype2jvmtype s = Ok ("L" +:+ name +:+ ";"))
  /\ ts_typename false "LFoo_Bar;" = "Foo__Bar"
  /\ tstype2jvmtype "Foo__Bar" = Ok "LFoo_Bar;".
Proof.
  intros Hname. split; [by apply decode_encoded_name|]. split; [|split; reflexivity].
  intros E st s st' Hrun.
  apply jvmtype2tstype_value in Hrun as ->. by apply decode_encoded_name.
Qed.

Lemma roundtrip_reference_descriptor_witness :
  tstype2jvmtype (ts_typename false "LFoo_Bar;") = Ok "LFoo_Bar;"
  /\ fst (TSTemplate.jvmtype2tstype (Samples.env true None []) "LFoo_Bar;" false initialState)
     = Ok "Foo__Bar".
Proof.
  split.
  - apply (proj1 (roundtrip_reference_descriptor "Foo_Bar" eq_refl)).
  - vm_compute. reflexivity.
Defined.

(** C3 (as stated, refuted): [void] and [Long] are decoded, not rejected. *)
Lemma void_and_Long_are_decoded :
  ~ (fails (tstype2jvmtype "number")
     /\ fails (tstype2jvmtype "Long")
     /\ fails (tstype2jvmtype "void")
     /\ fails (tstype2jvmtype (ts_typename false "[[I"))).
Proof. intros (_ & _ & [e He] & _). vm_compute in He. discriminate. Qed.

(** C3 (amended): [tstype2jvmtype] throws "Ambiguous." on [number] and on
    every array wrapper nest around it, in particular on the output name of
    [[[I]; [void] decodes to [V], and [Long] is read as a reference name. *)
Theorem tstype2jvmtype_ambiguous :
  (forall n, tstype2jvmtype (ts_typename false (array_of n "I")) = Throw "Ambiguous.")
  /\ ts_typename false "[[I" = "JVMArray<JVMArray<number>>"
  /\ tstype2jvmtype "void" = Ok "V"
  /\ tstype2jvmtype "Long" = Ok "LLong;".
Proof.
  split; [|repeat split; reflexivity].
  induction n as [|n IH]; [reflexivity|].
  change (ts_typename false (array_of (S n) "I"))
    with ("JVMArray<" +:+ ts_typename false (array_of n "I") +:+ ">").
  by rewrite tstype2jvmtype_array, IH.
Qed.

(** ** Preservation through the combinators *)

Section Always.
Context (R : relation State) `{!PreOrder R}.

Lemma always_ret {A} (a : A) : always R (ret a).
Proof. intros st. reflexivity. Qed.

Lemma always_throw {A} (e : string) : always R (@throw A e).
Proof. intros st. reflexivity. Qed.

Lemma always_lift {A} (o : outcome A) : always R (lift o).
Proof. intros st. reflexivity. Qed.

Lemma always_modify (f : State -> State) :
  (forall st, R st (f st)) -> always R (modify f).
Proof. intros Hf st. apply Hf. Qed.

Lemma always_bind {A B} (m : M A) (k : A -> M B) :
  always R m -> (forall a, always R (k a)) -> always R (bind m k).
Proof.
  intros Hm Hk st. unfold bind. specialize (Hm st).
  destruct (m st) as [[a| |] st1]; simpl in *; try done.
  etrans; [exact Hm | apply Hk].
Qed.

Lemma always_try_catch {A} (m : M A) (h : string -> M A) :
  always R m -> (forall e, always R (h e)) -> always R (try_catch m h).
Proof.
  intros Hm Hh st. unfold try_catch. specialize (Hm st).
  destruct (m st) as [[a| e |] st1]; simpl in *; try done.
  etrans; [exact Hm | apply Hh].
Qed.

Lemma always_forEach {A} (f : A -> M unit) (l : list A) :
  (forall x, always R (f x)) -> always R (forEach f l).
Proof.
  intros Hf. induction l as [|x l IH]; simpl.
  - apply always_ret.
  - apply always_bind; auto.
Qed.

Lemma always_mapM {A B} (f : A -> M B) (l : list A) :
  (forall x, always R (f x)) -> always R (mapM f l).
Proof.
  intros Hf. induction l as [|x l IH]; simpl.
  - apply always_ret.
  - apply always_bind; [auto|]. intros y.
    apply always_bind; [auto|]. intros ys. apply always_ret.
Qed.

Lemma always_mapMi {A B} (f : A -> nat -> M B) (i : nat) (l : list A) :
  (forall x j, always R (f x j)) -> always R (mapMi f i l).
Proof.
  intros Hf. revert i; induction l as [|x l IH]; intros i; simpl.
  - apply always_ret.
  - apply always_bind; [auto|]. intros y.
    apply always_bind; [auto|]. intros ys. apply always_ret.
Qed.

Lemma always_read {A} (f : State -> A) : always R (fun st => (Ok (f st), st)).
Proof. intros st. reflexivity. Qed.

End Always.

(** Splits a goal [always R m] along the structure of [m]. *)
Ltac preorder := first [assumption | typeclasses eauto].

Ltac always_step :=
  lazymatch goal with
  | |- always _ (bind _ _) => apply always_bind; try preorder; [ .. | intros]
  | |- always _ (ret _) => apply always_ret; preorder
  | |- always _ (throw _) => apply always_throw; preorder
  | |- always _ (lift _) => apply always_lift; preorder
  | |- always _ (try_catch _ _) => apply always_try_catch; try preorder; [ .. | intros]
  | |- always _ (forEach _ _) => apply always_forEach; try preorder; intros
  | |- always _ (mapM _ _) => apply always_mapM; try preorder; intros
  | |- always _ (mapMi _ _ _) => apply always_mapMi; try preorder; intros
  | |- always _ (fun st => (Ok _, st)) => apply always_read; preorder
  | |- always _ (modify _) => apply always_modify; try preorder; intros; try solve [auto]
  | |- always _ (log _) =>
      unfold log; apply always_modify; try preorder; intros; try solve [auto]
  | |- always _ (write _) =>
      unfold write; apply always_modify; try preorder; intros; try solve [auto]
  | |- always _ (headerStream_write _) =>
      unfold headerStream_write; apply always_modify; try preorder; intros; try solve [auto]
  | |- always _ (if ?b then _ else _) => destruct b
  | |- always _ (match ?x with _ => _ end) => destruct x
  | |- always _ ((fun _ => _) _) => cbv beta
  end.

(** ** What [findClass] touches *)

Section FindClassAlways.
Context (R : relation State) `{!PreOrder R} (E : Env).
Hypothesis R_cache : forall f st, R st (set_cache f st).
Hypothesis R_load : forall t st, R st (set_trace (fun l => l ++ [EvLoad t]) st).
Hypothesis R_cached : forall d st, R st (set_trace (fun l => l ++ [EvCache d]) st).

Lemma loadClass_always (t : string) : always R (loadClass E t).
Proof.
  unfold loadClass. repeat always_step.
Qed.

Lemma resolveClass_always (rec : string -> M ClassData) (descriptor : string) :
  (forall d, always R (rec d)) -> always R (resolveClass E rec descriptor).
Proof.
  intros Hrec. unfold resolveClass.
  repeat lazymatch goal with
         | |- always _ (loadClass _ _) => apply loadClass_always
         | |- always _ (rec _) => apply Hrec
         | |- _ => always_step
         end.
Qed.

Lemma findClass_always (depth : nat) (descriptor : string) :
  always R (findClass E depth descriptor).
Proof.
  revert descriptor; induction depth as [|depth IH]; intros descriptor st; simpl.
  - reflexivity.
  - destruct (cache st !! descriptor); [reflexivity|].
    by apply resolveClass_always.
Qed.

End FindClassAlways.

#[local] Instance trace_extends_preorder : PreOrder trace_extends.
Proof.
  split.
  - intros st. exists []. by rewrite app_nil_r.
  - intros st1 st2 st3 [t1 H1] [t2 H2]. exists (t1 ++ t2). by rewrite H2, H1, app_assoc.
Qed.

Lemma findClass_trace_extends E depth descriptor :
  always trace_extends (findClass E depth descriptor).
Proof.
  apply findClass_always; try typeclasses eauto; intros.
  - exists []. simpl. by rewrite app_nil_r.
  - by eexists.
  - by eexists.
Qed.

Lemma try_rethrow_Ok_inv {A} (m : M A) (msg : string -> string) st a st' :
  try_catch m (fun e => throw (msg e)) st = (Ok a, st') -> m st = (Ok a, st').
Proof. unfold try_catch, throw. by destruct (m st) as [[?| |] ?]. Qed.

Lemma findClass_cached E depth descriptor cd st :
  cache st !! descriptor = Some cd -> findClass E (S depth) descriptor st = (Ok cd, st).
Proof. intros H. simpl. by rewrite H. Qed.

(** ** Claims on the class resolver *)

(** C1 (as stated, refuted): when [java/lang/Throwable] is resolved, the
    class file of its superclass is loaded, and the superclass cached,
    before [cache] receives the entry for [Ljava/lang/Throwable;]; and on
    the cyclic hierarchy [A extends B], [B extends A] the resolution of
    [LA;] is entered again and again, until the stack is used up, without
    ever finding a cached entry. *)
Lemma findClass_caches_only_afterwards :
  trace (snd (findClass (Samples.env true None []) 16 "Ljava/lang/Throwable;" initialState))
  = [EvLoad "java/lang/Throwable"; EvLoad "java/lang/Object";
     EvCache "Ljava/lang/Object;"; EvCache "Ljava/lang/Throwable;"]
  /\ (let r := findClass (Samples.env true None []) 4 "LA;" initialState in
      fails (fst r)
      /\ trace (snd r) = [EvLoad "A"; EvLoad "B"; EvLoad "A"; EvLoad "B"]
      /\ cache (snd r) = ∅).
Proof.
  split; [vm_compute; reflexivity|].
  split; [eexists; vm_compute; reflexivity|].
  split; vm_compute; reflexivity.
Qed.

(** ** Claim on the output directory *)




(** ** Claims on the stub emitter *)

Lemma processMethods_found template classData fixed ms st :
  processMethods template classData fixed ms true st =
  (forEach (fun m => method template (getInternalName classData) (signature m)
                       (m_isStatic m) (parameterTypes m) (returnType m))
     (List.filter m_isNative ms) ;;; ret true) st.
Proof.
  revert st; induction ms as [|m ms IH]; intros st; [reflexivity|].
  cbn [processMethods List.filter]. destruct (m_isNative m); cbn [negb forEach].
  - unfold bind, ret in *.
    destruct (method template _ _ _ _ _ st) as [[[]| |] st1]; try reflexivity.
    apply IH.
  - unfold bind, ret in *. apply IH.
Qed.

Lemma processMethods_not_found template classData fixed ms st :
  processMethods template classData fixed ms false st =
  match List.filter m_isNative ms with
  | [] => ret false st
  | natives =>
      (classStart template fixed ;;;
       forEach (fun m => method template (getInternalName classData) (signature m)
                           (m_isStatic m) (parameterTypes m) (returnType m)) natives ;;;
       ret true) st
  end.
Proof.
  revert st; induction ms as [|m ms IH]; intros st; [reflexivity|].
  cbn [processMethods List.filter]. destruct (m_isNative m); cbn [negb forEach].
  - pose proof (processMethods_found template classData fixed ms) as Hf.
    unfold bind, ret in *.
    destruct (classStart template fixed st) as [[[]| |] st1]; try reflexivity.
    destruct (method template _ _ _ _ _ st1) as [[[]| |] st2]; try reflexivity.
    apply Hf.
  - unfold bind at 1. unfold ret at 1. apply IH.
Qed.

(** A class without native methods leaves every part of the state as it
    was: nothing is written and nothing is enqueued. *)
Lemma processClassData_no_native template classData st :
  nativeMethods classData = [] -> processClassData template classData st = (Ok tt, st).
Proof.
  intros Hn. unfold processClassData, bind.
  rewrite processMethods_not_found. unfold nativeMethods in Hn. by rewrite Hn.
Qed.

(** ** What the header worklist operations touch *)

Section GenerateAlways.
Context (R : relation State) `{!PreOrder R} (E : Env).
Hypothesis R_find : forall depth d, always R (findClass E depth d).
Hypothesis R_mark : forall d st, R st (set_headerSet (<[d := true]>) st).
Hypothesis R_push : forall c st, R st (set_generateQueue (fun q => q ++ [c]) st).
Hypothesis R_pushed : forall d c st, R st (set_trace (fun t => t ++ [EvPush d c]) st).

Lemma generateClassDefinition_always (desc : string) :
  always R (TSTemplate.generateClassDefinition E desc).
Proof.
  assert (Henq : forall d, always R
    (modify (set_headerSet (<[d := true]>)) ;;;
     cls <- findClass E (stackDepth E) d ;;
     modify (set_generateQueue (fun q => q ++ [cls])) ;;;
     log (EvPush d cls))).
  { intros d.
    repeat lazymatch goal with
           | |- always _ (findClass _ _ _) => apply R_find
           | |- _ => always_step
           end. }
  induction desc as [|c desc IH]; intros st; simpl.
  - destruct (_ || _); [reflexivity | apply Henq].
  - destruct (_ || _); [reflexivity|].
    destruct (Ascii.eqb c "["); [apply IH | apply Henq].
Qed.

End GenerateAlways.

Section TemplateAlways.
Context (R : relation State) `{!PreOrder R} (E : Env).
Hypothesis R_find : forall depth d, always R (findClass E depth d).
Hypothesis R_generate : forall d, always R (TSTemplate.generateClassDefinition E d).
Hypothesis R_header : forall s st, R st (set_headerStream (fun t => t +:+ s) st).
Hypothesis R_stub : forall s st, R st (set_stub (fun t => t +:+ s) st).
Hypothesis R_seen : forall c st, R st (set_classesSeen (fun l => l ++ [c]) st).
Hypothesis R_count : forall st, R st (set_headerCount S st).
Hypothesis R_emit : forall c st, R st (set_trace (fun t => t ++ [EvEmit c]) st).
Hypothesis R_pop : forall st, R st (set_generateQueue (fun q => removelast q) st).
Hypothesis R_firstMethod : forall b st, R st (set_firstMethod b st).
Hypothesis R_firstClass : forall b st, R st (set_firstClass b st).

Lemma jvmtype2tstype_always (desc : string) (prefix : bool) :
  always R (TSTemplate.jvmtype2tstype E desc prefix).
Proof.
  induction desc as [|c desc IH]; cbn [TSTemplate.jvmtype2tstype]; [always_step|].
  repeat lazymatch goal with
         | |- always _ (TSTemplate.jvmtype2tstype _ desc _) => apply IH
         | |- always _ (TSTemplate.generateClassDefinition _ _) => apply R_generate
         | |- _ => always_step
         end.
Qed.

Ltac template_always :=
  repeat lazymatch goal with
         | |- always _ (findClass _ _ _) => apply R_find
         | |- always _ (TSTemplate.jvmtype2tstype _ _ _) => apply jvmtype2tstype_always
         | |- always _ (TSTemplate.generateClassDefinition _ _) => apply R_generate
         | |- _ => always_step
         end.

Lemma _outputMethod_always m b : always R (TSTemplate._outputMethod E m b).
Proof. unfold TSTemplate._outputMethod. template_always. Qed.

Lemma _outputField_always f : always R (TSTemplate._outputField E f).
Proof. unfold TSTemplate._outputField. template_always. Qed.

(** What [_processHeader] does after it has written the name of the
    declaration. *)
Lemma _processHeader_always cls : always R (TSTemplate._processHeader E cls).
Proof.
  unfold TSTemplate._processHeader, TSTemplate._outputInjectedField,
    TSTemplate._outputInjectedMethod, TSTemplate._outputInjectedStaticMethod.
  repeat lazymatch goal with
         | |- always _ (TSTemplate._outputMethod _ _ _) => apply _outputMethod_always
         | |- always _ (TSTemplate._outputField _ _) => apply _outputField_always
         | |- _ => template_always
         end.
Qed.

Lemma _processGenerateQueue_always fuel : always R (TSTemplate._processGenerateQueue E fuel).
Proof.
  induction fuel as [|fuel IH]; intros st; simpl.
  - destruct (last _); reflexivity.
  - destruct (last _) as [cls|]; [|reflexivity].
    revert st. change (always R
      (modify (set_generateQueue (fun q => removelast q)) ;;;
       TSTemplate._processHeader E cls ;;; TSTemplate._processGenerateQueue E fuel)).
    repeat lazymatch goal with
           | |- always _ (TSTemplate._processHeader _ _) => apply _processHeader_always
           | |- always _ (TSTemplate._processGenerateQueue _ _) => apply IH
           | |- _ => always_step
           end.
Qed.

Lemma headersEnd_always fuel : always R (TSTemplate.headersEnd E fuel).
Proof.
  unfold TSTemplate.headersEnd.
  repeat lazymatch goal with
         | |- always _ (TSTemplate._processGenerateQueue _ _) =>
             apply _processGenerateQueue_always
         | |- _ => always_step
         end.
Qed.

Lemma replayLoop_always marker n skip existing gas idx :
  always R (TSTemplate.replayLoop E marker n skip existing gas idx).
Proof.
  revert idx; induction gas as [|gas IH]; intros idx; simpl.
  - template_always.
  - repeat lazymatch goal with
           | |- always _ (TSTemplate.replayLoop _ _ _ _ _ _ _) => apply IH
           | |- _ => template_always
           end.
Qed.

Lemma constructor_always : always R (TSTemplate.constructor E).
Proof.
  unfold TSTemplate.constructor, TSTemplate.replayExisting, TSTemplate.headersStart,
    TSTemplate.generateArrayDefinition, TSTemplate.generateMiscDefinitions.
  repeat lazymatch goal with
         | |- always _ (TSTemplate.replayLoop _ _ _ _ _ _ _) => apply replayLoop_always
         | |- _ => template_always
         end.
Qed.

Lemma TS_classStart_always className : always R (TSTemplate.classStart E className).
Proof. unfold TSTemplate.classStart. template_always. Qed.

Lemma TS_method_always classDesc methodName isStatic argTypes rType :
  always R (TSTemplate.method E classDesc methodName isStatic argTypes rType).
Proof. unfold TSTemplate.method. template_always. Qed.

Lemma TS_fileEnd_always : always R TSTemplate.fileEnd.
Proof. unfold TSTemplate.fileEnd, TSTemplate.fileEnd_entry. template_always. Qed.

Lemma processMethods_always template classData fixed ms found :
  (forall n, always R (classStart template n)) ->
  (forall a b c d e, always R (method template a b c d e)) ->
  always R (processMethods template classData fixed ms found).
Proof.
  intros Hs Hm. revert found; induction ms as [|m ms IH]; intros found; simpl.
  - always_step.
  - repeat lazymatch goal with
           | |- always _ (processMethods _ _ _ _ _) => apply IH
           | |- always _ (classStart _ _) => apply Hs
           | |- always _ (method _ _ _ _ _ _) => apply Hm
           | |- _ => always_step
           end.
Qed.

Lemma processClassData_always template classData :
  (forall n, always R (classStart template n)) ->
  (forall n, always R (classEnd template n)) ->
  (forall a b c d e, always R (method template a b c d e)) ->
  always R (processClassData template classData).
Proof.
  intros Hs He Hm. unfold processClassData.
  repeat lazymatch goal with
         | |- always _ (processMethods _ _ _ _ _) => by apply processMethods_always
         | |- always _ (classEnd _ _) => apply He
         | |- _ => always_step
         end.
Qed.

Lemma TS_processClassData_always classData :
  always R (processClassData (TSTemplate_ E) classData).
Proof.
  apply processClassData_always; simpl; intros.
  - apply TS_classStart_always.
  - unfold TSTemplate.classEnd. always_step.
  - apply TS_method_always.
Qed.

Lemma TS_fileStart_always : always R (TSTemplate.fileStart E).
Proof. unfold TSTemplate.fileStart. template_always. Qed.

Lemma JS_classStart_always className : always R (JSTemplate.classStart className).
Proof.
  unfold JSTemplate.classStart.
  repeat lazymatch goal with
         | |- always _ (fun st => if firstClass st then _ else _) =>
             let st := fresh "st" in
             intros st; destruct (firstClass st); [apply R_firstClass | apply R_stub]
         | |- _ => always_step
         end.
Qed.

Lemma JS_method_always classDesc methodName isStatic argTypes rType :
  always R (JSTemplate.method classDesc methodName isStatic argTypes rType).
Proof.
  unfold JSTemplate.method.
  repeat lazymatch goal with
         | |- always _ (fun st => if firstMethod st then _ else _) =>
             let st := fresh "st" in
             intros st; destruct (firstMethod st); [apply R_firstMethod | apply R_stub]
         | |- _ => always_step
         end.
Qed.

Lemma JS_processClassData_always classData :
  always R (processClassData JSTemplate_ classData).
Proof.
  apply processClassData_always; simpl; intros.
  - apply JS_classStart_always.
  - unfold JSTemplate.classEnd. always_step.
  - apply JS_method_always.
Qed.

Lemma TS_processClasses_always : always R (processClasses E (TSTemplate_ E)).
Proof.
  unfold processClasses.
  repeat lazymatch goal with
         | |- always _ (processClassData _ _) => apply TS_processClassData_always
         | |- _ => template_always
         end.
Qed.

Lemma JS_processClasses_always : always R (processClasses E JSTemplate_).
Proof.
  unfold processClasses.
  repeat lazymatch goal with
         | |- always _ (processClassData _ _) => apply JS_processClassData_always
         | |- _ => template_always
         end.
Qed.

Lemma main_always fuel : always R (main E fuel).
Proof.
  unfold main, mainBody. destruct (typescript E).
  - intros st. unfold bind at 1 2. unfold ret at 1.
    pose proof (constructor_always st) as Hc.
    destruct (TSTemplate.constructor E st) as [[[]| |] s1]; cbn [fst snd] in *; try exact Hc.
    etrans; [exact Hc|]. clear Hc. revert s1. cbn [fileStart fileEnd TSTemplate_].
    change (always R
      (TSTemplate.fileStart E ;;; processClasses E (TSTemplate_ E) ;;;
       TSTemplate.fileEnd ;;; TSTemplate.headersEnd E fuel)).
    repeat lazymatch goal with
           | |- always _ (TSTemplate.fileStart _) => apply TS_fileStart_always
           | |- always _ TSTemplate.fileEnd => apply TS_fileEnd_always
           | |- always _ (processClasses _ _) => apply TS_processClasses_always
           | |- always _ (TSTemplate.headersEnd _ _) => apply headersEnd_always
           | |- _ => always_step
           end.
  - intros st. unfold bind at 1. unfold ret at 1. revert st.
    cbn [fileStart fileEnd JSTemplate_].
    change (always R
      (JSTemplate.fileStart ;;; processClasses E JSTemplate_ ;;;
       JSTemplate.fileEnd ;;; ret tt)).
    unfold JSTemplate.fileStart, JSTemplate.fileEnd.
    repeat lazymatch goal with
           | |- always _ (processClasses _ _) => apply JS_processClasses_always
           | |- _ => always_step
           end.
Qed.

End TemplateAlways.

(** ** Fields that a group of operations leaves alone *)

#[local] Instance same_preorder {A} (f : State -> A) : PreOrder (same f).
Proof. split; unfold same; [done | intros ??? -> ->; done]. Qed.

#[local] Instance header_extends_preorder : PreOrder header_extends.
Proof.
  split.
  - intros st. exists "". by rewrite append_nil_r.
  - intros st1 st2 st3 [t1 H1] [t2 H2]. exists (t1 +:+ t2).
    by rewrite H2, H1, append_assoc.
Qed.

(** [findClass], [generateClassDefinition] and [jvmtype2tstype] write to
    neither stream. *)
Lemma generateClassDefinition_same_headerStream E desc :
  always (same headerStream) (TSTemplate.generateClassDefinition E desc).
Proof.
  apply generateClassDefinition_always; try typeclasses eauto; try by unfold same.
  intros. apply findClass_always; try typeclasses eauto; by unfold same.
Qed.

Lemma jvmtype2tstype_same_headerStream E desc prefix :
  always (same headerStream) (TSTemplate.jvmtype2tstype E desc prefix).
Proof.
  apply jvmtype2tstype_always; [typeclasses eauto|].
  apply generateClassDefinition_same_headerStream.
Qed.

Lemma generateClassDefinition_header_extends E desc :
  always header_extends (TSTemplate.generateClassDefinition E desc).
Proof.
  intros st. pose proof (generateClassDefinition_same_headerStream E desc st) as H.
  exists "". by rewrite append_nil_r.
Qed.

(** The names [mapM] collects from [jvmtype2tstype]. *)
Lemma mapM_jvmtype2tstype_value E prefix (l : list string) st names st' :
  mapM (fun d => TSTemplate.jvmtype2tstype E d prefix) l st = (Ok names, st') ->
  names = map (ts_typename prefix) l.
Proof.
  revert st names st'; induction l as [|d l IH]; intros st names st' H; simpl in H.
  - by apply ret_Ok_inv in H as [<- _].
  - apply bind_Ok_inv in H as (n & s1 & Hn & H).
    apply bind_Ok_inv in H as (ns & s2 & Hns & H).
    apply ret_Ok_inv in H as [<- _].
    apply jvmtype2tstype_value in Hn as ->. apply IH in Hns as ->. reflexivity.
Qed.

(** Reads what [always R m] says about one run of [m]. *)
Lemma always_run {A} (R : relation State) (m : M A) st o st' :
  always R m -> m st = (o, st') -> R st st'.
Proof. intros Hal Hrun. specialize (Hal st). by rewrite Hrun in Hal. Qed.

Lemma findClass_header_extends E depth d : always header_extends (findClass E depth d).
Proof.
  apply findClass_always; try typeclasses eauto; intros; exists ""; simpl;
    by rewrite append_nil_r.
Qed.

Lemma header_extends_write s st :
  header_extends st (set_headerStream (fun t => t +:+ s) st).
Proof. by exists s. Qed.

(** ** Claim on the declaration of an interface *)

(** C4 (as stated, refuted): the declaration written for the interface
    [p/Sub], which extends the interface [p/Base], names
    [java_lang_Object] as its first base. *)
Lemma interface_declaration_names_Object :
  let r := TSTemplate._processHeader (Samples.env true None [])
             (ReferenceCD Samples.Sub) initialState in
  fst r = Ok tt
  /\ headerStream (snd r)
     = "  export interface p_Sub extends java_lang_Object, p_Base {" +:+ nl +:+ "  }" +:+ nl.
Proof. split; vm_compute; reflexivity. Qed.

(** C4 (amended): the declaration written for an interface starts with
    [export interface <name> extends <superclass>], where the superclass
    reference of an interface is [java/lang/Object], followed by a comma
    and the extended interfaces if there are any. *)
Theorem interface_declaration_bases (E : Env) (cls : ReferenceClassData) (superName : string)
    (st st' : State) :
  isInterface cls = true ->
  getSuperClassReference cls = Some superName ->
  TSTemplate._processHeader E (ReferenceCD cls) st = (Ok tt, st') ->
  exists members,
    headerStream st' = headerStream st +:+ interfaceDeclaration cls superName +:+ members.
Proof.
  intros Hi Hs Hrun. unfold TSTemplate._processHeader in Hrun. rewrite Hi, Hs in Hrun.
  apply bind_Ok_inv in Hrun as ([] & s1 & [= <-] & Hrun).
  apply bind_Ok_inv in Hrun as (name & s2 & Hname & Hrun).
  pose proof (always_run _ _ _ _ _ (jvmtype2tstype_same_headerStream E _ _) Hname) as H2.
  apply jvmtype2tstype_value in Hname as ->.
  apply bind_Ok_inv in Hrun as ([] & s3 & [= <-] & Hrun).
  apply bind_Ok_inv in Hrun as ([] & s4 & [= <-] & Hrun).
  apply bind_Ok_inv in Hrun as ([] & s5 & Hsup & Hrun).
  apply bind_Ok_inv in Hsup as (sup & s5' & Hsup & [= <-]).
  pose proof (always_run _ _ _ _ _ (jvmtype2tstype_same_headerStream E _ _) Hsup) as H5.
  apply jvmtype2tstype_value in Hsup as ->.
  apply bind_Ok_inv in Hrun as ([] & s6 & Hifs & Hrun).
  apply bind_Ok_inv in Hrun as ([] & s7 & [= <-] & Hrun).
  assert (Hrest : header_extends
            (set_headerStream (fun t => t +:+ (" {" +:+ nl)) s6) st').
  { eapply always_run; [|exact Hrun].
    unfold TSTemplate._outputInjectedField, TSTemplate._outputInjectedMethod,
      TSTemplate._outputInjectedStaticMethod.
    repeat lazymatch goal with
           | |- always _ (TSTemplate._outputMethod _ _ _) =>
               apply _outputMethod_always;
               [typeclasses eauto | apply generateClassDefinition_header_extends
               | apply header_extends_write]
           | |- always _ (TSTemplate._outputField _ _) =>
               apply _outputField_always;
               [typeclasses eauto | apply generateClassDefinition_header_extends
               | apply header_extends_write]
           | |- always header_extends (headerStream_write _) =>
               intros ?; apply header_extends_write
           | |- _ => always_step
           end. }
  destruct Hrest as [members Hrest]. exists members.
  rewrite Hrest. unfold interfaceDeclaration. unfold same in *. simpl in *.
  assert (H6 : headerStream s6 =
               (headerStream s5' +:+ " extends " +:+ ts_typename false superName) +:+
               (if (0 <? length (getInterfaceClassReferences cls))%nat then
                  ", " +:+ JS.join ", " (map (ts_typename false) (getInterfaceClassReferences cls))
                else "")).
  { destruct (0 <? length (getInterfaceClassReferences cls))%nat.
    - apply bind_Ok_inv in Hifs as ([] & s8 & [= <-] & Hifs).
      apply bind_Ok_inv in Hifs as (l & s9 & Hl & [= <-]).
      assert (H9 : same headerStream
                (set_headerStream (fun t => t +:+ ", ")
                   (set_headerStream (fun t => t +:+ " extends " +:+ ts_typename false superName) s5')) s9).
      { eapply always_run; [|exact Hl]. apply always_mapM; [typeclasses eauto|].
        intros. apply jvmtype2tstype_same_headerStream. }
      apply mapM_jvmtype2tstype_value in Hl as ->.
      unfold same in H9. simpl in *. rewrite H9. by rewrite !append_assoc.
    - apply ret_Ok_inv in Hifs as [_ <-]. simpl. by rewrite append_nil_r. }
  rewrite H6, H5. simpl. rewrite H2. simpl. by str_norm.
Qed.

Lemma interface_declaration_bases_witness :
  exists members,
    headerStream (snd (TSTemplate._processHeader (Samples.env true None [])
                         (ReferenceCD Samples.Sub) initialState))
    = headerStream initialState
      +:+ interfaceDeclaration Samples.Sub "Ljava/lang/Object;" +:+ members.
Proof.
  apply (interface_declaration_bases (Samples.env true None []) Samples.Sub
           "Ljava/lang/Object;" initialState).
  - reflexivity.
  - reflexivity.
  - vm_compute. reflexivity.
Defined.

(** ** Claim on the seeding of the header *)

#[local] Instance headerSet_grows_preorder : PreOrder headerSet_grows.
Proof.
  split.
  - intros st d Hd. exact Hd.
  - intros st1 st2 st3 H1 H2 d Hd. apply H2, H1, Hd.
Qed.

Lemma headerSet_grows_same st st' : headerSet st' = headerSet st -> headerSet_grows st st'.
Proof. intros H d. by rewrite H. Qed.

Lemma findClass_headerSet_grows E depth d : always headerSet_grows (findClass E depth d).
Proof.
  apply findClass_always; try typeclasses eauto; intros; by apply headerSet_grows_same.
Qed.

Lemma generateClassDefinition_headerSet_grows E desc :
  always headerSet_grows (TSTemplate.generateClassDefinition E desc).
Proof.
  apply generateClassDefinition_always; try typeclasses eauto;
    try (intros; by apply headerSet_grows_same).
  - intros. apply findClass_headerSet_grows.
  - intros d st d' Hd. simpl. destruct (decide (d = d')) as [->|Hne].
    + rewrite lookup_insert_eq. by eexists.
    + by rewrite lookup_insert_ne.
Qed.

Lemma snd_bind_post {A B} (R : relation State) (P : State -> Prop)
    (m : M A) (k : A -> M B) st :
  (forall s s', P s -> R s s' -> P s') ->
  P (snd (m st)) -> (forall a, always R (k a)) -> P (snd (bind m k st)).
Proof.
  intros HP Hm Hk. unfold bind. destruct (m st) as [[a| |] s1] eqn:Hrun; simpl in *; try done.
  eapply HP; [exact Hm | apply Hk].
Qed.

(** A descriptor that is neither primitive nor an array is marked by
    [generateClassDefinition], whatever happens afterwards. *)
Lemma generateClassDefinition_marks E desc st :
  is_primitive_type desc = false -> JS.head_is "[" desc = false ->
  is_Some (headerSet (snd (TSTemplate.generateClassDefinition E desc st)) !! desc).
Proof.
  intros Hprim Harr.
  assert (Henq : is_Some (headerSet (snd
    ((modify (set_headerSet (<[desc := true]>)) ;;;
      cls <- findClass E (stackDepth E) desc ;;
      modify (set_generateQueue (fun q => q ++ [cls])) ;;;
      log (EvPush desc cls)) st)) !! desc)).
  { apply (snd_bind_post headerSet_grows (fun s => is_Some (headerSet s !! desc))).
    - intros s s' Hs HR. by apply HR.
    - simpl. rewrite lookup_insert_eq. by eexists.
    - intros _.
      repeat lazymatch goal with
             | |- always _ (findClass _ _ _) => apply findClass_headerSet_grows
             | |- always _ (modify _) => intros ?; by apply headerSet_grows_same
             | |- always _ (log _) => intros ?; by apply headerSet_grows_same
             | |- _ => always_step
             end. }
  destruct desc as [|c desc]; cbn [TSTemplate.generateClassDefinition].
  - rewrite Hprim, orb_false_r. case_bool_decide; [done | exact Henq].
  - rewrite Hprim, orb_false_r. case_bool_decide; [done|].
    simpl in Harr. rewrite Harr. exact Henq.
Qed.

Lemma TS_method_headerSet_grows E a b c d e :
  always headerSet_grows (TSTemplate.method E a b c d e).
Proof.
  apply TS_method_always; try typeclasses eauto;
    try (intros; by apply headerSet_grows_same).
  apply generateClassDefinition_headerSet_grows.
Qed.

Lemma seedDescriptor_is_reference classData :
  is_primitive_type (seedDescriptor classData) = false
  /\ JS.head_is "[" (seedDescriptor classData) = false.
Proof.
  unfold seedDescriptor. split; [|reflexivity].
  destruct (JS.replace_char "_" "/" (fixedClassName classData)); reflexivity.
Qed.

(** C5 (as stated, refuted): the requested class [Plain] has no native
    method; the run resolves it and completes, but the class is never
    marked for the header and the header has no declaration for it. *)
Lemma class_without_natives_is_not_seeded :
  let r := main (Samples.env true None ["LPlain;"]) 16 initialState in
  fst r = Ok tt
  /\ is_Some (cache (snd r) !! "LPlain;")
  /\ headerSet (snd r) !! "LPlain;" = None
  /\ JS.indexOf "export class Plain " 0 (headerStream (snd r)) = (-1)%Z.
Proof.
  split; [vm_compute; reflexivity|].
  split; [eexists; vm_compute; reflexivity|].
  split; vm_compute; reflexivity.
Qed.

(** C5 (amended): the stub emitter seeds the header with a requested class
    only if the class has a native method: [classStart] then marks the
    descriptor rebuilt from the class name; a class without native methods
    changes nothing, so it is declared only if something else refers to
    it. *)
Theorem header_seeded_by_classes_with_natives (E : Env) (classData : ReferenceClassData)
    (st : State) :
  (nativeMethods classData = [] ->
   processClassData (TSTemplate_ E) classData st = (Ok tt, st))
  /\ (nativeMethods classData <> [] ->
      is_Some (headerSet (snd (processClassData (TSTemplate_ E) classData st))
                 !! seedDescriptor classData)).
Proof.
  split; [apply processClassData_no_native|].
  intros Hn. unfold processClassData. fold (fixedClassName classData).
  set (P := fun s => is_Some (headerSet s !! seedDescriptor classData)).
  assert (HP : forall s s', P s -> headerSet_grows s s' -> P s') by (intros s s' Hs HR; by apply HR).
  apply (snd_bind_post headerSet_grows P); [exact HP | |].
  - rewrite processMethods_not_found. unfold nativeMethods in Hn.
    destruct (List.filter m_isNative (getMethods classData)) as [|m ms]; [done|].
    apply (snd_bind_post headerSet_grows P); [exact HP | |].
    + pose proof (seedDescriptor_is_reference classData) as [H1 H2].
      apply (generateClassDefinition_marks E _ _ H1 H2).
    + intros _.
      repeat lazymatch goal with
             | |- always _ (method _ _ _ _ _ _) => apply TS_method_headerSet_grows
             | |- _ => always_step
             end.
  - intros nf. destruct nf; [|always_step].
    intros ?. by apply headerSet_grows_same.
Qed.

Lemma header_seeded_by_classes_with_natives_witness :
  processClassData (TSTemplate_ (Samples.env true None [])) Samples.Plain initialState
  = (Ok tt, initialState)
  /\ is_Some (headerSet (snd (processClassData (TSTemplate_ (Samples.env true None []))
                               Samples.Nat_ initialState)) !! "LNat;").
Proof.
  split.
  - apply (proj1 (header_seeded_by_classes_with_natives _ Samples.Plain initialState)).
    reflexivity.
  - apply (proj2 (header_seeded_by_classes_with_natives (Samples.env true None [])
                    Samples.Nat_ initialState)).
    discriminate.
Defined.

(** ** Termination of the replay *)

Lemma nd_ret {A} (a : A) : never_diverges (ret a).
Proof. intros st. discriminate. Qed.

Lemma nd_throw {A} (e : string) : never_diverges (@throw A e).
Proof. intros st. discriminate. Qed.

Lemma nd_modify f : never_diverges (modify f).
Proof. intros st. discriminate. Qed.

Lemma nd_bind {A B} (m : M A) (k : A -> M B) :
  never_diverges m -> (forall a, never_diverges (k a)) -> never_diverges (bind m k).
Proof.
  intros Hm Hk st. unfold bind. specialize (Hm st).
  destruct (m st) as [[a| |] st1]; simpl in *; [apply Hk | discriminate | done].
Qed.

Lemma nd_try_catch {A} (m : M A) (h : string -> M A) :
  never_diverges m -> (forall e, never_diverges (h e)) -> never_diverges (try_catch m h).
Proof.
  intros Hm Hh st. unfold try_catch. specialize (Hm st).
  destruct (m st) as [[a| e |] st1]; simpl in *; [discriminate | apply Hh | done].
Qed.

Lemma nd_mapM {A B} (f : A -> M B) (l : list A) :
  (forall x, never_diverges (f x)) -> never_diverges (mapM f l).
Proof.
  intros Hf. induction l as [|x l IH]; simpl; [apply nd_ret|].
  apply nd_bind; [apply Hf|]. intros y. apply nd_bind; [apply IH|]. intros ys. apply nd_ret.
Qed.

Lemma findClass_never_diverges E depth descriptor :
  never_diverges (findClass E depth descriptor).
Proof.
  revert descriptor; induction depth as [|depth IH]; intros descriptor st; simpl.
  - discriminate.
  - destruct (cache st !! descriptor); [discriminate|].
    revert st. change (never_diverges (resolveClass E (findClass E depth) descriptor)).
    unfold resolveClass, loadClass, log.
    repeat lazymatch goal with
           | |- forall _, _ => intros ?
           | |- never_diverges (try_catch _ _) => apply nd_try_catch
           | |- never_diverges (bind _ _) => apply nd_bind
           | |- never_diverges (ret _) => apply nd_ret
           | |- never_diverges (throw _) => apply nd_throw
           | |- never_diverges (modify _) => apply nd_modify
           | |- never_diverges (mapM _ _) => apply nd_mapM
           | |- never_diverges (findClass _ _ _) => apply IH
           | |- never_diverges (if ?b then _ else _) => destruct b
           | |- never_diverges (match ?x with _ => _ end) => destruct x
           end.
Qed.

Lemma generateClassDefinition_never_diverges E desc :
  never_diverges (TSTemplate.generateClassDefinition E desc).
Proof.
  assert (Henq : forall d, never_diverges
    (modify (set_headerSet (<[d := true]>)) ;;;
     cls <- findClass E (stackDepth E) d ;;
     modify (set_generateQueue (fun q => q ++ [cls])) ;;;
     log (EvPush d cls))).
  { intros d. unfold log.
    repeat lazymatch goal with
           | |- forall _, _ => intros ?
           | |- never_diverges (bind _ _) => apply nd_bind
           | |- never_diverges (modify _) => apply nd_modify
           | |- never_diverges (findClass _ _ _) => apply findClass_never_diverges
           end. }
  induction desc as [|c desc IH]; intros st; cbn [TSTemplate.generateClassDefinition].
  - destruct (_ || _); [discriminate | apply Henq].
  - destruct (_ || _); [discriminate|].
    destruct (Ascii.eqb c "["); [apply IH | apply Henq].
Qed.

Lemma prefix_length (p s : string) :
  String.prefix p s = true -> (String.length p <= String.length s)%nat.
Proof.
  revert s; induction p as [|a p IH]; intros s H; simpl; [lia|].
  destruct s as [|b s]; [discriminate|]. simpl in *.
  destruct (ascii_dec a b); [|discriminate]. specialize (IH s H). lia.
Qed.

(** A match of [indexOf] lies at or after the start index and inside the
    text. *)
Lemma index_bounds (n m : nat) (p s : string) :
  index n p s = Some m -> (n <= m /\ m + String.length p <= String.length s)%nat.
Proof.
  revert n m; induction s as [|b s IH]; intros n m H.
  - destruct n; [|discriminate]. destruct p; [|discriminate].
    injection H as <-. simpl. lia.
  - destruct n as [|n]; cbn [index] in H.
    + destruct (String.prefix p (String b s)) eqn:Hp.
      * injection H as <-. apply prefix_length in Hp. lia.
      * destruct (index 0 p s) as [k|] eqn:Hk; [|discriminate].
        injection H as <-. apply IH in Hk. simpl. lia.
    + destruct (index n p s) as [k|] eqn:Hk; [|discriminate].
      injection H as <-. apply IH in Hk. simpl. lia.
Qed.

Lemma replayLoop_never_diverges E marker n skip existing gas idx :
  marker <> "" -> (0 <= idx)%Z ->
  (JS.len existing - idx < Z.of_nat gas)%Z ->
  never_diverges (TSTemplate.replayLoop E marker n skip existing gas idx).
Proof.
  intros Hm. revert idx; induction gas as [|gas IH]; intros idx H0 Hgas;
    cbn [TSTemplate.replayLoop].
  - destruct (Z.ltb_spec (-1) (JS.indexOf marker idx existing)) as [Hfound|]; [|apply nd_ret].
    exfalso. unfold JS.indexOf in Hfound.
    destruct (index (Z.to_nat idx) marker existing) as [k|] eqn:Hk; [|lia].
    apply index_bounds in Hk. unfold JS.len in Hgas.
    destruct marker; [done|]. simpl in Hk. lia.
  - destruct (Z.ltb_spec (-1) (JS.indexOf marker idx existing)) as [Hfound|]; [|apply nd_ret].
    apply nd_bind.
    + destruct (_ && _); [apply nd_ret|].
      apply nd_bind; [intros st; apply tstype2jvmtype_total|].
      intros d. apply generateClassDefinition_never_diverges.
    + intros _. unfold JS.indexOf in *.
      destruct (index (Z.to_nat idx) marker existing) as [k|] eqn:Hk; [|lia].
      apply index_bounds in Hk. unfold JS.len in Hgas.
      destruct marker; [done|]. simpl in Hk.
      apply IH; unfold JS.len; lia.
Qed.

Lemma replayExisting_never_diverges E : never_diverges (TSTemplate.replayExisting E).
Proof.
  unfold TSTemplate.replayExisting.
  apply nd_bind; [destruct (existingHeaders E); [apply nd_ret | apply nd_throw]|].
  intros existing. apply nd_bind; [|intros _];
    (apply replayLoop_never_diverges; [discriminate | lia | unfold JS.len; lia]).
Qed.

(** ** The worklist invariants *)

Lemma pushes_app t1 t2 : pushes (t1 ++ t2) = pushes t1 ++ pushes t2.
Proof.
  induction t1 as [|e t1 IH]; [reflexivity|]. destruct e; simpl; by rewrite ?IH.
Qed.

Lemma emits_app t1 t2 : emits (t1 ++ t2) = emits t1 ++ emits t2.
Proof.
  induction t1 as [|e t1 IH]; [reflexivity|]. destruct e; simpl; by rewrite ?IH.
Qed.

#[local] Instance keeps_pushed_once_preorder : PreOrder keeps_pushed_once.
Proof. split; unfold keeps_pushed_once; [intros st H; exact H | intros ??? H1 H2 H; auto]. Qed.

#[local] Instance keeps_accounted_preorder : PreOrder keeps_accounted.
Proof.
  split; unfold keeps_accounted; [intros st fl H; exact H | intros ??? H1 H2 fl H; auto].
Qed.

#[local] Instance resolver_frame_preorder : PreOrder resolver_frame.
Proof.
  split; unfold resolver_frame.
  - intros st. done.
  - intros s1 s2 s3 (-> & -> & -> & ->) (-> & -> & -> & ->). done.
Qed.

Lemma findClass_resolver_frame E depth d : always resolver_frame (findClass E depth d).
Proof.
  apply findClass_always; try typeclasses eauto; intros; unfold resolver_frame; simpl;
    rewrite ?pushes_app, ?emits_app, ?app_nil_r; done.
Qed.

Lemma resolver_frame_pushed_once st st' : resolver_frame st st' -> keeps_pushed_once st st'.
Proof.
  intros (Hh & _ & Hp & _) [Hnd Hin]. unfold pushed_once. rewrite Hp, Hh. done.
Qed.

Lemma resolver_frame_accounted st st' : resolver_frame st st' -> keeps_accounted st st'.
Proof.
  intros (_ & Hq & Hp & He) fl H. unfold accounted in *. by rewrite Hp, He, Hq.
Qed.

Lemma findClass_keeps_pushed_once E depth d : always keeps_pushed_once (findClass E depth d).
Proof. intros st. apply resolver_frame_pushed_once, findClass_resolver_frame. Qed.

Lemma findClass_keeps_accounted E depth d : always keeps_accounted (findClass E depth d).
Proof. intros st. apply resolver_frame_accounted, findClass_resolver_frame. Qed.

(** The enqueueing branch of [generateClassDefinition], entered with a
    descriptor that is not marked. *)
Lemma enqueue_keeps E desc st :
  headerSet st !! desc = None ->
  let st' := snd ((modify (set_headerSet (<[desc := true]>)) ;;;
                   cls <- findClass E (stackDepth E) desc ;;
                   modify (set_generateQueue (fun q => q ++ [cls])) ;;;
                   log (EvPush desc cls)) st) in
  keeps_pushed_once st st' /\ keeps_accounted st st'.
Proof.
  intros Hfresh. cbv beta iota zeta delta [bind modify log].
  set (st1 := set_headerSet <[desc:=true]> st).
  pose proof (findClass_resolver_frame E (stackDepth E) desc st1) as Hfr.
  destruct (findClass E (stackDepth E) desc st1) as [[cls| |] st2]; cbn [snd fst] in *;
    destruct Hfr as (Hh & Hq & Hp & He); subst st1; simpl in Hh, Hq, Hp, He.
  - split.
    + intros [Hnd Hin]. unfold pushed_once. simpl.
      rewrite pushes_app, Hp, fmap_app. simpl. rewrite Hh. split.
      * apply NoDup_app. split; [done|]. split; [|apply NoDup_singleton].
        intros d Hd ->%list_elem_of_singleton. apply Hin in Hd.
        rewrite Hfresh in Hd. by destruct Hd.
      * intros d [Hd| ->%list_elem_of_singleton]%elem_of_app.
        -- apply Hin in Hd. destruct (decide (desc = d)) as [->|Hne].
           ++ rewrite lookup_insert_eq. by eexists.
           ++ by rewrite lookup_insert_ne.
        -- rewrite lookup_insert_eq. by eexists.
    + intros fl H. unfold accounted in *. simpl.
      rewrite pushes_app, emits_app, Hp, He, Hq, fmap_app. simpl.
      rewrite app_nil_r, H. rewrite !app_assoc. done.
  - split.
    + intros [Hnd Hin]. unfold pushed_once. rewrite Hp, Hh. split; [done|].
      intros d Hd. apply Hin in Hd. destruct (decide (desc = d)) as [->|Hne].
      * rewrite lookup_insert_eq. by eexists.
      * by rewrite lookup_insert_ne.
    + intros fl H. unfold accounted in *. by rewrite Hp, He, Hq.
  - split.
    + intros [Hnd Hin]. unfold pushed_once. rewrite Hp, Hh. split; [done|].
      intros d Hd. apply Hin in Hd. destruct (decide (desc = d)) as [->|Hne].
      * rewrite lookup_insert_eq. by eexists.
      * by rewrite lookup_insert_ne.
    + intros fl H. unfold accounted in *. by rewrite Hp, He, Hq.
Qed.

Lemma generateClassDefinition_keeps E desc st :
  let st' := snd (TSTemplate.generateClassDefinition E desc st) in
  keeps_pushed_once st st' /\ keeps_accounted st st'.
Proof.
  revert st; induction desc as [|c desc IH]; intros st;
    cbn [TSTemplate.generateClassDefinition].
  - case_bool_decide as Hm; cbn [orb]; [split; reflexivity|].
    destruct (is_primitive_type ""); [split; reflexivity|].
    apply enqueue_keeps. by apply eq_None_not_Some.
  - case_bool_decide as Hm; cbn [orb]; [split; reflexivity|].
    destruct (is_primitive_type (String c desc)); [split; reflexivity|].
    destruct (Ascii.eqb c "["); [apply IH|].
    apply enqueue_keeps. by apply eq_None_not_Some.
Qed.

Lemma generateClassDefinition_keeps_pushed_once E desc :
  always keeps_pushed_once (TSTemplate.generateClassDefinition E desc).
Proof. intros st. apply generateClassDefinition_keeps. Qed.

Lemma generateClassDefinition_keeps_accounted E desc :
  always keeps_accounted (TSTemplate.generateClassDefinition E desc).
Proof. intros st. apply generateClassDefinition_keeps. Qed.

Lemma pushed_once_frame st st' :
  pushes (trace st') = pushes (trace st) -> headerSet st' = headerSet st ->
  keeps_pushed_once st st'.
Proof. intros Hp Hh [Hnd Hin]. unfold pushed_once. by rewrite Hp, Hh. Qed.

Lemma accounted_frame st st' :
  pushes (trace st') = pushes (trace st) -> emits (trace st') = emits (trace st) ->
  generateQueue st' = generateQueue st ->
  keeps_accounted st st'.
Proof. intros Hp He Hq fl H. unfold accounted in *. by rewrite Hp, He, Hq. Qed.

(** Every step of a run keeps the descriptors pushed at most once. *)
Lemma main_keeps_pushed_once E fuel : always keeps_pushed_once (main E fuel).
Proof.
  apply main_always; try typeclasses eauto.
  - apply findClass_keeps_pushed_once.
  - apply generateClassDefinition_keeps_pushed_once.
  - intros. by apply pushed_once_frame.
  - intros. by apply pushed_once_frame.
  - intros. by apply pushed_once_frame.
  - intros. by apply pushed_once_frame.
  - intros. apply pushed_once_frame; [|done]. simpl. by rewrite pushes_app, app_nil_r.
  - intros. by apply pushed_once_frame.
  - intros. by apply pushed_once_frame.
  - intros. by apply pushed_once_frame.
Qed.

Lemma bind_outcome {A B} (m : M A) (k : A -> M B) st (Q : outcome B -> State -> Prop) :
  (forall a s1, m st = (Ok a, s1) -> Q (fst (k a s1)) (snd (k a s1))) ->
  (forall e s1, m st = (Throw e, s1) -> Q (Throw e) s1) ->
  (forall s1, m st = (Diverge, s1) -> Q Diverge s1) ->
  Q (fst (bind m k st)) (snd (bind m k st)).
Proof.
  intros HOk HThrow HDiv. unfold bind.
  destruct (m st) as [[a|e|] s1]; [by apply HOk | by apply HThrow | by apply HDiv].
Qed.

(** With [cls] in flight, [_processHeader] emits it; if it fails, some
    record may stay in flight. *)
Lemma _processHeader_emits E cls fl st :
  accounted (cls :: fl) st ->
  let r := TSTemplate._processHeader E cls st in
  match fst r with
  | Ok _ => accounted fl (snd r)
  | _ => exists inflight, accounted inflight (snd r)
  end.
Proof.
  intros Hacc. cbn zeta. destruct cls as [cls| |]; try by (simpl; eexists).
  unfold TSTemplate._processHeader.
  apply (bind_outcome _ _ _ (fun o s => match o with
                                        | Ok _ => accounted fl s
                                        | _ => exists inflight, accounted inflight s
                                        end)); try discriminate.
  intros [] s1 [= <-].
  assert (H1 : accounted (ReferenceCD cls :: fl) (set_headerCount S st)) by exact Hacc.
  apply (bind_outcome _ _ _ (fun o s => match o with
                                        | Ok _ => accounted fl s
                                        | _ => exists inflight, accounted inflight s
                                        end)).
  2,3: intros; eexists;
       eapply (always_run keeps_accounted); [|eassumption|exact H1];
       apply jvmtype2tstype_always; [typeclasses eauto|];
       apply generateClassDefinition_keeps_accounted.
  intros name s2 Hname.
  assert (H2 : accounted (ReferenceCD cls :: fl) s2).
  { eapply (always_run keeps_accounted); [|exact Hname|exact H1].
    apply jvmtype2tstype_always; [typeclasses eauto|].
    apply generateClassDefinition_keeps_accounted. }
  apply (bind_outcome _ _ _ (fun o s => match o with
                                        | Ok _ => accounted fl s
                                        | _ => exists inflight, accounted inflight s
                                        end)); try discriminate.
  intros [] s3 [= <-].
  apply (bind_outcome _ _ _ (fun o s => match o with
                                        | Ok _ => accounted fl s
                                        | _ => exists inflight, accounted inflight s
                                        end)); try discriminate.
  intros [] s4 [= <-].
  match goal with
  | |- context [snd (?m ?s)] =>
      assert (H4 : accounted fl s);
      [| assert (Hrest : always keeps_accounted m) ]
  end.
  - unfold accounted in *. simpl. rewrite emits_app, pushes_app, !fmap_app. simpl.
    rewrite app_nil_r, H2. rewrite <- ?app_assoc. simpl. done.
  - unfold TSTemplate._outputInjectedField, TSTemplate._outputInjectedMethod,
      TSTemplate._outputInjectedStaticMethod.
    repeat lazymatch goal with
           | |- always _ (TSTemplate._outputMethod _ _ _) =>
               apply _outputMethod_always;
               [typeclasses eauto | apply generateClassDefinition_keeps_accounted
               | intros; by apply accounted_frame]
           | |- always _ (TSTemplate._outputField _ _) =>
               apply _outputField_always;
               [typeclasses eauto | apply generateClassDefinition_keeps_accounted
               | intros; by apply accounted_frame]
           | |- always _ (TSTemplate.jvmtype2tstype _ _ _) =>
               apply jvmtype2tstype_always;
               [typeclasses eauto | apply generateClassDefinition_keeps_accounted]
           | |- always _ (headerStream_write _) => intros ?; by apply accounted_frame
           | |- _ => always_step
           end.
  - specialize (Hrest _ _ H4).
    match goal with |- match fst ?r with _ => _ end => destruct r as [[[]| |] s5] end;
      simpl in *; eauto.
Qed.

(** The worklist loop: when it returns, the worklist is empty and every
    record pushed has been emitted. *)
Lemma _processGenerateQueue_drains E fuel st :
  accounted [] st ->
  let r := TSTemplate._processGenerateQueue E fuel st in
  match fst r with
  | Ok _ => accounted [] (snd r) /\ generateQueue (snd r) = []
  | _ => exists inflight, accounted inflight (snd r)
  end.
Proof.
  revert st; induction fuel as [|fuel IH]; intros st Hacc; cbn zeta;
    cbn [TSTemplate._processGenerateQueue].
  - destruct (last (generateQueue st)) as [cls|] eqn:Hlast; simpl.
    + by exists [].
    + split; [done | by apply last_None].
  - destruct (last (generateQueue st)) as [cls|] eqn:Hlast; simpl.
    2: { split; [done | by apply last_None]. }
    apply last_Some in Hlast as [q Hq].
    apply (bind_outcome _ _ _ (fun o s => match o with
                                          | Ok _ => accounted [] s /\ generateQueue s = []
                                          | _ => exists inflight, accounted inflight s
                                          end)); try discriminate.
    intros [] s1 [= <-].
    assert (H1 : accounted [cls] (set_generateQueue (fun q => removelast q) st)).
    { unfold accounted in *. simpl. rewrite Hacc, Hq, removelast_last. simpl.
      apply Permutation_app_head. by rewrite Permutation_app_comm. }
    pose proof (_processHeader_emits E cls [] _ H1) as Hemit. cbn zeta in Hemit.
    apply (bind_outcome _ _ _ (fun o s => match o with
                                          | Ok _ => accounted [] s /\ generateQueue s = []
                                          | _ => exists inflight, accounted inflight s
                                          end)).
    + intros [] s2 Hrun. rewrite Hrun in Hemit. by apply IH.
    + intros e s2 Hrun. by rewrite Hrun in Hemit.
    + intros s2 Hrun. by rewrite Hrun in Hemit.
Qed.

Lemma headersEnd_drains E fuel st :
  accounted [] st ->
  let r := TSTemplate.headersEnd E fuel st in
  match fst r with
  | Ok _ => accounted [] (snd r) /\ generateQueue (snd r) = []
  | _ => exists inflight, accounted inflight (snd r)
  end.
Proof.
  intros Hacc. cbn zeta. unfold TSTemplate.headersEnd.
  pose proof (_processGenerateQueue_drains E fuel st Hacc) as Hd. cbn zeta in Hd.
  apply (bind_outcome _ _ _ (fun o s => match o with
                                        | Ok _ => accounted [] s /\ generateQueue s = []
                                        | _ => exists inflight, accounted inflight s
                                        end)).
  - intros [] s1 Hrun. rewrite Hrun in Hd. exact Hd.
  - intros e s1 Hrun. by rewrite Hrun in Hd.
  - intros s1 Hrun. by rewrite Hrun in Hd.
Qed.

(** A step that keeps the account, followed by the rest of the run. *)
Lemma bind_keeps_accounted {A B} (m : M A) (k : A -> M B) st fl
    (Q : outcome B -> State -> Prop) :
  always keeps_accounted m ->
  accounted fl st ->
  (forall a s1, accounted fl s1 -> Q (fst (k a s1)) (snd (k a s1))) ->
  (forall e s1, accounted fl s1 -> Q (Throw e) s1) ->
  (forall s1, accounted fl s1 -> Q Diverge s1) ->
  Q (fst (bind m k st)) (snd (bind m k st)).
Proof.
  intros Hm Hacc HOk HThrow HDiv.
  apply bind_outcome; intros; [apply HOk | apply HThrow | apply HDiv];
    eapply (always_run keeps_accounted); eauto.
Qed.

Lemma constructor_keeps_accounted E : always keeps_accounted (TSTemplate.constructor E).
Proof.
  apply constructor_always; try typeclasses eauto.
  - apply generateClassDefinition_keeps_accounted.
  - intros. by apply accounted_frame.
Qed.

Lemma TS_processClasses_keeps_accounted E :
  always keeps_accounted (processClasses E (TSTemplate_ E)).
Proof.
  apply TS_processClasses_always; try typeclasses eauto.
  - apply findClass_keeps_accounted.
  - apply generateClassDefinition_keeps_accounted.
  - intros. by apply accounted_frame.
  - intros. by apply accounted_frame.
Qed.

Lemma TS_fileEnd_keeps_accounted : always keeps_accounted TSTemplate.fileEnd.
Proof. apply TS_fileEnd_always; try typeclasses eauto. intros. by apply accounted_frame. Qed.

Lemma main_typescript E fuel st :
  typescript E = true ->
  main E fuel st = (TSTemplate.constructor E ;;; mainBody E fuel (TSTemplate_ E)) st.
Proof.
  intros Hts. unfold main, bind, ret. rewrite Hts.
  by destruct (TSTemplate.constructor E st) as [[[]| |] s1].
Qed.

Lemma main_javascript E fuel st :
  typescript E = false -> main E fuel st = mainBody E fuel JSTemplate_ st.
Proof. intros Hjs. unfold main, bind, ret. by rewrite Hjs. Qed.

(** In header mode, a run that returns has emitted every record it pushed. *)
Lemma main_settles E fuel :
  typescript E = true ->
  let r := main E fuel initialState in
  match fst r with
  | Ok _ => accounted [] (snd r) /\ generateQueue (snd r) = []
  | _ => exists inflight, accounted inflight (snd r)
  end.
Proof.
  intros Hts. cbn zeta. rewrite main_typescript by done. unfold mainBody. rewrite Hts.
  cbn [fileStart fileEnd TSTemplate_].
  assert (H0 : accounted [] initialState) by (unfold accounted; simpl; done).
  set (Q := fun (o : outcome unit) s =>
              match o with
              | Ok _ => accounted [] s /\ generateQueue s = []
              | _ => exists inflight, accounted inflight s
              end).
  apply (bind_keeps_accounted _ _ _ [] Q);
    [apply constructor_keeps_accounted | exact H0 | | by eexists | by eexists].
  intros _ s1 H1.
  apply (bind_keeps_accounted _ _ _ [] Q); [| exact H1 | | by eexists | by eexists].
  { apply TS_fileStart_always; try typeclasses eauto. intros. by apply accounted_frame. }
  intros _ s2 H2.
  apply (bind_keeps_accounted _ _ _ [] Q);
    [apply TS_processClasses_keeps_accounted | exact H2 | | by eexists | by eexists].
  intros _ s3 H3.
  apply (bind_keeps_accounted _ _ _ [] Q);
    [apply TS_fileEnd_keeps_accounted | exact H3 | | by eexists | by eexists].
  intros _ s4 H4.
  by apply headersEnd_drains.
Qed.

(** In every run, whatever its outcome, the emitted records are among the
    pushed ones. *)
Lemma main_accounts E fuel :
  exists inflight, accounted inflight (snd (main E fuel initialState)).
Proof.
  destruct (typescript E) eqn:Hts.
  - pose proof (main_settles E fuel Hts) as Hs. cbn zeta in Hs.
    destruct (fst (main E fuel initialState)); [exists []; apply Hs | exact Hs | exact Hs].
  - rewrite main_javascript by done. unfold mainBody. rewrite Hts.
    assert (H0 : accounted [] initialState) by (unfold accounted; simpl; done).
    assert (Hal : always keeps_accounted
              (fileStart JSTemplate_ ;;; processClasses E JSTemplate_ ;;;
               fileEnd JSTemplate_ ;;; ret tt)).
    { cbn [fileStart fileEnd JSTemplate_]. unfold JSTemplate.fileStart, JSTemplate.fileEnd.
      repeat lazymatch goal with
             | |- always _ (processClasses _ _) =>
                 apply JS_processClasses_always; try typeclasses eauto;
                 [apply findClass_keeps_accounted | intros; by apply accounted_frame ..]
             | |- always _ (write _) => intros ?; by apply accounted_frame
             | |- _ => always_step
             end. }
    exists []. exact (Hal initialState [] H0).
Qed.

(** ** The cache holds what the class path determines *)

#[local] Instance keeps_canonical_preorder E : PreOrder (keeps_canonical E).
Proof.
  split; unfold keeps_canonical; [intros st H; exact H | intros ??? H1 H2 H; auto].
Qed.

Lemma canonical_frame E st st' : cache st' = cache st -> keeps_canonical E st st'.
Proof. intros Hc H d cd. rewrite Hc. apply H. Qed.

(** What one activation of [findClass] does to the cache, given that the
    nested activations keep it canonical. *)
Lemma resolveClass_canonical E (rec : string -> M ClassData) descriptor st :
  (forall d, always (keeps_canonical E) (rec d)) ->
  cache_canonical E st ->
  let r := resolveClass E rec descriptor st in
  cache_canonical E (snd r) /\ (forall rv, fst r = Ok rv -> rv = canon E descriptor).
Proof.
  intros Hrec Hcan. cbn zeta. unfold resolveClass.
  set (Q := fun (o : outcome ClassData) s =>
              cache_canonical E s /\ (forall rv, o = Ok rv -> rv = canon E descriptor)).
  assert (Hbody : forall body : M ClassData,
            (let r := body st in
             cache_canonical E (snd r) /\ (forall rv, fst r = Ok rv -> rv = canon E descriptor)) ->
            let r := try_catch
                       (rv <- body ;;
                        modify (set_cache (<[descriptor := rv]>)) ;;;
                        log (EvCache descriptor) ;;; ret rv)
                       (fun e => throw ("Unable to read class file for " +:+ descriptor
                                        +:+ ": " +:+ toString e)) st in
            Q (fst r) (snd r)).
  { intros body Hb. cbn zeta in *. unfold try_catch, bind, modify, log, ret, throw.
    destruct (body st) as [[rv| e |] s1]; cbn [fst snd] in *; destruct Hb as [Hc Hv].
    - split; [|intros ? [= <-]; by apply Hv].
      intros d cd. simpl. destruct (decide (descriptor = d)) as [<-|Hne].
      + rewrite lookup_insert_eq. intros [= <-]. by apply Hv.
      + rewrite lookup_insert_ne by done. apply Hc.
    - split; [exact Hc | discriminate].
    - split; [exact Hc | discriminate]. }
  apply Hbody. cbn zeta.
  destruct (JS.head_is "L" descriptor) eqn:HL.
  - assert (Hload : always (keeps_canonical E)
                      (loadClass E (descriptor2typestr descriptor))).
    { apply loadClass_always; try typeclasses eauto. intros. by apply canonical_frame. }
    apply (bind_outcome _ _ _
             (fun o s => cache_canonical E s /\ (forall rv, o = Ok rv -> rv = canon E descriptor))).
    2,3: intros; split; [eapply (always_run (keeps_canonical E)); eauto | discriminate].
    intros r s1 Hrun.
    assert (H1 : cache_canonical E s1) by (eapply (always_run (keeps_canonical E)); eauto).
    assert (Hcp : classpath E (descriptor2typestr descriptor) = Some r).
    { unfold loadClass in Hrun. apply bind_Ok_inv in Hrun as ([] & s0 & _ & Hrun).
      destruct (classpath E _); [|discriminate]. by apply ret_Ok_inv in Hrun as [-> _]. }
    assert (Hrest : always (keeps_canonical E)
      (superClass <- match getSuperClassReference r with
                     | Some name => c <- rec name ;; ret (Some c)
                     | None => ret None
                     end ;;
       interfaceClasses <- mapM rec (getInterfaceClassReferences r) ;;
       ret (ReferenceCD (setResolved r superClass interfaceClasses)))).
    { repeat lazymatch goal with
             | |- always _ (rec _) => apply Hrec
             | |- _ => always_step
             end. }
    split; [by apply Hrest|].
    intros rv Hrv. unfold canon. rewrite HL, Hcp.
    match type of Hrv with
    | fst (?m s1) = _ => destruct (m s1) as [[rv'| |] s2] eqn:Hrun2
    end; simpl in Hrv; try discriminate.
    injection Hrv as ->.
    apply bind_Ok_inv in Hrun2 as (sup & s3 & _ & Hrun2).
    apply bind_Ok_inv in Hrun2 as (ifs & s4 & _ & Hrun2).
    by apply ret_Ok_inv in Hrun2 as [<- _].
  - unfold canon. rewrite HL. destruct (JS.head_is "[" descriptor); simpl;
      (split; [exact Hcan | by intros ? [= <-]]).
Qed.

Lemma findClass_canonical E depth descriptor st :
  cache_canonical E st ->
  let r := findClass E depth descriptor st in
  cache_canonical E (snd r) /\ (forall rv, fst r = Ok rv -> rv = canon E descriptor).
Proof.
  revert descriptor st; induction depth as [|depth IH]; intros descriptor st Hcan;
    cbn zeta; cbn [findClass].
  - split; [exact Hcan | discriminate].
  - destruct (cache st !! descriptor) as [cd|] eqn:Hc; simpl.
    + split; [exact Hcan | intros ? [= <-]; by apply Hcan].
    + apply resolveClass_canonical; [|exact Hcan].
      intros d s Hs. by apply IH.
Qed.

Lemma findClass_keeps_canonical E depth d : always (keeps_canonical E) (findClass E depth d).
Proof. intros st Hcan. by apply findClass_canonical. Qed.

Lemma generateClassDefinition_keeps_canonical E desc :
  always (keeps_canonical E) (TSTemplate.generateClassDefinition E desc).
Proof.
  apply generateClassDefinition_always; try typeclasses eauto;
    try (intros; by apply canonical_frame).
  intros. apply findClass_keeps_canonical.
Qed.

(** ** What the header side leaves alone *)

#[local] Instance stub_untouched_preorder : PreOrder stub_untouched.
Proof.
  split; unfold stub_untouched; [done | intros ??? [-> ->] [-> ->]; done].
Qed.

Lemma findClass_stub_untouched E depth d : always stub_untouched (findClass E depth d).
Proof. apply findClass_always; try typeclasses eauto; done. Qed.

Lemma generateClassDefinition_stub_untouched E desc :
  always stub_untouched (TSTemplate.generateClassDefinition E desc).
Proof.
  apply generateClassDefinition_always; try typeclasses eauto; try done.
  intros. apply findClass_stub_untouched.
Qed.

Lemma jvmtype2tstype_stub_untouched E desc prefix :
  always stub_untouched (TSTemplate.jvmtype2tstype E desc prefix).
Proof.
  apply jvmtype2tstype_always; try typeclasses eauto.
  apply generateClassDefinition_stub_untouched.
Qed.

Lemma constructor_stub_untouched E : always stub_untouched (TSTemplate.constructor E).
Proof.
  apply constructor_always; try typeclasses eauto; try done.
  apply generateClassDefinition_stub_untouched.
Qed.

Lemma headersEnd_stub_untouched E fuel : always stub_untouched (TSTemplate.headersEnd E fuel).
Proof.
  apply headersEnd_always; try typeclasses eauto; try done.
  apply generateClassDefinition_stub_untouched.
Qed.

Lemma constructor_keeps_canonical E : always (keeps_canonical E) (TSTemplate.constructor E).
Proof.
  apply constructor_always; try typeclasses eauto;
    try (intros; by apply canonical_frame).
  apply generateClassDefinition_keeps_canonical.
Qed.

(** ** What the TypeScript template writes to the stub *)

Lemma mapMi_jvmtype2tstype_value E (F : nat -> string -> string) i (l : list string)
    st names st' :
  mapMi (fun type i => t <- TSTemplate.jvmtype2tstype E type true ;; ret (F i t)) i l st
  = (Ok names, st') ->
  names = mapi (fun type i => F i (ts_typename true type)) i l.
Proof.
  revert i st names st'; induction l as [|d l IH]; intros i st names st' H; simpl in H.
  - by apply ret_Ok_inv in H as [<- _].
  - apply bind_Ok_inv in H as (n & s1 & Hn & H).
    apply bind_Ok_inv in H as (ns & s2 & Hns & H).
    apply ret_Ok_inv in H as [<- _].
    apply bind_Ok_inv in Hn as (t & s0 & Ht & Hn).
    apply ret_Ok_inv in Hn as [<- _].
    apply jvmtype2tstype_value in Ht as ->. apply IH in Hns as ->. reflexivity.
Qed.

Lemma TS_method_writes E classDesc methodName isStatic argTypes rType st st' :
  TSTemplate.method E classDesc methodName isStatic argTypes rType st = (Ok tt, st') ->
  stub st' = stub st +:+ TS_method_text classDesc methodName isStatic argTypes rType
  /\ classesSeen st' = classesSeen st.
Proof.
  intros Hrun. unfold TSTemplate.method in Hrun.
  apply bind_Ok_inv in Hrun as (trueRtype & s1 & H1 & Hrun).
  pose proof (always_run _ _ _ _ _ (jvmtype2tstype_stub_untouched E _ _) H1) as [U1 V1].
  apply jvmtype2tstype_value in H1 as ->.
  apply bind_Ok_inv in Hrun as ([] & s2 & H2 & Hrun).
  assert (Hgen : always stub_untouched
            (forEach (TSTemplate.generateClassDefinition E) (argTypes ++ [rType]))).
  { always_step. apply generateClassDefinition_stub_untouched. }
  pose proof (always_run _ _ _ _ _ Hgen H2) as [U2 V2]. clear Hgen H2.
  apply bind_Ok_inv in Hrun as (javaThis & s3 & H3 & Hrun).
  assert (Hthis : javaThis = (if isStatic then "" else ", javaThis: " +:+ ts_typename true classDesc)
                  /\ stub_untouched s2 s3).
  { destruct isStatic.
    - apply ret_Ok_inv in H3 as [<- <-]. done.
    - apply bind_Ok_inv in H3 as (t & s & Ht & H3). apply ret_Ok_inv in H3 as [<- <-].
      pose proof (always_run _ _ _ _ _ (jvmtype2tstype_stub_untouched E _ _) Ht).
      by apply jvmtype2tstype_value in Ht as ->. }
  destruct Hthis as [-> [U3 V3]]. clear H3.
  apply bind_Ok_inv in Hrun as (args & s4 & H4 & Hrun).
  assert (Hargs : args = (if (length argTypes =? 0)%nat then ""
                          else ", " +:+ JS.join ", "
                                 (mapi (fun type i => "arg" +:+ show_nat i +:+ ": "
                                                      +:+ ts_typename true type) 0 argTypes))
                  /\ stub_untouched s3 s4).
  { destruct (length argTypes =? 0)%nat.
    - apply ret_Ok_inv in H4 as [<- <-]. done.
    - apply bind_Ok_inv in H4 as (l & s & Hl & H4). apply ret_Ok_inv in H4 as [<- <-].
      split.
      + by apply (mapMi_jvmtype2tstype_value E
                    (fun i t => "arg" +:+ show_nat i +:+ ": " +:+ t)) in Hl as ->.
      + eapply (always_run stub_untouched); [|exact Hl].
        repeat lazymatch goal with
               | |- always _ (TSTemplate.jvmtype2tstype _ _ _) =>
                   apply jvmtype2tstype_stub_untouched
               | |- _ => always_step
               end. }
  destruct Hargs as [-> [U4 V4]]. clear H4.
  apply bind_Ok_inv in Hrun as (rt & s5 & H5 & Hrun).
  pose proof (always_run _ _ _ _ _ (jvmtype2tstype_stub_untouched E _ _) H5) as [U5 V5].
  apply jvmtype2tstype_value in H5 as ->.
  injection Hrun as <-. simpl.
  rewrite U5, U4, U3, U2, U1, V5, V4, V3, V2, V1. done.
Qed.

Lemma forEach_TS_method_writes E classDesc (ms : list Method) st st' :
  forEach (fun m => method (TSTemplate_ E) classDesc (signature m) (m_isStatic m)
                      (parameterTypes m) (returnType m)) ms st = (Ok tt, st') ->
  stub st' = stub st +:+
             texts (map (fun m => TS_method_text classDesc (signature m) (m_isStatic m)
                                    (parameterTypes m) (returnType m)) ms)
  /\ classesSeen st' = classesSeen st.
Proof.
  revert st; induction ms as [|m ms IH]; intros st H; simpl in H.
  - apply ret_Ok_inv in H as [_ <-]. simpl. by rewrite append_nil_r.
  - apply bind_Ok_inv in H as ([] & s1 & Hm & H).
    apply TS_method_writes in Hm as [U1 V1]. apply IH in H as [U2 V2].
    simpl. rewrite U2, U1, V2, V1. by rewrite append_assoc.
Qed.

Lemma TS_classStart_writes E className st st' :
  TSTemplate.classStart E className st = (Ok tt, st') ->
  stub st' = stub st +:+ (nl +:+ "class " +:+ className +:+ " {" +:+ nl)
  /\ classesSeen st' = classesSeen st ++ [className].
Proof.
  intros Hrun. unfold TSTemplate.classStart in Hrun.
  apply bind_Ok_inv in Hrun as ([] & s1 & [= <-] & Hrun).
  apply bind_Ok_inv in Hrun as ([] & s2 & [= <-] & Hrun).
  by pose proof (always_run _ _ _ _ _ (generateClassDefinition_stub_untouched E _) Hrun)
    as [-> ->].
Qed.

Lemma TS_processClassData_writes E r st st' :
  processClassData (TSTemplate_ E) r st = (Ok tt, st') ->
  stub st' = stub st +:+ TS_class_text r
  /\ classesSeen st' = classesSeen st ++ TS_class_seen r.
Proof.
  intros Hrun. unfold processClassData in Hrun. fold (fixedClassName r) in Hrun.
  apply bind_Ok_inv in Hrun as (found & s1 & Hms & Hrun).
  rewrite processMethods_not_found in Hms.
  unfold TS_class_text, TS_class_seen, nativeMethods.
  destruct (List.filter m_isNative (getMethods r)) as [|m ms].
  - apply ret_Ok_inv in Hms as [<- <-]. apply ret_Ok_inv in Hrun as [_ <-].
    by rewrite append_nil_r, app_nil_r.
  - apply bind_Ok_inv in Hms as ([] & s2 & Hs & Hms).
    apply bind_Ok_inv in Hms as ([] & s3 & Hm & Hms).
    apply ret_Ok_inv in Hms as [<- <-].
    apply TS_classStart_writes in Hs as [U2 V2].
    apply forEach_TS_method_writes in Hm as [U3 V3].
    injection Hrun as <-. simpl stub. simpl classesSeen.
    rewrite U3, U2, V3, V2. by rewrite !append_assoc.
Qed.

Lemma TS_processClassData_keeps_canonical E r :
  always (keeps_canonical E) (processClassData (TSTemplate_ E) r).
Proof.
  apply TS_processClassData_always; try typeclasses eauto;
    try (intros; by apply canonical_frame).
  apply generateClassDefinition_keeps_canonical.
Qed.

Lemma requested_cons E d descs :
  requested E (d :: descs) =
  match canon E d with
  | ReferenceCD r => r :: requested E descs
  | _ => requested E descs
  end.
Proof. unfold requested. simpl. by destruct (canon E d). Qed.

(** The loop over the requested descriptors. *)
Lemma TS_processClasses_writes E (descs : list string) st st' :
  cache_canonical E st ->
  forEach (fun desc =>
             cd <- findClass E (stackDepth E) desc ;;
             match cd with
             | ReferenceCD classData => processClassData (TSTemplate_ E) classData
             | _ => throw "TypeError: classData.getMethods is not a function"
             end) descs st = (Ok tt, st') ->
  stub st' = stub st +:+ texts (map TS_class_text (requested E descs))
  /\ classesSeen st' = classesSeen st ++ concat (map TS_class_seen (requested E descs)).
Proof.
  revert st; induction descs as [|d descs IH]; intros st Hcan H; simpl in H.
  - apply ret_Ok_inv in H as [_ <-]. simpl. by rewrite append_nil_r, app_nil_r.
  - apply bind_Ok_inv in H as ([] & s2 & Hd & H).
    apply bind_Ok_inv in Hd as (cd & s1 & Hfind & Hd).
    pose proof (findClass_canonical E (stackDepth E) d st Hcan) as Hfc. cbn zeta in Hfc.
    rewrite Hfind in Hfc. destruct Hfc as [Hcan1 Hval]. specialize (Hval cd eq_refl).
    pose proof (always_run _ _ _ _ _ (findClass_stub_untouched E _ _) Hfind) as [U1 V1].
    destruct cd as [r| |]; try discriminate.
    assert (Hcan2 : cache_canonical E s2).
    { eapply (always_run (keeps_canonical E));
        [apply TS_processClassData_keeps_canonical | exact Hd | exact Hcan1]. }
    apply TS_processClassData_writes in Hd as [U2 V2].
    apply (IH s2 Hcan2) in H as [U3 V3].
    rewrite requested_cons, <- Hval. simpl.
    rewrite U3, U2, U1, V3, V2, V1. by rewrite append_assoc, <- app_assoc.
Qed.

Lemma fileEnd_entries_write (seen : list string) i st r st' :
  mapMi TSTemplate.fileEnd_entry i seen st = (Ok r, st') ->
  stub st' = stub st +:+
             texts (mapi (fun kls i => (if (0 <? i)%nat then "," else "") +:+
                                       (nl +:+ "  '" +:+ JS.replace_char "_" "/" kls
                                        +:+ "': " +:+ kls)) i seen).
Proof.
  revert i st r; induction seen as [|kls seen IH]; intros i st r H; simpl in H.
  - apply ret_Ok_inv in H as [_ <-]. simpl. by rewrite append_nil_r.
  - apply bind_Ok_inv in H as ([] & s1 & Hk & H).
    apply bind_Ok_inv in H as (rs & s2 & Hrest & H).
    apply ret_Ok_inv in H as [_ <-].
    apply IH in Hrest as ->. cbn [mapi texts fold_right].
    unfold TSTemplate.fileEnd_entry in Hk.
    apply bind_Ok_inv in Hk as ([] & s0 & Hc & [= <-]).
    destruct (0 <? i)%nat.
    + injection Hc as <-. unfold texts, nl. simpl. by str_norm.
    + apply ret_Ok_inv in Hc as [_ <-]. unfold texts, nl. simpl. by str_norm.
Qed.

Lemma TS_fileEnd_writes st st' :
  TSTemplate.fileEnd st = (Ok tt, st') ->
  stub st' = stub st +:+ TS_fileEnd_text (classesSeen st).
Proof.
  intros Hrun. unfold TSTemplate.fileEnd in Hrun.
  apply bind_Ok_inv in Hrun as ([] & s1 & [= <-] & Hrun).
  apply bind_Ok_inv in Hrun as (seen & s2 & [= <- <-] & Hrun).
  apply bind_Ok_inv in Hrun as (r & s3 & Hent & [= <-]).
  apply fileEnd_entries_write in Hent. simpl in *. rewrite Hent.
  unfold TS_fileEnd_text. by rewrite !append_assoc.
Qed.

(** A TypeScript run that returns has written [TS_stub_text] to the stub,
    whatever the prior header was. *)
Lemma main_typescript_stub E fuel st' :
  typescript E = true ->
  main E fuel initialState = (Ok tt, st') ->
  stub st' = TS_stub_text E.
Proof.
  intros Hts Hrun. rewrite main_typescript in Hrun by done.
  unfold mainBody in Hrun. rewrite Hts in Hrun.
  apply bind_Ok_inv in Hrun as ([] & s1 & Hcons & Hrun).
  pose proof (always_run _ _ _ _ _ (constructor_stub_untouched E) Hcons) as [U1 V1].
  assert (Hcan1 : cache_canonical E s1).
  { eapply (always_run (keeps_canonical E));
      [apply constructor_keeps_canonical | exact Hcons |].
    intros d cd Hd. change (cache initialState) with (∅ : gmap string ClassData) in Hd.
    by rewrite lookup_empty in Hd. }
  apply bind_Ok_inv in Hrun as ([] & s2 & [= <-] & Hrun).
  apply bind_Ok_inv in Hrun as ([] & s3 & Hcls & Hrun).
  unfold processClasses in Hcls.
  apply TS_processClasses_writes in Hcls as [U3 V3]; [|exact Hcan1].
  apply bind_Ok_inv in Hrun as ([] & s4 & Hend & Hrun).
  apply TS_fileEnd_writes in Hend.
  pose proof (always_run _ _ _ _ _ (headersEnd_stub_untouched E fuel) Hrun) as [U5 _].
  rewrite U5, Hend, U3, V3. cbn [stub classesSeen set_stub]. rewrite U1, V1.
  unfold TS_stub_text, TS_fileStart_text. cbn [stub classesSeen initialState].
  rewrite app_nil_l. by str_norm.
Qed.

(** JavaScript runs never look at the prior header. *)
Lemma bind_ext {A B} (m : M A) (k1 k2 : A -> M B) st :
  (forall a s, k1 a s = k2 a s) -> bind m k1 st = bind m k2 st.
Proof. intros Hk. unfold bind. destruct (m st) as [[a| |] s1]; [apply Hk | done | done]. Qed.

Lemma bind_ext_l {A B} (m1 m2 : M A) (k : A -> M B) st :
  m1 st = m2 st -> bind m1 k st = bind m2 k st.
Proof. intros Hm. unfold bind. by rewrite Hm. Qed.

Lemma mapM_ext {A B} (f g : A -> M B) (l : list A) st :
  (forall x s, f x s = g x s) -> mapM f l st = mapM g l st.
Proof.
  intros Hfg. revert st; induction l as [|x l IH]; intros st; [reflexivity|].
  simpl. rewrite (bind_ext_l (f x) (g x)) by apply Hfg.
  apply bind_ext. intros y s. apply bind_ext_l, IH.
Qed.

Lemma forEach_ext {A} (f g : A -> M unit) (l : list A) st :
  (forall x s, f x s = g x s) -> forEach f l st = forEach g l st.
Proof.
  intros Hfg. revert st; induction l as [|x l IH]; intros st; [reflexivity|].
  simpl. rewrite (bind_ext_l (f x) (g x)) by apply Hfg.
  apply bind_ext. intros y s. apply IH.
Qed.

Lemma resolveClass_ext E (rec1 rec2 : string -> M ClassData) descriptor st :
  (forall d s, rec1 d s = rec2 d s) ->
  resolveClass E rec1 descriptor st = resolveClass E rec2 descriptor st.
Proof.
  intros Hrec. unfold resolveClass, try_catch.
  match goal with
  | |- match ?a st with _ => _ end = match ?b st with _ => _ end =>
      assert (Hab : a st = b st); [|by rewrite Hab]
  end.
  apply bind_ext_l. destruct (JS.head_is "L" descriptor); [|reflexivity].
  apply bind_ext. intros r s.
  transitivity
    ((superClass <- match getSuperClassReference r with
                    | Some name => c <- rec2 name ;; ret (Some c)
                    | None => ret None
                    end ;;
      interfaceClasses <- mapM rec1 (getInterfaceClassReferences r) ;;
      ret (ReferenceCD (setResolved r superClass interfaceClasses))) s).
  - apply bind_ext_l. destruct (getSuperClassReference r); [|reflexivity].
    apply bind_ext_l, Hrec.
  - apply bind_ext. intros sup s'. apply bind_ext_l, mapM_ext, Hrec.
Qed.

Lemma findClass_header E h depth descriptor st :
  findClass (with_existingHeaders h E) depth descriptor st = findClass E depth descriptor st.
Proof.
  revert descriptor st; induction depth as [|depth IH]; intros descriptor st; simpl.
  - reflexivity.
  - destruct (cache st !! descriptor); [reflexivity|].
    change (resolveClass (with_existingHeaders h E)) with (resolveClass E).
    apply resolveClass_ext, IH.
Qed.

Lemma main_javascript_header E h fuel fuel' st :
  typescript E = false ->
  main (with_existingHeaders h E) fuel st = main E fuel' st.
Proof.
  intros Hjs. rewrite !main_javascript by done. unfold mainBody, processClasses.
  cbn [typescript with_existingHeaders classes stackDepth]. rewrite Hjs.
  apply bind_ext. intros _ s. apply bind_ext_l, forEach_ext. intros d s'.
  apply bind_ext_l, findClass_header.
Qed.

(** ** Claim on running the tool twice *)

(** C6 (as stated, refuted): the first run, without prior header, declares
    [java_lang_Object] before [java_lang_Throwable]; the second run, which
    replays that header, declares them the other way round, so the two
    header artifacts differ. *)
Lemma second_run_reorders_header :
  let first := main (Samples.env true None ["LNat;"]) 16 initialState in
  let hdr1 := headerStream (snd first) in
  let second := main (Samples.env true (Some hdr1) ["LNat;"]) 16 initialState in
  let hdr2 := headerStream (snd second) in
  fst first = Ok tt /\ fst second = Ok tt
  /\ String.eqb hdr1 hdr2 = false
  /\ JS.indexOf "export class java_lang_Object " 0 hdr1 = 1958%Z
  /\ JS.indexOf "export class java_lang_Throwable " 0 hdr1 = 1996%Z
  /\ JS.indexOf "export class java_lang_Throwable " 0 hdr2 = 1264%Z
  /\ JS.indexOf "export class java_lang_Object " 0 hdr2 = 1330%Z.
Proof. repeat split; vm_compute; reflexivity. Qed.

(** C6 (amended): the stub artifact of a run that returns does not depend
    on the prior header: two runs on the same inputs that differ in the
    header found in the output directory, such as a first run and the run
    that replays its header, write the same stub, byte for byte.  (The
    header artifacts may list the declarations in different orders.) *)
Theorem stub_independent_of_prior_header (E : Env) (h1 h2 : option string)
    (fuel1 fuel2 : nat) (st1 st2 : State) :
  main (with_existingHeaders h1 E) fuel1 initialState = (Ok tt, st1) ->
  main (with_existingHeaders h2 E) fuel2 initialState = (Ok tt, st2) ->
  stub st1 = stub st2.
Proof.
  intros H1 H2. destruct (typescript E) eqn:Hts.
  - apply main_typescript_stub in H1; [|exact Hts].
    apply main_typescript_stub in H2; [|exact Hts].
    rewrite H1, H2. reflexivity.
  - rewrite (main_javascript_header E h1 fuel1 fuel1) in H1 by done.
    rewrite (main_javascript_header E h2 fuel2 fuel1) in H2 by done.
    congruence.
Qed.

Lemma stub_independent_of_prior_header_witness :
  let first := main (Samples.env true None ["LNat;"]) 16 initialState in
  let second := main (Samples.env true (Some (headerStream (snd first))) ["LNat;"]) 16
                  initialState in
  stub (snd first) = stub (snd second).
Proof.
  cbn zeta.
  apply (stub_independent_of_prior_header (Samples.env true None ["LNat;"]) None
           (Some (headerStream (snd (main (Samples.env true None ["LNat;"]) 16 initialState))))
           16 16);
    vm_compute; reflexivity.
Defined.

(** * Further properties *)

(** ** The type mapper on arrays and output names *)

Lemma ts_typename_array (prefix : bool) (n : nat) (desc : string) :
  ts_typename prefix (array_of (S n) desc) =
  (if prefix then "JVMTypes." else "") +:+ "JVMArray<" +:+ ts_typename prefix (array_of n desc) +:+ ">".
Proof. reflexivity. Qed.

(** X1: the round trip of the type mapper extends from reference
    descriptors to arrays of them, of any dimension: decoding the
    unqualified output name of [[...[L<name>;] gives the descriptor back,
    for every decodable name; and that output name is what
    [jvmtype2tstype] returns whenever it returns. *)
Theorem roundtrip_array_descriptor (name : string) (n : nat) :
  decodable_name name = true ->
  tstype2jvmtype (ts_typename false (array_of n ("L" +:+ name +:+ ";")))
  = Ok (array_of n ("L" +:+ name +:+ ";"))
  /\ (forall E st s st',
        TSTemplate.jvmtype2tstype E (array_of n ("L" +:+ name +:+ ";")) false st = (Ok s, st') ->
        tstype2jvmtype s = Ok (array_of n ("L" +:+ name +:+ ";"))).
Proof.
  intros Hname.
  assert (Hrt : tstype2jvmtype (ts_typename false (array_of n ("L" +:+ name +:+ ";")))
                = Ok (array_of n ("L" +:+ name +:+ ";"))).
  { induction n as [|n IH]; [by apply decode_encoded_name|].
    rewrite ts_typename_array. rewrite append_nil_l.
    by rewrite tstype2jvmtype_array, IH. }
  split; [exact Hrt|].
  intros E st s st' Hrun. by apply jvmtype2tstype_value in Hrun as ->.
Qed.

Lemma roundtrip_array_descriptor_witness :
  tstype2jvmtype "JVMArray<JVMArray<java_lang_String>>" = Ok "[[Ljava/lang/String;".
Proof.
  exact (proj1 (roundtrip_array_descriptor "java/lang/String" 2 eq_refl)).
Defined.

Lemma occurs_app (c : ascii) (s t : string) :
  occurs c (s +:+ t) = occurs c s || occurs c t.
Proof. induction s as [|a s IH]; simpl; [reflexivity|]. by rewrite IH, orb_assoc. Qed.

Lemma occurs_encoded (name : string) :
  occurs "/" (JS.replace_char "/" "_" (JS.replace_char "_" "__" name)) = false.
Proof.
  induction name as [|c name IH]; [reflexivity|]. rewrite encoded_cons.
  destruct (Ascii.eqb_spec c "_") as [->|Hu]; [exact IH|].
  destruct (Ascii.eqb_spec c "/") as [->|Hs]; [exact IH|].
  cbn [occurs]. by rewrite (proj2 (Ascii.eqb_neq _ _) Hs), IH.
Qed.

(** X2: no output name contains a package separator, whatever the
    descriptor and whether or not the name is qualified: the separators of
    a class name are all replaced, and nothing the mapper adds holds
    one. *)
Theorem output_name_has_no_separator (E : Env) (desc : string) (prefix : bool) :
  occurs "/" (ts_typename prefix desc) = false
  /\ (forall st s st',
        TSTemplate.jvmtype2tstype E desc prefix st = (Ok s, st') -> occurs "/" s = false).
Proof.
  assert (H : occurs "/" (ts_typename prefix desc) = false).
  { induction desc as [|c desc IH]; [reflexivity|]. cbn [ts_typename].
    destruct (Ascii.eqb c "[").
    { rewrite !occurs_app, IH. by destruct prefix. }
    destruct (Ascii.eqb c "L").
    { unfold ts_refname. rewrite occurs_app, occurs_encoded. by destruct prefix. }
    destruct (Ascii.eqb c "J"); [reflexivity|].
    by destruct (Ascii.eqb c "V"). }
  split; [exact H|].
  intros st s st' Hrun. by apply jvmtype2tstype_value in Hrun as ->.
Qed.

Lemma output_name_has_no_separator_witness :
  occurs "/" "JVMTypes.JVMArray<JVMTypes.java_lang_String>" = false.
Proof.
  apply (proj2 (output_name_has_no_separator (Samples.env true None [])
                  "[Ljava/lang/String;" true)
           (set_headerSet (<["Ljava/lang/String;" := true]>) initialState)
           "JVMTypes.JVMArray<JVMTypes.java_lang_String>"
           (set_headerSet (<["Ljava/lang/String;" := true]>) initialState)).
  vm_compute. reflexivity.
Defined.

(** X3: reference classes with different decodable names never share an
    output name, so their declarations in the header do not collide. *)
Theorem decodable_names_do_not_collide (name1 name2 : string) :
  decodable_name name1 = true ->
  decodable_name name2 = true ->
  name1 <> name2 ->
  ts_typename false ("L" +:+ name1 +:+ ";") <> ts_typename false ("L" +:+ name2 +:+ ";").
Proof.
  intros H1 H2 Hne Heq. apply Hne.
  pose proof (decode_encoded_name name1 H1) as D1.
  pose proof (decode_encoded_name name2 H2) as D2.
  rewrite Heq, D2 in D1.
  assert (Hd : "L" +:+ name2 +:+ ";" = "L" +:+ name1 +:+ ";") by congruence.
  rewrite <- (descriptor2typestr_reference name1), <- (descriptor2typestr_reference name2).
  by rewrite Hd.
Qed.

Lemma decodable_names_do_not_collide_witness :
  ts_typename false "La/b;" <> ts_typename false "La_b;".
Proof.
  apply (decodable_names_do_not_collide "a/b" "a_b"); [reflexivity | reflexivity | discriminate].
Defined.


(** ** [generateClassDefinition] on settled and primitive descriptors *)

Lemma generateClassDefinition_skip E desc st :
  is_Some (headerSet st !! desc) ->
  TSTemplate.generateClassDefinition E desc st = (Ok tt, st).
Proof.
  intros H. destruct desc; cbn [TSTemplate.generateClassDefinition];
    by rewrite (bool_decide_true _ H).
Qed.

Lemma generateClassDefinition_primitive E desc st :
  is_primitive_type desc = true ->
  TSTemplate.generateClassDefinition E desc st = (Ok tt, st).
Proof.
  intros H. destruct desc; cbn [TSTemplate.generateClassDefinition];
    by rewrite H, orb_true_r.
Qed.

Lemma is_primitive_type_array component : is_primitive_type (String "[" component) = false.
Proof. by destruct component. Qed.

Lemma generateClassDefinition_array E component st :
  ~ is_Some (headerSet st !! String "[" component) ->
  TSTemplate.generateClassDefinition E (String "[" component) st =
  TSTemplate.generateClassDefinition E component st.
Proof.
  intros H. cbn [TSTemplate.generateClassDefinition].
  by rewrite (bool_decide_false _ H), is_primitive_type_array.
Qed.

Lemma head_is_array desc :
  JS.head_is "[" desc = true -> exists component, desc = String "[" component.
Proof.
  destruct desc as [|c r]; [discriminate|]. simpl.
  intros ->%Ascii.eqb_eq. by eexists.
Qed.

Lemma primitive_cases (p : string) :
  is_primitive_type p = true ->
  exists c, p = String c "" /\ Ascii.eqb c "[" = false /\ Ascii.eqb c "L" = false.
Proof.
  destruct p as [|c [|]]; try discriminate. intros H. exists c. split; [reflexivity|].
  cbn in H.
  repeat (apply orb_true_iff in H as [H|H]); try discriminate;
    apply Ascii.eqb_eq in H; subst c; by split.
Qed.

(** X4: a primitive descriptor and every array of primitives is settled
    without any effect: [generateClassDefinition] returns at once and
    [jvmtype2tstype] returns the name, and neither changes the state --
    no class is looked up, marked or queued. *)
Theorem primitive_arrays_have_no_effect (E : Env) (p : string) (n : nat) (prefix : bool)
    (st : State) :
  is_primitive_type p = true ->
  TSTemplate.generateClassDefinition E (array_of n p) st = (Ok tt, st)
  /\ TSTemplate.jvmtype2tstype E (array_of n p) prefix st
     = (Ok (ts_typename prefix (array_of n p)), st).
Proof.
  intros Hp. split.
  - induction n as [|n IH]; [by apply generateClassDefinition_primitive|].
    destruct (decide (is_Some (headerSet st !! array_of (S n) p))) as [Hs|Hs].
    + by apply generateClassDefinition_skip.
    + change (array_of (S n) p) with (String "[" (array_of n p)) in *.
      by rewrite generateClassDefinition_array.
  - induction n as [|n IH].
    + destruct (primitive_cases p Hp) as (c & -> & Ha & Hl).
      cbn [array_of TSTemplate.jvmtype2tstype ts_typename]. rewrite Ha, Hl.
      destruct (Ascii.eqb c "J"); [reflexivity|]. by destruct (Ascii.eqb c "V").
    + change (array_of (S n) p) with (String "[" (array_of n p)).
      cbn [TSTemplate.jvmtype2tstype ts_typename]. change (Ascii.eqb "[" "[") with true.
      cbv iota. unfold bind. by rewrite IH.
Qed.

Lemma primitive_arrays_have_no_effect_witness :
  TSTemplate.jvmtype2tstype (Samples.env true None []) "[[J" true initialState
  = (Ok "JVMTypes.JVMArray<JVMTypes.JVMArray<Long>>", initialState).
Proof.
  exact (proj2 (primitive_arrays_have_no_effect (Samples.env true None []) "J" 2 true
                  initialState eq_refl)).
Defined.

(** X5: [generateClassDefinition] never takes up a descriptor twice.
    After one call, whatever its outcome, the same call returns at once
    and changes nothing; in particular a class whose resolution failed
    the first time is not tried again. *)
Theorem generateClassDefinition_never_retries (E : Env) (desc : string) (st : State) :
  TSTemplate.generateClassDefinition E desc
    (snd (TSTemplate.generateClassDefinition E desc st))
  = (Ok tt, snd (TSTemplate.generateClassDefinition E desc st)).
Proof.
  revert st; induction desc as [|c component IH]; intros st.
  - apply generateClassDefinition_skip. by apply generateClassDefinition_marks.
  - destruct (is_primitive_type (String c component)) eqn:Hp.
    { by rewrite !generateClassDefinition_primitive. }
    destruct (JS.head_is "[" (String c component)) eqn:Harr.
    + apply head_is_array in Harr as (component' & [= -> ->]).
      destruct (decide (is_Some (headerSet st !! String "[" component'))) as [Hs|Hs].
      { rewrite (generateClassDefinition_skip _ _ st Hs). cbn [snd].
        by apply generateClassDefinition_skip. }
      rewrite (generateClassDefinition_array _ _ st Hs).
      set (st1 := snd (TSTemplate.generateClassDefinition E component' st)).
      destruct (decide (is_Some (headerSet st1 !! String "[" component'))) as [Hs1|Hs1].
      { by apply generateClassDefinition_skip. }
      rewrite (generateClassDefinition_array _ _ st1 Hs1). apply IH.
    + apply generateClassDefinition_skip. by apply generateClassDefinition_marks.
Qed.


(** X6: [generateClassDefinition] leaves both output streams alone and
    changes the worklist only by appending one record, which it does only
    when it returns; a call that throws leaves the worklist as it was. *)
Theorem generateClassDefinition_queues_at_most_one (E : Env) (desc : string) (st : State) :
  let r := TSTemplate.generateClassDefinition E desc st in
  headerStream (snd r) = headerStream st
  /\ stub (snd r) = stub st
  /\ match fst r with
     | Ok _ => generateQueue (snd r) = generateQueue st
               \/ exists cls, generateQueue (snd r) = generateQueue st ++ [cls]
     | _ => generateQueue (snd r) = generateQueue st
     end.
Proof.
  cbn zeta. split; [apply generateClassDefinition_same_headerStream|].
  split; [apply generateClassDefinition_stub_untouched|].
  revert st; induction desc as [|c component IH]; intros st.
  all: cbn [TSTemplate.generateClassDefinition].
  all: destruct (bool_decide _ || is_primitive_type _); [by left|].
  2: destruct (Ascii.eqb c "["); [apply IH|].
  all: unfold bind, modify, log.
  all: match goal with
       | |- context [findClass ?E' ?n ?d ?s] =>
           pose proof (findClass_resolver_frame E' n d s) as (_ & Hq & _);
           destruct (findClass E' n d s) as [[cls| |] s1]
       end; cbn [fst snd] in *; simpl in *; rewrite ?Hq; eauto.
Qed.


(** ** One activation of [findClass] *)

Lemma resolveClass_unfold E (rec : string -> M ClassData) descriptor st :
  resolveClass E rec descriptor st =
  match resolveBody E rec descriptor st with
  | (Ok rv, s1) =>
      (Ok rv, set_trace (fun t => t ++ [EvCache descriptor])
                (set_cache (<[descriptor := rv]>) s1))
  | (Throw e, s1) => (Throw (unreadable descriptor e), s1)
  | (Diverge, s1) => (Diverge, s1)
  end.
Proof.
  set (body := resolveBody E rec descriptor).
  change (resolveClass E rec descriptor st)
    with (try_catch (rv <- body ;;
                     modify (set_cache (<[descriptor := rv]>)) ;;;
                     log (EvCache descriptor) ;;; ret rv)
            (fun e => throw (unreadable descriptor e)) st).
  unfold try_catch, bind, modify, log, ret, throw.
  by destruct (body st) as [[rv|e|] s1].
Qed.

Lemma loadClass_inv E t st r st' :
  loadClass E t st = (Ok r, st') ->
  classpath E t = Some r /\ st' = set_trace (fun l => l ++ [EvLoad t]) st.
Proof.
  unfold loadClass, bind, log, modify, ret, throw.
  destruct (classpath E t); [|discriminate]. by intros [= -> ->].
Qed.

Lemma loadClass_throws E t st e st' :
  loadClass E t st = (Throw e, st') -> e = "Unable to find class " +:+ t.
Proof.
  unfold loadClass, bind, log, modify, ret, throw.
  destruct (classpath E t); [discriminate|]. by intros [= <- _].
Qed.

Lemma loadClass_cache E t st : cache (snd (loadClass E t st)) = cache st.
Proof.
  unfold loadClass, bind, log, modify, ret, throw. by destruct (classpath E t).
Qed.

(** ** The cache only grows *)

#[local] Instance cache_grows_preorder : PreOrder cache_grows.
Proof.
  split.
  - intros st d cd H. exact H.
  - intros s1 s2 s3 H1 H2 d cd H. by apply H2, H1.
Qed.

Lemma cache_grows_frame st st' : cache st' = cache st -> cache_grows st st'.
Proof. intros H d cd. by rewrite H. Qed.

Lemma resolveBody_cache_grows E (rec : string -> M ClassData) descriptor :
  (forall d, always cache_grows (rec d)) ->
  always cache_grows (resolveBody E rec descriptor).
Proof.
  intros Hrec. unfold resolveBody.
  repeat lazymatch goal with
         | |- always _ (loadClass _ _) =>
             intros s; apply cache_grows_frame, loadClass_cache
         | |- always _ (rec _) => apply Hrec
         | |- _ => always_step
         end.
Qed.

Lemma findClass_cache_grows E depth descriptor :
  always cache_grows (findClass E depth descriptor).
Proof.
  revert descriptor; induction depth as [|depth IH]; intros descriptor st;
    cbn [findClass]; [reflexivity|].
  destruct (cache st !! descriptor) as [cd0|] eqn:Hc; [reflexivity|].
  rewrite resolveClass_unfold.
  pose proof (resolveBody_cache_grows E (findClass E depth) descriptor IH st) as Hb.
  destruct (resolveBody E (findClass E depth) descriptor st) as [[rv|e|] s1];
    cbn [snd] in *; try exact Hb.
  intros d cd Hd. simpl. rewrite lookup_insert_ne; [by apply Hb|].
  intros ->. congruence.
Qed.

Lemma generateClassDefinition_cache_grows E desc :
  always cache_grows (TSTemplate.generateClassDefinition E desc).
Proof.
  apply generateClassDefinition_always; try typeclasses eauto;
    try (intros; by apply cache_grows_frame).
  intros. apply findClass_cache_grows.
Qed.

(** X7: nothing that is cached is ever lost or replaced.  An entry that
    the cache holds when [findClass] is called is still there, with the
    same record, when the call is over, whether it returned or threw; and
    so it is after a whole run. *)
Theorem cache_entries_are_kept (E : Env) (depth fuel : nat) (descriptor : string)
    (st : State) (d : string) (cd : ClassData) :
  cache st !! d = Some cd ->
  cache (snd (findClass E depth descriptor st)) !! d = Some cd
  /\ cache (snd (main E fuel st)) !! d = Some cd.
Proof.
  intros Hd. split; [by apply findClass_cache_grows|].
  revert d cd Hd. change (cache_grows st (snd (main E fuel st))).
  apply main_always; try typeclasses eauto;
    try (intros; by apply cache_grows_frame).
  - intros. apply findClass_cache_grows.
  - intros. apply generateClassDefinition_cache_grows.
Qed.

Lemma cache_entries_are_kept_witness :
  let E := Samples.env true None ["LNat;"] in
  let st := snd (findClass E 16 "Ljava/lang/Object;" initialState) in
  cache (snd (findClass E 16 "Ljava/lang/Throwable;" st)) !! "Ljava/lang/Object;"
  = Some (ReferenceCD (setResolved Samples.Object_ None []))
  /\ cache (snd (main E 16 st)) !! "Ljava/lang/Object;"
     = Some (ReferenceCD (setResolved Samples.Object_ None [])).
Proof.
  apply (cache_entries_are_kept (Samples.env true None ["LNat;"]) 16 16 "Ljava/lang/Throwable;"
           (snd (findClass (Samples.env true None ["LNat;"]) 16 "Ljava/lang/Object;" initialState))
           "Ljava/lang/Object;").
  vm_compute. reflexivity.
Defined.

(** ** The exceptions of [findClass] *)

Lemma throws_only_bind (P : string -> Prop) {A B} (m : M A) (k : A -> M B) :
  throws_only P m -> (forall a, throws_only P (k a)) -> throws_only P (bind m k).
Proof.
  intros Hm Hk st e st'. unfold bind.
  destruct (m st) as [[a|e0|] s1] eqn:Hrun; [apply Hk | | discriminate].
  intros [= <- <-]. by eapply Hm.
Qed.

Lemma throws_only_ret (P : string -> Prop) {A} (a : A) : throws_only P (ret a).
Proof. intros st e st'. discriminate. Qed.

Lemma throws_only_modify (P : string -> Prop) f : throws_only P (modify f).
Proof. intros st e st'. discriminate. Qed.

Lemma throws_only_read (P : string -> Prop) {A} (f : State -> A) :
  throws_only P (fun st => (Ok (f st), st)).
Proof. intros st e st'. discriminate. Qed.

Lemma throws_only_throw (P : string -> Prop) {A} (e : string) :
  P e -> throws_only P (@throw A e).
Proof. intros He st e' st' [= <- _]. exact He. Qed.

Lemma throws_only_try_catch (P : string -> Prop) {A} (m : M A) (h : string -> M A) :
  (forall e, throws_only P (h e)) -> throws_only P (try_catch m h).
Proof.
  intros Hh st e st'. unfold try_catch.
  destruct (m st) as [[a|e0|] s1]; [discriminate | apply Hh | discriminate].
Qed.

Lemma throws_only_forEach (P : string -> Prop) {A} (f : A -> M unit) (l : list A) :
  (forall x, throws_only P (f x)) -> throws_only P (forEach f l).
Proof.
  intros Hf. induction l as [|x l IH]; simpl.
  - apply throws_only_ret.
  - apply throws_only_bind; auto.
Qed.

Lemma throws_only_mapM (P : string -> Prop) {A B} (f : A -> M B) (l : list A) :
  (forall x, throws_only P (f x)) -> throws_only P (mapM f l).
Proof.
  intros Hf. induction l as [|x l IH]; simpl.
  - apply throws_only_ret.
  - apply throws_only_bind; [auto|]. intros y.
    apply throws_only_bind; [auto|]. intros ys. apply throws_only_ret.
Qed.

Lemma throws_only_mapMi (P : string -> Prop) {A B} (f : A -> nat -> M B) (i : nat)
    (l : list A) :
  (forall x j, throws_only P (f x j)) -> throws_only P (mapMi f i l).
Proof.
  intros Hf. revert i; induction l as [|x l IH]; intros i; simpl.
  - apply throws_only_ret.
  - apply throws_only_bind; [auto|]. intros y.
    apply throws_only_bind; [auto|]. intros ys. apply throws_only_ret.
Qed.

(** Splits a goal [throws_only P m] along the structure of [m]. *)
Ltac throws_step :=
  lazymatch goal with
  | |- throws_only _ (bind _ _) => apply throws_only_bind; [ | intros]
  | |- throws_only _ (ret _) => apply throws_only_ret
  | |- throws_only _ (try_catch _ _) => apply throws_only_try_catch; intros
  | |- throws_only _ (forEach _ _) => apply throws_only_forEach; intros
  | |- throws_only _ (mapM _ _) => apply throws_only_mapM; intros
  | |- throws_only _ (mapMi _ _ _) => apply throws_only_mapMi; intros
  | |- throws_only _ (fun st => (Ok _, st)) => apply throws_only_read
  | |- throws_only _ (modify _) => apply throws_only_modify
  | |- throws_only _ (log _) => apply throws_only_modify
  | |- throws_only _ (write _) => apply throws_only_modify
  | |- throws_only _ (headerStream_write _) => apply throws_only_modify
  | |- throws_only _ (if ?b then _ else _) => destruct b
  | |- throws_only _ (match ?x with _ => _ end) => destruct x
  | |- throws_only _ ((fun _ => _) _) => cbv beta
  end.

Lemma resolveBody_throws E (rec : string -> M ClassData) descriptor :
  (forall d, throws_only resolution_error (rec d)) ->
  throws_only resolution_error (resolveBody E rec descriptor).
Proof.
  intros Hrec. unfold resolveBody.
  repeat lazymatch goal with
         | |- throws_only _ (loadClass _ _) =>
             intros s e s' ->%loadClass_throws; apply re_missing
         | |- throws_only _ (rec _) => apply Hrec
         | |- _ => throws_step
         end.
Qed.

Lemma findClass_throws E depth descriptor :
  throws_only resolution_error (findClass E depth descriptor).
Proof.
  revert descriptor; induction depth as [|depth IH]; intros descriptor st e st';
    cbn [findClass].
  - intros [= <- _]. apply re_stack.
  - destruct (cache st !! descriptor); [discriminate|].
    rewrite resolveClass_unfold.
    destruct (resolveBody E (findClass E depth) descriptor st) as [[rv|e0|] s1] eqn:Hb;
      try discriminate.
    intros [= <- _]. apply re_wrap. by eapply resolveBody_throws.
Qed.

(** ** What a resolution leaves in the cache *)

Lemma findClass_Ok_cached E depth descriptor st rv st' :
  findClass E depth descriptor st = (Ok rv, st') -> cache st' !! descriptor = Some rv.
Proof.
  destruct depth as [|depth]; cbn [findClass]; [discriminate|].
  destruct (cache st !! descriptor) as [cd|] eqn:Hc; [by intros [= <- <-]|].
  rewrite resolveClass_unfold.
  destruct (resolveBody E (findClass E depth) descriptor st) as [[rv0|e0|] s1];
    try discriminate.
  intros [= <- <-]. simpl. by rewrite lookup_insert_eq.
Qed.

Lemma mapM_findClass_cached E depth (l : list string) st rs st' :
  mapM (findClass E depth) l st = (Ok rs, st') ->
  forall name, name ∈ l -> is_Some (cache st' !! name).
Proof.
  revert st rs; induction l as [|x l IH]; intros st rs Hrun name Hin.
  { by apply elem_of_nil in Hin. }
  cbn [mapM] in Hrun.
  apply bind_Ok_inv in Hrun as (y & s1 & Hy & Hrun).
  apply bind_Ok_inv in Hrun as (ys & s2 & Hys & Hrun).
  apply ret_Ok_inv in Hrun as [_ <-].
  apply elem_of_cons in Hin as [->|Hin]; [|by eapply IH].
  apply findClass_Ok_cached in Hy.
  exists y. eapply (always_run cache_grows); [|exact Hys|exact Hy].
  apply always_mapM; [typeclasses eauto|]. intros. apply findClass_cache_grows.
Qed.

(** X9: a resolution is complete when it returns.  When [findClass]
    resolves a reference descriptor that was not cached and returns, the
    class path holds the class, the record returned is that class marked
    as resolved, and the cache then holds the descriptor itself, its
    superclass and every interface it names. *)
Theorem findClass_resolves_supertypes (E : Env) (depth : nat) (descriptor : string)
    (st : State) (rv : ClassData) (st' : State) :
  JS.head_is "L" descriptor = true ->
  cache st !! descriptor = None ->
  findClass E depth descriptor st = (Ok rv, st') ->
  exists r,
    classpath E (descriptor2typestr descriptor) = Some r
    /\ rv = ReferenceCD (setResolved r None [])
    /\ cache st' !! descriptor = Some rv
    /\ (forall name, getSuperClassReference r = Some name -> is_Some (cache st' !! name))
    /\ (forall name, name ∈ getInterfaceClassReferences r -> is_Some (cache st' !! name)).
Proof.
  intros HL Hc Hrun.
  pose proof (findClass_Ok_cached _ _ _ _ _ _ Hrun) as Hcached.
  destruct depth as [|depth]; cbn [findClass] in Hrun; [discriminate|].
  rewrite Hc, resolveClass_unfold in Hrun.
  destruct (resolveBody E (findClass E depth) descriptor st) as [[rv0|e0|] s3] eqn:Hb;
    try discriminate.
  injection Hrun as <- <-.
  unfold resolveBody in Hb. rewrite HL in Hb.
  apply bind_Ok_inv in Hb as (r & s1 & Hload & Hb).
  apply loadClass_inv in Hload as [Hcp _].
  apply bind_Ok_inv in Hb as (superClass & s2 & Hsuper & Hb).
  apply bind_Ok_inv in Hb as (interfaceClasses & s3' & Hifs & Hb).
  apply ret_Ok_inv in Hb as [<- ->].
  exists r. split; [exact Hcp|]. split; [reflexivity|]. split; [exact Hcached|].
  assert (Hkeep : forall name, is_Some (cache s3 !! name) ->
                  is_Some (cache (set_trace (fun t => t ++ [EvCache descriptor])
                                    (set_cache (<[descriptor :=
                                       ReferenceCD (setResolved r superClass interfaceClasses)]>)
                                       s3)) !! name)).
  { intros name Hn. simpl. rewrite lookup_insert_is_Some. destruct (decide (descriptor = name)); auto. }
  split.
  - intros name Hname. apply Hkeep. rewrite Hname in Hsuper.
    apply bind_Ok_inv in Hsuper as (c & s2' & Hfind & Hret).
    apply ret_Ok_inv in Hret as [_ ->].
    apply findClass_Ok_cached in Hfind. exists c.
    eapply (always_run cache_grows); [|exact Hifs|exact Hfind].
    apply always_mapM; [typeclasses eauto|]. intros. apply findClass_cache_grows.
  - intros name Hin. apply Hkeep. by eapply mapM_findClass_cached.
Qed.

Lemma findClass_resolves_supertypes_witness :
  exists r,
    classpath (Samples.env true None []) (descriptor2typestr "Lp/Sub;") = Some r
    /\ ReferenceCD (setResolved Samples.Sub None []) = ReferenceCD (setResolved r None [])
    /\ cache (snd (findClass (Samples.env true None []) 16 "Lp/Sub;" initialState)) !! "Lp/Sub;"
       = Some (ReferenceCD (setResolved Samples.Sub None []))
    /\ (forall name, getSuperClassReference r = Some name ->
          is_Some (cache (snd (findClass (Samples.env true None []) 16 "Lp/Sub;" initialState))
                     !! name))
    /\ (forall name, name ∈ getInterfaceClassReferences r ->
          is_Some (cache (snd (findClass (Samples.env true None []) 16 "Lp/Sub;" initialState))
                     !! name)).
Proof.
  apply (findClass_resolves_supertypes (Samples.env true None []) 16 "Lp/Sub;" initialState).
  - reflexivity.
  - reflexivity.
  - vm_compute. reflexivity.
Defined.


(** ** The class path *)

(** X10: [loadClass] returns the bytes of the first class path item, in
    class path order, that does not deny having the class and yields
    bytes for it; it throws "Unable to find class" exactly when no item
    does.  The answer of [tryLoadClassSync] of an item whose [hasClass]
    says [FALSE] plays no part. *)
Theorem loadClass_first_match (classpath : list Classpath.IClasspathItem) (type : string) :
  match Classpath.loadClass classpath type with
  | Ok buff =>
      exists before item after,
        classpath = before ++ item :: after
        /\ Forall (fun it => Classpath.hasClass it type = Classpath.FALSE
                             \/ Classpath.tryLoadClassSync it type = None) before
        /\ Classpath.hasClass item type <> Classpath.FALSE
        /\ Classpath.tryLoadClassSync item type = Some buff
  | Throw e =>
      e = "Unable to find class " +:+ type
      /\ Forall (fun it => Classpath.hasClass it type = Classpath.FALSE
                           \/ Classpath.tryLoadClassSync it type = None) classpath
  | Diverge => False
  end.
Proof.
  induction classpath as [|item rest IH]; cbn [Classpath.loadClass].
  { split; [reflexivity | constructor]. }
  assert (Hskip : Classpath.hasClass item type = Classpath.FALSE
                  \/ Classpath.tryLoadClassSync item type = None ->
                  match Classpath.loadClass rest type with
                  | Ok buff =>
                      exists before item0 after,
                        item :: rest = before ++ item0 :: after
                        /\ Forall (fun it => Classpath.hasClass it type = Classpath.FALSE
                                   \/ Classpath.tryLoadClassSync it type = None) before
                        /\ Classpath.hasClass item0 type <> Classpath.FALSE
                        /\ Classpath.tryLoadClassSync item0 type = Some buff
                  | Throw e =>
                      e = "Unable to find class " +:+ type
                      /\ Forall (fun it => Classpath.hasClass it type = Classpath.FALSE
                                 \/ Classpath.tryLoadClassSync it type = None) (item :: rest)
                  | Diverge => False
                  end).
  { intros Hno. destruct (Classpath.loadClass rest type) as [buff|e|]; [| |done].
    - destruct IH as (before & item0 & after & -> & Hb & Hh & Hl).
      exists (item :: before), item0, after. by repeat split; [constructor|..].
    - destruct IH as [-> Hall]. split; [reflexivity | by constructor]. }
  destruct (Classpath.hasClass item type) eqn:Hh.
  - destruct (Classpath.tryLoadClassSync item type) as [buff|] eqn:Hl; [|by apply Hskip; right].
    exists [], item, rest. repeat split; [constructor | by rewrite Hh | exact Hl].
  - apply Hskip. by left.
  - destruct (Classpath.tryLoadClassSync item type) as [buff|] eqn:Hl; [|by apply Hskip; right].
    exists [], item, rest. repeat split; [constructor | by rewrite Hh | exact Hl].
Qed.

Lemma slice_drop_suffix (name ext : string) (k : Z) :
  k = Z.of_nat (String.length ext) ->
  JS.slice 0 (JS.len (name +:+ ext) - k) (name +:+ ext) = name.
Proof.
  intros ->. unfold JS.slice, JS.clamp, JS.len. rewrite append_length.
  set (n := String.length name). set (m := String.length ext).
  change (0 <? 0)%Z with false. cbv iota.
  destruct (Z.ltb_spec (Z.of_nat (n + m) - Z.of_nat m) 0); [lia|].
  replace (Z.to_nat (0 `min` Z.of_nat (n + m))) with 0%nat by lia.
  replace (Z.to_nat ((Z.of_nat (n + m) - Z.of_nat m) `min` Z.of_nat (n + m)
                     - 0 `min` Z.of_nat (n + m))) with n by lia.
  apply substring_app_exact.
Qed.

(** X11: [file2desc] turns the path of a class file into the descriptor
    of the class, and [descriptor2typestr] gives the path without its
    extension back: this is the type name that [findClass] hands to
    [loadClass] for a descriptor that [getClasses] found. *)
Theorem file2desc_of_class_file (name : string) :
  Classpath.file2desc (name +:+ ".class") = "L" +:+ name +:+ ";"
  /\ descriptor2typestr (Classpath.file2desc (name +:+ ".class")) = name.
Proof.
  assert (H : Classpath.file2desc (name +:+ ".class") = "L" +:+ name +:+ ";").
  { unfold Classpath.file2desc. by rewrite (slice_drop_suffix name ".class" 6). }
  split; [exact H|]. rewrite H. apply descriptor2typestr_reference.
Qed.

Lemma file2desc_reference fname : reference_descriptor (Classpath.file2desc fname).
Proof. by eexists. Qed.

Lemma scanListing_reference path dir dirListing rv dirStack :
  Forall reference_descriptor rv ->
  Forall reference_descriptor (fst (Classpath.scanListing path dir dirListing rv dirStack)).
Proof.
  revert rv dirStack; induction dirListing as [|item rest IH]; intros rv dirStack Hrv;
    cbn [Classpath.scanListing]; [exact Hrv|].
  destruct (String.eqb _ ".class"); apply IH; [|exact Hrv].
  apply Forall_app. split; [exact Hrv|]. constructor; [apply file2desc_reference | constructor].
Qed.

Lemma scanItems_reference path dir cpItems rv dirStack :
  Forall reference_descriptor rv ->
  Forall reference_descriptor (fst (Classpath.scanItems path dir cpItems rv dirStack)).
Proof.
  revert rv dirStack; induction cpItems as [|cp rest IH]; intros rv dirStack Hrv;
    cbn [Classpath.scanItems]; [exact Hrv|].
  destruct (Classpath.tryReaddirSync cp dir) as [dirListing|]; [|by apply IH].
  pose proof (scanListing_reference path dir dirListing rv dirStack Hrv) as H.
  destruct (Classpath.scanListing path dir dirListing rv dirStack) as [rv' dirStack'].
  by apply IH.
Qed.

Lemma walk_reference path cpItems fuel rv dirStack out :
  Forall reference_descriptor rv ->
  Classpath.walk path cpItems fuel rv dirStack = Ok out ->
  Forall reference_descriptor out.
Proof.
  revert rv dirStack; induction fuel as [|fuel IH]; intros rv dirStack Hrv;
    cbn [Classpath.walk]; destruct (last dirStack) as [dir|]; try discriminate;
    try (intros [= <-]; exact Hrv).
  pose proof (scanItems_reference path dir cpItems rv (removelast dirStack) Hrv) as H.
  destruct (Classpath.scanItems path dir cpItems rv (removelast dirStack)) as [rv' dirStack'].
  by apply IH.
Qed.

(** X12: whatever [getClasses] returns is a list of reference
    descriptors [L<name>;]: [findClass] takes each of them to the
    class-file branch and asks [loadClass] for [<name>]. *)
Theorem getClasses_yields_reference_descriptors (path : Classpath.Path)
    (classpath : list Classpath.IClasspathItem) (fuel : nat) (item : string)
    (rv : list string) :
  Classpath.getClasses path classpath fuel item = Ok rv ->
  Forall (fun desc => exists name,
            desc = "L" +:+ name +:+ ";"
            /\ JS.head_is "L" desc = true
            /\ descriptor2typestr desc = name) rv.
Proof.
  intros Hrun.
  assert (H : Forall reference_descriptor rv).
  { unfold Classpath.getClasses in Hrun.
    destruct (Classpath.findItems classpath item [] false) as [cpItems isDir].
    destruct (length cpItems =? 0)%nat; [discriminate|].
    destruct isDir.
    - eapply walk_reference; [constructor | exact Hrun].
    - injection Hrun as <-. constructor; [|constructor].
      destruct (String.eqb _ ".class"); [apply file2desc_reference | by eexists]. }
  eapply Forall_impl; [exact H|].
  intros desc [name ->]. exists name. split; [reflexivity|]. split; [reflexivity|].
  apply descriptor2typestr_reference.
Qed.

Lemma getClasses_yields_reference_descriptors_witness :
  Forall (fun desc => exists name,
            desc = "L" +:+ name +:+ ";"
            /\ JS.head_is "L" desc = true
            /\ descriptor2typestr desc = name) ["Lp/A;"; "Lp/B;"].
Proof.
  apply (getClasses_yields_reference_descriptors samplePath [sampleDir; sampleJar] 4 "p").
  vm_compute. reflexivity.
Defined.

Lemma findItems_spec (classpath : list Classpath.IClasspathItem) item cpItems isDir :
  Classpath.findItems classpath item cpItems isDir =
  (cpItems ++ filter (fun cp => is_Some (Classpath.statItem item cp)) classpath,
   default isDir (last (omap (Classpath.statItem item) classpath))).
Proof.
  revert cpItems isDir; induction classpath as [|cp rest IH]; intros cpItems isDir;
    cbn [Classpath.findItems].
  { by rewrite filter_nil, app_nil_r. }
  destruct (Classpath.statItem item cp) as [stat|] eqn:Hs.
  - assert (Hp : is_Some (Classpath.statItem item cp)) by (rewrite Hs; by eexists).
    rewrite IH. rewrite filter_cons_True by exact Hp.
    rewrite <- app_assoc. f_equal.
    change (omap (Classpath.statItem item) (cp :: rest))
      with (match Classpath.statItem item cp with
            | Some y => y :: omap (Classpath.statItem item) rest
            | None => omap (Classpath.statItem item) rest
            end).
    rewrite Hs.
    destruct (omap (Classpath.statItem item) rest) as [|x l]; [reflexivity|].
    change (last (stat :: x :: l)) with (last (x :: l)).
    destruct (last (x :: l)) eqn:Hl; [reflexivity|].
    by apply last_None in Hl.
  - assert (Hp : ~ is_Some (Classpath.statItem item cp)) by (rewrite Hs; by intros [? ?]).
    rewrite IH. rewrite filter_cons_False by exact Hp.
    change (omap (Classpath.statItem item) (cp :: rest))
      with (match Classpath.statItem item cp with
            | Some y => y :: omap (Classpath.statItem item) rest
            | None => omap (Classpath.statItem item) rest
            end).
    rewrite Hs. reflexivity.
Qed.

Lemma statItem_None item cp :
  Classpath.statItem item cp = None <->
  Classpath.tryStatSync cp item = None /\ Classpath.tryStatSync cp (item +:+ ".class") = None.
Proof.
  unfold Classpath.statItem. destruct (Classpath.tryStatSync cp item); [|tauto].
  split; [discriminate | by intros [? _]].
Qed.

Lemma hits_nil (classpath : list Classpath.IClasspathItem) item :
  filter (fun cp => is_Some (Classpath.statItem item cp)) classpath = [] <->
  Forall (fun cp => Classpath.statItem item cp = None) classpath.
Proof.
  induction classpath as [|cp rest IH]; [by rewrite filter_nil|].
  destruct (Classpath.statItem item cp) as [stat|] eqn:Hs.
  - assert (Hp : is_Some (Classpath.statItem item cp)) by (rewrite Hs; by eexists).
    rewrite filter_cons_True by exact Hp. split; [discriminate|].
    intros H. apply Forall_cons in H as [H _]. congruence.
  - assert (Hp : ~ is_Some (Classpath.statItem item cp)) by (rewrite Hs; by intros [? ?]).
    rewrite filter_cons_False by exact Hp.
    rewrite IH. split; [by constructor | by intros [_ ?]%Forall_cons].
Qed.

Lemma walk_never_throws path cpItems fuel rv dirStack e :
  Classpath.walk path cpItems fuel rv dirStack <> Throw e.
Proof.
  revert rv dirStack; induction fuel as [|fuel IH]; intros rv dirStack;
    cbn [Classpath.walk]; destruct (last dirStack) as [dir|]; try discriminate.
  destruct (Classpath.scanItems path dir cpItems rv (removelast dirStack)). apply IH.
Qed.

Lemma length_eqb_nil {A} (l : list A) : (length l =? 0)%nat = true <-> l = [].
Proof. destruct l; simpl; split; (done || discriminate). Qed.

(** X13: [getClasses] throws exactly when no class path item has the
    resource, neither under its name nor with [.class] appended, and then
    the message is "Unable to find resource"; it throws nothing else. *)
Theorem getClasses_missing_resource (path : Classpath.Path)
    (classpath : list Classpath.IClasspathItem) (fuel : nat) (item e : string) :
  Classpath.getClasses path classpath fuel item = Throw e <->
  e = "Unable to find resource " +:+ item +:+ "."
  /\ Forall (fun cp => Classpath.tryStatSync cp item = None
                       /\ Classpath.tryStatSync cp (item +:+ ".class") = None) classpath.
Proof.
  unfold Classpath.getClasses. rewrite findItems_spec, app_nil_l.
  set (hits := filter (fun cp => is_Some (Classpath.statItem item cp)) classpath).
  assert (Hhits : hits = [] <->
            Forall (fun cp => Classpath.tryStatSync cp item = None
                              /\ Classpath.tryStatSync cp (item +:+ ".class") = None) classpath).
  { subst hits. rewrite hits_nil. apply Forall_proper; [|reflexivity].
    intros cp. apply statItem_None. }
  destruct (length hits =? 0)%nat eqn:Hlen.
  - apply length_eqb_nil in Hlen. split.
    + intros [= <-]. split; [reflexivity | by apply Hhits].
    + by intros [-> _].
  - assert (Hne : hits <> []).
    { intros Hnil%length_eqb_nil. congruence. }
    split; [|intros [_ Hall]; by apply Hhits in Hall].
    destruct (default false _); [|discriminate].
    intros H. by apply walk_never_throws in H.
Qed.

Lemma isDir_of_hits (classpath : list Classpath.IClasspathItem) item (b : bool) :
  Forall (fun cp => Classpath.statItem item cp <> Some (negb b)) classpath ->
  Exists (fun cp => is_Some (Classpath.statItem item cp)) classpath ->
  default false (last (omap (Classpath.statItem item) classpath)) = b
  /\ filter (fun cp => is_Some (Classpath.statItem item cp)) classpath <> [].
Proof.
  intros Hall Hex. split.
  - destruct (last (omap (Classpath.statItem item) classpath)) as [stat|] eqn:Hl.
    + apply last_Some_elem_of, list_elem_of_omap in Hl as (cp & Hin & Hs).
      rewrite Forall_forall in Hall. specialize (Hall cp Hin). rewrite Hs in Hall.
      simpl. destruct stat, b; simpl in *; congruence.
    + apply last_None in Hl. apply Exists_exists in Hex as (cp & Hin & [stat Hs]).
      assert (Hm : stat ∈ omap (Classpath.statItem item) classpath).
      { apply list_elem_of_omap. by exists cp. }
      rewrite Hl in Hm. by apply elem_of_nil in Hm.
  - rewrite hits_nil. intros Hnone. apply Exists_exists in Hex as (cp & Hin & [stat Hs]).
    rewrite Forall_forall in Hnone. specialize (Hnone cp Hin). congruence.
Qed.

(** X14: for a class name, one descriptor.  If some class path item has
    the resource and none has it as a directory, and the name carries no
    [.class] extension, then [getClasses] returns the single descriptor
    [L<item>;], however many class path items hold the class and whatever
    the iteration budget. *)
Theorem getClasses_of_class_name (path : Classpath.Path)
    (classpath : list Classpath.IClasspathItem) (fuel : nat) (item : string) :
  Forall (fun cp => Classpath.statItem item cp <> Some true) classpath ->
  Exists (fun cp => is_Some (Classpath.statItem item cp)) classpath ->
  Classpath.extname path item <> ".class" ->
  Classpath.getClasses path classpath fuel item = Ok ["L" +:+ item +:+ ";"].
Proof.
  intros Hall Hex Hext.
  destruct (isDir_of_hits classpath item false Hall Hex) as [Hdir Hne].
  unfold Classpath.getClasses. rewrite findItems_spec, app_nil_l, Hdir.
  destruct (length _ =? 0)%nat eqn:Hlen; [by apply length_eqb_nil in Hlen|].
  by rewrite (proj2 (String.eqb_neq _ _) Hext).
Qed.

Lemma getClasses_of_class_name_witness :
  Classpath.getClasses samplePath [sampleDir; sampleJar] 0 "q/C" = Ok ["Lq/C;"].
Proof.
  apply (getClasses_of_class_name samplePath [sampleDir; sampleJar] 0 "q/C").
  - repeat constructor; discriminate.
  - apply Exists_cons_tl, Exists_cons_hd. by eexists.
  - discriminate.
Defined.

Lemma scanListing_classes path dir dirListing rv dirStack :
  Forall (fun entry => Classpath.extname path (Classpath.join path dir entry) = ".class")
    dirListing ->
  Classpath.scanListing path dir dirListing rv dirStack =
  (rv ++ map (fun entry => Classpath.file2desc (Classpath.join path dir entry)) dirListing,
   dirStack).
Proof.
  revert rv; induction dirListing as [|entry rest IH]; intros rv Hall;
    cbn [Classpath.scanListing map]; [by rewrite app_nil_r|].
  apply Forall_cons in Hall as [He Hall].
  rewrite He, String.eqb_refl, IH by done. by rewrite <- app_assoc.
Qed.

(** The class files that one class path item lists in a directory. *)
Lemma scanItems_classes path dir cpItems rv dirStack :
  Forall (fun cp => forall dirListing,
            Classpath.tryReaddirSync cp dir = Some dirListing ->
            Forall (fun entry =>
                      Classpath.extname path (Classpath.join path dir entry) = ".class")
              dirListing) cpItems ->
  Classpath.scanItems path dir cpItems rv dirStack =
  (rv ++ concat (map (fun cp =>
                        map (fun entry => Classpath.file2desc (Classpath.join path dir entry))
                          (default [] (Classpath.tryReaddirSync cp dir))) cpItems),
   dirStack).
Proof.
  revert rv; induction cpItems as [|cp rest IH]; intros rv Hall;
    cbn [Classpath.scanItems map concat]; [by rewrite app_nil_r|].
  apply Forall_cons in Hall as [Hcp Hall].
  destruct (Classpath.tryReaddirSync cp dir) as [dirListing|] eqn:Hl.
  - rewrite scanListing_classes by (by apply Hcp). rewrite IH by done.
    cbn [default]. by rewrite <- app_assoc.
  - rewrite IH by done. reflexivity.
Qed.

(** X15: a package directory that holds class files only.  If some class
    path item has the resource and none has it as a plain file, and every
    entry that the items holding it list for it is a class file, then
    [getClasses] returns the descriptors of these entries, class path
    item by class path item and in the order of each listing; a class
    that two class path items hold is listed twice. *)
Theorem getClasses_of_flat_package (path : Classpath.Path)
    (classpath : list Classpath.IClasspathItem) (fuel : nat) (item : string) :
  Forall (fun cp => Classpath.statItem item cp <> Some false) classpath ->
  Exists (fun cp => is_Some (Classpath.statItem item cp)) classpath ->
  Forall (fun cp => forall dirListing,
            Classpath.tryReaddirSync cp item = Some dirListing ->
            Forall (fun entry =>
                      Classpath.extname path (Classpath.join path item entry) = ".class")
              dirListing) classpath ->
  Classpath.getClasses path classpath (S fuel) item =
  Ok (concat (map (fun cp =>
                     map (fun entry => Classpath.file2desc (Classpath.join path item entry))
                       (default [] (Classpath.tryReaddirSync cp item)))
                (filter (fun cp => is_Some (Classpath.statItem item cp)) classpath))).
Proof.
  intros Hall Hex Hflat.
  destruct (isDir_of_hits classpath item true Hall Hex) as [Hdir Hne].
  unfold Classpath.getClasses. rewrite findItems_spec, app_nil_l, Hdir.
  destruct (length _ =? 0)%nat eqn:Hlen; [by apply length_eqb_nil in Hlen|].
  cbn [Classpath.walk last removelast].
  rewrite scanItems_classes.
  - rewrite app_nil_l. by destruct fuel.
  - rewrite Forall_forall in Hflat |- *. intros cp [_ Hin]%list_elem_of_filter.
    by apply Hflat.
Qed.

Lemma getClasses_of_flat_package_witness :
  Classpath.getClasses samplePath [sampleDir; sampleJar; sampleDir] 1 "p"
  = Ok ["Lp/A;"; "Lp/B;"; "Lp/A;"; "Lp/B;"].
Proof.
  apply (getClasses_of_flat_package samplePath [sampleDir; sampleJar; sampleDir] 0 "p").
  - repeat constructor; discriminate.
  - apply Exists_cons_hd. by eexists.
  - repeat constructor; intros dirListing [= <-]; repeat constructor.
Defined.


(** ** Names derived from the class name *)

Lemma replace_char_app (c : ascii) (by_ s t : string) :
  JS.replace_char c by_ (s +:+ t) = JS.replace_char c by_ s +:+ JS.replace_char c by_ t.
Proof.
  induction s as [|a s IH]; [reflexivity|]. cbn [JS.replace_char]. rewrite append_cons.
  cbn [JS.replace_char]. destruct (Ascii.eqb a c); rewrite IH; [by rewrite append_assoc | reflexivity].
Qed.

Lemma occurs_replaced (c : ascii) (by_ s : string) :
  occurs c by_ = false -> occurs c (JS.replace_char c by_ s) = false.
Proof.
  intros Hby. induction s as [|a s IH]; [reflexivity|]. cbn [JS.replace_char].
  destruct (Ascii.eqb a c) eqn:Ha.
  - by rewrite occurs_app, Hby, IH.
  - cbn [occurs]. by rewrite Ha, IH.
Qed.

Lemma occurs_replace_other (d c : ascii) (by_ s : string) :
  Ascii.eqb c d = false -> occurs d by_ = false ->
  occurs d (JS.replace_char c by_ s) = occurs d s.
Proof.
  intros Hcd Hby. induction s as [|a s IH]; [reflexivity|]. cbn [JS.replace_char occurs].
  destruct (Ascii.eqb_spec a c) as [->|Hac].
  - by rewrite occurs_app, Hby, IH, Hcd.
  - cbn [occurs]. by rewrite IH.
Qed.

Lemma strip_L_semicolon (x : string) :
  JS.substring 1 (JS.len ("L" +:+ x +:+ ";") - 1) ("L" +:+ x +:+ ";") = x.
Proof.
  unfold JS.substring, JS.len. rewrite !append_length.
  change (String.length "L") with 1%nat. change (String.length ";") with 1%nat.
  set (n := String.length x). set (len := Z.of_nat (1 + (n + 1))).
  assert (H1 : Z.min (Z.max 1 0) len = 1%Z) by lia.
  assert (H2 : Z.min (Z.max (len - 1) 0) len = (len - 1)%Z) by lia.
  rewrite H1, H2.
  replace (Z.to_nat (Z.min 1 (len - 1))) with 1%nat by lia.
  replace (Z.to_nat (Z.max 1 (len - 1) - Z.min 1 (len - 1))) with n by lia.
  simpl. apply substring_app_exact.
Qed.

Lemma fixedClassName_reference (r : ReferenceClassData) (name : string) :
  getInternalName r = "L" +:+ name +:+ ";" ->
  fixedClassName r = JS.replace_char "/" "_" name.
Proof.
  intros H. unfold fixedClassName. rewrite H, !replace_char_app.
  change (JS.replace_char "/" "_" "L") with "L".
  change (JS.replace_char "/" "_" ";") with ";".
  apply strip_L_semicolon.
Qed.

Lemma targetName_slashed (className : string) :
  JS.replace_char "/" "_" (targetPath className) = targetName className.
Proof.
  unfold targetPath, targetName.
  induction className as [|a s IH]; [reflexivity|]. cbn [JS.replace_char].
  destruct (Ascii.eqb_spec a ".") as [->|Hd].
  - cbn. by rewrite IH.
  - cbn [JS.replace_char]. destruct (Ascii.eqb_spec a "/") as [->|Hs].
    + cbn. by rewrite IH.
    + cbn [JS.replace_char]. rewrite (proj2 (Ascii.eqb_neq _ _) Hd). by rewrite IH.
Qed.

(** X16: the stub file is named after the class.  [targetName] contains
    neither a path separator nor a dot, so the stub lands in the output
    directory itself; the dotted and the slashed spelling of a class name
    give the same [targetName]; and for the class that [getClasses] finds
    under [targetPath], the class name that [processClassData] puts into
    the stub is [targetName]. *)
Theorem targetName_names_the_class (className : string) :
  occurs "/" (targetName className) = false
  /\ occurs "." (targetName className) = false
  /\ targetName (targetPath className) = targetName className
  /\ (forall r : ReferenceClassData,
        getInternalName r = "L" +:+ targetPath className +:+ ";" ->
        fixedClassName r = targetName className).
Proof.
  split; [|split; [|split]].
  - unfold targetName. rewrite occurs_replace_other by reflexivity.
    by apply occurs_replaced.
  - unfold targetName. by apply occurs_replaced.
  - unfold targetName at 1. rewrite targetName_slashed.
    unfold targetName.
    assert (H : forall s, occurs "." s = false -> JS.replace_char "." "_" s = s).
    { induction s as [|a s IH]; [reflexivity|]. cbn [occurs JS.replace_char].
      intros [Ha Hs]%orb_false_iff. by rewrite Ha, IH. }
    apply H. by apply occurs_replaced.
  - intros r Hr. rewrite (fixedClassName_reference r _ Hr). apply targetName_slashed.
Qed.

Lemma targetName_names_the_class_witness :
  fixedClassName (Samples.cls "Ljava/lang/Thread;" None [] false []) = targetName "java.lang.Thread".
Proof.
  apply (proj2 (proj2 (proj2 (targetName_names_the_class "java.lang.Thread")))).
  reflexivity.
Defined.

Lemma underscores_stay (name : string) :
  JS.replace_char "_" "/" name = name <-> occurs "_" name = false.
Proof.
  induction name as [|a s IH]; [done|]. cbn [JS.replace_char occurs].
  destruct (Ascii.eqb_spec a "_") as [->|Ha]; cbn [orb].
  - split; [|discriminate]. rewrite append_cons. intros H. discriminate H.
  - rewrite <- IH. split; [by intros [= H] | by intros ->].
Qed.

Lemma all_separators (name : string) :
  JS.replace_char "_" "/" (JS.replace_char "/" "_" name) = JS.replace_char "_" "/" name.
Proof.
  induction name as [|a s IH]; [reflexivity|]. cbn [JS.replace_char].
  destruct (Ascii.eqb_spec a "/") as [->|Hs].
  - cbn. by rewrite IH.
  - cbn [JS.replace_char]. destruct (Ascii.eqb a "_"); by rewrite IH.
Qed.

(** X17: the descriptor that [classStart] rebuilds from the class name in
    the stub is the descriptor of the class exactly when the internal
    name has no underscore: the name was flattened with [/] turned into
    [_], and turning every [_] back into [/] also hits the underscores
    that were there before.  The same holds for the key under which
    [fileEnd] registers the class. *)
Theorem seedDescriptor_is_own_descriptor (classData : ReferenceClassData) (name : string) :
  getInternalName classData = "L" +:+ name +:+ ";" ->
  (seedDescriptor classData = getInternalName classData <-> occurs "_" name = false)
  /\ (JS.replace_char "_" "/" (fixedClassName classData) = name <-> occurs "_" name = false).
Proof.
  intros H.
  assert (Hkey : JS.replace_char "_" "/" (fixedClassName classData) = name
                 <-> occurs "_" name = false).
  { rewrite (fixedClassName_reference _ _ H), all_separators. apply underscores_stay. }
  split; [|exact Hkey].
  rewrite <- Hkey. unfold seedDescriptor. rewrite H. split.
  - intros Heq. apply (f_equal descriptor2typestr) in Heq.
    by rewrite !descriptor2typestr_reference in Heq.
  - by intros ->.
Qed.

Lemma seedDescriptor_is_own_descriptor_witness :
  seedDescriptor Samples.Foo_Bar <> getInternalName Samples.Foo_Bar.
Proof.
  intros Heq.
  apply (proj1 (seedDescriptor_is_own_descriptor Samples.Foo_Bar "Foo_Bar" eq_refl)) in Heq.
  discriminate.
Defined.

(** ** The output directory, again *)

Lemma SampleFS_mkdir_exists (p : string) (t t' : gmap (list string) SampleFS.node) :
  FS.mkdirSync SampleFS.fs p t = Ok t' -> FS.existsSync SampleFS.fs p t' = true.
Proof.
  change (SampleFS.mkdirSync p t = Ok t' -> SampleFS.existsSync p t' = true).
  unfold SampleFS.mkdirSync, SampleFS.existsSync.
  destruct (t !! SampleFS.segments p); [discriminate|].
  destruct (t !! removelast (SampleFS.segments p)) as [[| |]|]; try discriminate.
  intros [= <-]. by rewrite lookup_insert_eq.
Qed.

(** X18: the guard of the output directory makes the step repeatable.
    On a file system where a directory that [mkdirSync] has made exists,
    the path exists once the step has returned, and the same step, run
    again, returns and leaves the file system as it is. *)
Theorem createOutputDirectory_is_repeatable {W : Type} (fs : FS.FileSystem W)
    (outputDirectory : string) (w w' : W) :
  (forall p v v', FS.mkdirSync fs p v = Ok v' -> FS.existsSync fs p v' = true) ->
  createOutputDirectory fs outputDirectory w = Ok w' ->
  FS.existsSync fs outputDirectory w' = true
  /\ createOutputDirectory fs outputDirectory w' = Ok w'.
Proof.
  intros Hmade Hrun.
  assert (He : FS.existsSync fs outputDirectory w' = true).
  { unfold createOutputDirectory in Hrun.
    destruct (FS.existsSync fs outputDirectory w) eqn:Hex; cbn [negb] in Hrun.
    - by injection Hrun as <-.
    - by eapply Hmade. }
  split; [exact He|]. unfold createOutputDirectory. by rewrite He.
Qed.

Lemma createOutputDirectory_is_repeatable_witness :
  FS.existsSync SampleFS.fs "home/out" (<[ ["home"; "out"] := SampleFS.Dir ]> SampleFS.home) = true
  /\ createOutputDirectory SampleFS.fs "home/out"
       (<[ ["home"; "out"] := SampleFS.Dir ]> SampleFS.home)
     = Ok (<[ ["home"; "out"] := SampleFS.Dir ]> SampleFS.home).
Proof.
  apply (createOutputDirectory_is_repeatable SampleFS.fs "home/out" SampleFS.home).
  - apply SampleFS_mkdir_exists.
  - vm_compute. reflexivity.
Defined.

(** ** What is written to the header *)

#[local] Instance declares_nothing_preorder : PreOrder declares_nothing.
Proof.
  split; unfold declares_nothing; [done | intros ??? (-> & -> & ->) (-> & -> & ->); done].
Qed.

Lemma declares_nothing_log st e :
  emits [e] = [] -> declares_nothing st (set_trace (fun t => t ++ [e]) st).
Proof.
  intros He. split; [reflexivity|]. split; [|reflexivity].
  simpl. by rewrite emits_app, He, app_nil_r.
Qed.

Lemma findClass_declares_nothing E depth d : always declares_nothing (findClass E depth d).
Proof.
  apply findClass_always; try typeclasses eauto; intros;
    first [by apply declares_nothing_log | done].
Qed.

Lemma generateClassDefinition_declares_nothing E desc :
  always declares_nothing (TSTemplate.generateClassDefinition E desc).
Proof.
  apply generateClassDefinition_always; try typeclasses eauto;
    try (intros; first [by apply declares_nothing_log | done]).
  intros. apply findClass_declares_nothing.
Qed.

Lemma jvmtype2tstype_declares_nothing E desc prefix :
  always declares_nothing (TSTemplate.jvmtype2tstype E desc prefix).
Proof.
  apply jvmtype2tstype_always; [typeclasses eauto|].
  apply generateClassDefinition_declares_nothing.
Qed.

Lemma jvmtype2tstype_run E desc prefix st s st' :
  TSTemplate.jvmtype2tstype E desc prefix st = (Ok s, st') ->
  s = ts_typename prefix desc /\ declares_nothing st st'.
Proof.
  intros H. split; [by eapply jvmtype2tstype_value|].
  eapply always_run; [apply jvmtype2tstype_declares_nothing | exact H].
Qed.

Lemma mapM_jvmtype2tstype_run E prefix (F : string -> string -> string) (l : list string)
    st names st' :
  mapM (fun type => t <- TSTemplate.jvmtype2tstype E type prefix ;; ret (F type t)) l st
  = (Ok names, st') ->
  names = map (fun type => F type (ts_typename prefix type)) l /\ declares_nothing st st'.
Proof.
  revert st names st'; induction l as [|d l IH]; intros st names st' H; simpl in H.
  - apply ret_Ok_inv in H as [<- <-]. by split.
  - apply bind_Ok_inv in H as (n & s1 & Hn & H).
    apply bind_Ok_inv in H as (ns & s2 & Hns & H).
    apply ret_Ok_inv in H as [<- <-].
    apply bind_Ok_inv in Hn as (t & s0 & Ht & Hn).
    apply ret_Ok_inv in Hn as [<- <-].
    apply jvmtype2tstype_run in Ht as [-> H0]. apply IH in Hns as [-> H1].
    split; [reflexivity | by etrans].
Qed.

Lemma mapM_jvmtype2tstype_plain E prefix (l : list string) st names st' :
  mapM (fun type => TSTemplate.jvmtype2tstype E type prefix) l st = (Ok names, st') ->
  names = map (ts_typename prefix) l /\ declares_nothing st st'.
Proof.
  intros H. split; [by eapply mapM_jvmtype2tstype_value|].
  eapply always_run; [|exact H]. apply always_mapM; [typeclasses eauto|].
  intros. apply jvmtype2tstype_declares_nothing.
Qed.

Lemma appends_write t : appends (headerStream_write t) t.
Proof. intros st [] st' [= <-]. by split. Qed.

Lemma appends_ret {A} (a : A) : appends (ret a) "".
Proof. intros st a' st' [= _ <-]. by rewrite append_nil_r. Qed.

Lemma appends_bind {A B} (m : M A) (k : A -> M B) t1 t2 :
  appends m t1 -> (forall a, appends (k a) t2) -> appends (bind m k) (t1 +:+ t2).
Proof.
  intros Hm Hk st b st' H. apply bind_Ok_inv in H as (a & s1 & H1 & H2).
  apply Hm in H1 as (T1 & E1 & N1). apply Hk in H2 as (T2 & E2 & N2).
  split; [by rewrite T2, T1, append_assoc|]. split; [by rewrite E2, E1 | by rewrite N2, N1].
Qed.

Lemma appends_forEach {A} (f : A -> M unit) (T : A -> string) (l : list A) :
  (forall x, appends (f x) (T x)) -> appends (forEach f l) (texts (map T l)).
Proof.
  intros Hf. induction l as [|x l IH]; cbn [forEach map].
  - apply appends_ret.
  - change (texts (T x :: map T l)) with (T x +:+ texts (map T l)).
    apply appends_bind; [apply Hf | intros _; exact IH].
Qed.

Lemma _outputMethod_appends E m :
  appends (TSTemplate._outputMethod E m false) (TS_header_method_text m).
Proof.
  intros st [] st' Hrun. unfold TSTemplate._outputMethod in Hrun.
  apply bind_Ok_inv in Hrun as (cbSig & s1 & Hcb & Hrun).
  assert (H1 : cbSig = (if String.eqb (returnType m) "V" then "e?: java_lang_Throwable"
                        else "e?: java_lang_Throwable" +:+ ", rv?: "
                             +:+ ts_typename false (returnType m))
               /\ declares_nothing st s1).
  { destruct (String.eqb (returnType m) "V").
    - apply ret_Ok_inv in Hcb as [<- <-]. by split.
    - apply bind_Ok_inv in Hcb as (t & s0 & Ht & Hcb).
      apply ret_Ok_inv in Hcb as [<- <-]. apply jvmtype2tstype_run in Ht as [-> H0].
      by split. }
  destruct H1 as [-> (T1 & E1 & N1)].
  apply bind_Ok_inv in Hrun as (args & s2 & Hargs & Hrun).
  assert (H2 : args = (if (0 <? length (parameterTypes m))%nat then
                         "args: [" +:+
                         JS.join ", " (map (fun type => ts_typename false type +:+
                                              (if String.eqb type "J" || String.eqb type "D"
                                               then ", any" else "")) (parameterTypes m))
                         +:+ "]"
                       else "args: {}[]")
               /\ declares_nothing s1 s2).
  { destruct (0 <? length (parameterTypes m))%nat.
    - apply bind_Ok_inv in Hargs as (l & s0 & Hl & Hargs).
      apply ret_Ok_inv in Hargs as [<- <-].
      apply (mapM_jvmtype2tstype_run E false
               (fun type t => t +:+ (if String.eqb type "J" || String.eqb type "D"
                                     then ", any" else ""))) in Hl as [-> H0].
      by split.
    - apply ret_Ok_inv in Hargs as [<- <-]. by split. }
  destruct H2 as [-> (T2 & E2 & N2)].
  unfold TS_header_method_text.
  destruct (m_cls_isInterface m).
  - destruct (m_isStatic m).
    + apply ret_Ok_inv in Hrun as [_ <-]. rewrite T2, T1, E2, E1, N2, N1.
      by rewrite append_nil_r.
    + injection Hrun as <-. cbn [headerStream trace headerCount set_headerStream].
      by rewrite T2, T1, E2, E1, N2, N1.
  - cbn [negb] in Hrun. apply bind_Ok_inv in Hrun as ([] & s3 & [= <-] & [= <-]).
    cbn [headerStream trace headerCount set_headerStream]. rewrite T2, T1, E2, E1, N2, N1.
    split; [by rewrite append_assoc | done].
Qed.

Lemma _outputField_appends E f :
  appends (TSTemplate._outputField E f) (TS_header_field_text f).
Proof.
  intros st [] st' Hrun. unfold TSTemplate._outputField in Hrun.
  unfold TS_header_field_text. destruct (f_cls_isInterface f).
  - apply ret_Ok_inv in Hrun as [_ <-]. by rewrite append_nil_r.
  - apply bind_Ok_inv in Hrun as (t & s1 & Ht & [= <-]).
    apply jvmtype2tstype_run in Ht as [-> (T1 & E1 & N1)].
    cbn [headerStream trace headerCount set_headerStream]. by rewrite T1, E1, N1.
Qed.

(** What one call of [_processHeader] writes and records. *)
Lemma _processHeader_writes E cls st st' :
  TSTemplate._processHeader E (ReferenceCD cls) st = (Ok tt, st') ->
  headerStream st' = headerStream st +:+ TS_declaration_text cls
  /\ emits (trace st') = emits (trace st) ++ [cls]
  /\ headerCount st' = S (headerCount st).
Proof.
  intros Hrun. unfold TSTemplate._processHeader in Hrun.
  apply bind_Ok_inv in Hrun as ([] & s1 & [= <-] & Hrun).
  apply bind_Ok_inv in Hrun as (name & s2 & Hname & Hrun).
  apply jvmtype2tstype_run in Hname as [-> (T2 & E2 & N2)].
  apply bind_Ok_inv in Hrun as ([] & s3 & [= <-] & Hrun).
  apply bind_Ok_inv in Hrun as ([] & s4 & [= <-] & Hrun).
  apply bind_Ok_inv in Hrun as ([] & s5 & Hsup & Hrun).
  assert (H5 : headerStream s5 =
               headerStream st +:+
               ((if isInterface cls then "  export interface " else "  export class ") +:+
                ts_typename false (getInternalName cls)) +:+
               match getSuperClassReference cls with
               | Some superName => " extends " +:+ ts_typename false superName
               | None => ""
               end
               /\ emits (trace s5) = emits (trace st) ++ [cls]
               /\ headerCount s5 = S (headerCount st)).
  { destruct (getSuperClassReference cls) as [superName|].
    - apply bind_Ok_inv in Hsup as (t & s0 & Ht & [= <-]).
      apply jvmtype2tstype_run in Ht as [-> (T0 & E0 & N0)].
      cbn [headerStream trace headerCount set_headerStream set_trace] in *.
      rewrite T0, E0, N0, emits_app, T2, E2, N2.
      cbn [headerStream trace headerCount set_headerCount].
      split; [by rewrite !append_assoc | done].
    - apply ret_Ok_inv in Hsup as [_ <-].
      cbn [headerStream trace headerCount set_headerStream set_trace] in *.
      rewrite emits_app, T2, E2, N2. cbn [headerStream trace headerCount set_headerCount].
      split; [by rewrite append_nil_r | done]. }
  destruct H5 as (T5 & E5 & N5).
  apply bind_Ok_inv in Hrun as ([] & s6 & Hifs & Hrun).
  assert (H6 : headerStream s6 =
               headerStream s5 +:+
               (if (0 <? length (getInterfaceClassReferences cls))%nat then
                  (if isInterface cls then ", " else " implements ") +:+
                  JS.join ", " (map (ts_typename false) (getInterfaceClassReferences cls))
                else "")
               /\ emits (trace s6) = emits (trace s5)
               /\ headerCount s6 = headerCount s5).
  { destruct (0 <? length (getInterfaceClassReferences cls))%nat.
    - apply bind_Ok_inv in Hifs as ([] & s7 & Hsep & Hifs).
      apply bind_Ok_inv in Hifs as (l & s8 & Hl & [= <-]).
      apply mapM_jvmtype2tstype_plain in Hl as [-> (T8 & E8 & N8)].
      cbn [headerStream trace headerCount set_headerStream]. rewrite T8, E8, N8.
      destruct (isInterface cls); injection Hsep as <-;
        cbn [headerStream trace headerCount set_headerStream];
        (split; [by rewrite !append_assoc | done]).
    - apply ret_Ok_inv in Hifs as [_ <-]. by rewrite append_nil_r. }
  destruct H6 as (T6 & E6 & N6).
  assert (Hmembers : appends
    (headerStream_write (" {" +:+ nl) ;;;
     forEach (fun '(name, type) => TSTemplate._outputInjectedField name type)
       (getInjectedFields cls) ;;;
     forEach (fun '(name, type) => TSTemplate._outputInjectedMethod name type)
       (getInjectedMethods cls) ;;;
     forEach (fun '(name, type) => TSTemplate._outputInjectedStaticMethod name type)
       (getInjectedStaticMethods cls) ;;;
     forEach (TSTemplate._outputField E) (getFields cls) ;;;
     forEach (fun m => TSTemplate._outputMethod E m false)
       (getMethods cls ++ getMirandaAndDefaultMethods cls) ;;;
     forEach (fun m => TSTemplate._outputMethod E m false)
       (getUninheritedDefaultMethods cls) ;;;
     headerStream_write ("  }" +:+ nl))
    ((" {" +:+ nl) +:+
     texts (map (fun '(name, type) => "    public " +:+ name +:+ ": " +:+ type +:+ ";" +:+ nl)
              (getInjectedFields cls)) +:+
     texts (map (fun '(name, type) => "    public " +:+ name +:+ type +:+ ";" +:+ nl)
              (getInjectedMethods cls)) +:+
     texts (map (fun '(name, type) => "    public static " +:+ name +:+ type +:+ ";" +:+ nl)
              (getInjectedStaticMethods cls)) +:+
     texts (map TS_header_field_text (getFields cls)) +:+
     texts (map TS_header_method_text (getMethods cls ++ getMirandaAndDefaultMethods cls)) +:+
     texts (map TS_header_method_text (getUninheritedDefaultMethods cls)) +:+
     "  }" +:+ nl)).
  { repeat (apply appends_bind; [|intros _]);
      try apply appends_write;
      apply appends_forEach; first [ intros [name type]; apply appends_write
                                   | intros; apply _outputField_appends
                                   | intros; apply _outputMethod_appends ]. }
  apply Hmembers in Hrun as (T7 & E7 & N7).
  rewrite T7, E7, N7, T6, E6, N6, T5, E5, N5. split; [|done].
  unfold TS_declaration_text, TS_declaration_line. by rewrite !append_assoc.
Qed.


Lemma texts_app (l1 l2 : list string) : texts (l1 ++ l2) = texts l1 +:+ texts l2.
Proof.
  induction l1 as [|x l1 IH]; [reflexivity|]. unfold texts in *. simpl.
  by rewrite IH, append_assoc.
Qed.

Lemma texts_singleton (x : string) : texts [x] = x.
Proof. unfold texts. simpl. apply append_nil_r. Qed.

(** The three writers of the prelude. *)
Lemma prelude_written E st :
  (TSTemplate.headersStart E ;;;
   TSTemplate.generateArrayDefinition ;;;
   TSTemplate.generateMiscDefinitions) st
  = (Ok tt, set_headerStream (fun t => t +:+ TS_header_prelude E) st).
Proof.
  unfold TS_header_prelude, TSTemplate.headersStart, TSTemplate.generateArrayDefinition,
    TSTemplate.generateMiscDefinitions, headerStream_write, bind, modify.
  cbn [fst snd headerStream set_headerStream initialState].
  unfold set_headerStream. cbn [headerStream cache trace stub headerCount headerSet classesSeen
                                generateQueue firstMethod firstClass].
  by rewrite !append_assoc.
Qed.

Lemma replay_returns E st :
  exists s1,
    try_catch (TSTemplate.replayExisting E) (fun _ => ret tt) st = (Ok tt, s1)
    /\ declares_nothing st s1.
Proof.
  pose proof (replayExisting_never_diverges E st) as Hnd.
  assert (Hal : always declares_nothing (TSTemplate.replayExisting E)).
  { unfold TSTemplate.replayExisting.
    repeat lazymatch goal with
           | |- always _ (TSTemplate.replayLoop _ _ _ _ _ _ _) =>
               apply replayLoop_always; [typeclasses eauto|];
               apply generateClassDefinition_declares_nothing
           | |- _ => always_step
           end. }
  specialize (Hal st). unfold try_catch, ret.
  destruct (TSTemplate.replayExisting E st) as [[[]|e|] s1]; cbn [fst snd] in *;
    [by exists s1 | by exists s1 | done].
Qed.

Lemma bind_step {A B} (m : M A) (k : A -> M B) st a s1 :
  m st = (Ok a, s1) -> bind m k st = k a s1.
Proof. intros H. unfold bind. by rewrite H. Qed.

Lemma prelude_then {B} E (rest : M B) st :
  (TSTemplate.headersStart E ;;;
   TSTemplate.generateArrayDefinition ;;;
   TSTemplate.generateMiscDefinitions ;;;
   rest) st
  = rest (set_headerStream (fun t => t +:+ TS_header_prelude E) st).
Proof.
  pose proof (prelude_written E st) as Hp.
  unfold TSTemplate.headersStart, TSTemplate.generateArrayDefinition,
    TSTemplate.generateMiscDefinitions, headerStream_write, bind, modify in *.
  apply (f_equal snd) in Hp. cbn [snd] in Hp. by rewrite Hp.
Qed.

Lemma constructor_unfold E st :
  exists s1,
    declares_nothing st s1
    /\ stub_untouched st s1
    /\ TSTemplate.constructor E st
       = seeding E (set_headerStream (fun t => t +:+ TS_header_prelude E) s1).
Proof.
  destruct (replay_returns E st) as (s1 & Hreplay & Hn). exists s1.
  split; [exact Hn|]. split.
  { eapply always_run; [|exact Hreplay].
    apply always_try_catch; [typeclasses eauto | | intros; apply always_ret; typeclasses eauto].
    unfold TSTemplate.replayExisting.
    repeat lazymatch goal with
           | |- always _ (TSTemplate.replayLoop _ _ _ _ _ _ _) =>
               apply replayLoop_always; [typeclasses eauto|];
               apply generateClassDefinition_stub_untouched
           | |- _ => always_step
           end. }
  change (TSTemplate.constructor E st)
    with ((try_catch (TSTemplate.replayExisting E) (fun _ => ret tt) ;;;
           (TSTemplate.headersStart E ;;;
            TSTemplate.generateArrayDefinition ;;;
            TSTemplate.generateMiscDefinitions ;;;
            seeding E)) st).
  rewrite (bind_step _ _ _ _ _ Hreplay). apply prelude_then.
Qed.

Lemma seeding_declares_nothing E : always declares_nothing (seeding E).
Proof.
  unfold seeding.
  repeat lazymatch goal with
         | |- always _ (TSTemplate.generateClassDefinition _ _) =>
             apply generateClassDefinition_declares_nothing
         | |- _ => always_step
         end.
Qed.

(** What the constructor leaves in the header stream. *)
Lemma constructor_prelude E st :
  headerStream (snd (TSTemplate.constructor E st)) = headerStream st +:+ TS_header_prelude E
  /\ emits (trace (snd (TSTemplate.constructor E st))) = emits (trace st)
  /\ headerCount (snd (TSTemplate.constructor E st)) = headerCount st.
Proof.
  destruct (constructor_unfold E st) as (s1 & (T1 & E1 & N1) & _ & ->).
  destruct (seeding_declares_nothing E
              (set_headerStream (fun t => t +:+ TS_header_prelude E) s1)) as (T & E2 & N2).
  rewrite T, E2, N2. cbn [headerStream trace headerCount set_headerStream].
  by rewrite T1, E1, N1.
Qed.

(** The worklist loop keeps the header in step with the declarations
    recorded. *)
Lemma _processGenerateQueue_header_written E fuel st st' :
  header_written E st ->
  TSTemplate._processGenerateQueue E fuel st = (Ok tt, st') ->
  header_written E st'.
Proof.
  revert st; induction fuel as [|fuel IH]; intros st Hw Hrun;
    cbn [TSTemplate._processGenerateQueue] in Hrun;
    destruct (last (generateQueue st)) as [cls|]; try discriminate;
    try (by injection Hrun as <-).
  apply bind_Ok_inv in Hrun as ([] & s1 & [= <-] & Hrun).
  apply bind_Ok_inv in Hrun as ([] & s2 & Hcls & Hrun).
  destruct cls as [cls| |]; try discriminate.
  apply _processHeader_writes in Hcls as (T2 & E2 & N2).
  apply (IH s2); [|exact Hrun].
  destruct Hw as [Hw Hn]. unfold header_written. rewrite T2, E2, N2.
  cbn [headerStream trace headerCount set_generateQueue].
  rewrite Hw, Hn, map_app, texts_app, length_app. cbn [map length].
  split; [by rewrite texts_singleton, append_assoc | lia].
Qed.

(** X19: the declaration of a class.  When [_processHeader] returns, it
    has appended to the header exactly the declaration of the class: the
    first line with the kind, the name, the superclass after [extends] if
    there is one and the interfaces (after [implements] for a class,
    after a comma for an interface); then the injected fields, methods
    and static methods, one line for each field that is not an
    interface's, the lines of the class's own, miranda and default
    methods and of the uninherited default methods; then the closing
    brace.  It has recorded this one declaration and has counted it. *)
Theorem processHeader_writes_declaration (E : Env) (cls : ReferenceClassData)
    (st st' : State) :
  TSTemplate._processHeader E (ReferenceCD cls) st = (Ok tt, st') ->
  headerStream st' = headerStream st +:+ TS_declaration_text cls
  /\ emits (trace st') = emits (trace st) ++ [cls]
  /\ headerCount st' = S (headerCount st).
Proof.
  intros Hrun. pose proof (_processHeader_writes E cls st st' Hrun) as (Ht & He & Hn).
  split; [exact Ht|]. split; [exact He | exact Hn].
Qed.

Lemma processHeader_writes_declaration_witness :
  let st' := snd (TSTemplate._processHeader (Samples.env true None [])
                    (ReferenceCD Samples.Nat_) initialState) in
  headerStream st' = headerStream initialState +:+ TS_declaration_text Samples.Nat_
  /\ emits (trace st') = emits (trace initialState) ++ [Samples.Nat_]
  /\ headerCount st' = S (headerCount initialState).
Proof.
  apply (processHeader_writes_declaration (Samples.env true None []) Samples.Nat_ initialState).
  vm_compute. reflexivity.
Defined.

(** X20: the constructor writes the prelude and nothing else.  Whatever
    the prior header, the forced classes and the outcome of resolving
    [java/lang/Throwable], the constructor appends to the header stream
    exactly the text of [headersStart], [generateArrayDefinition] and
    [generateMiscDefinitions]; the replay of the prior header and the
    seeding write nothing, and [Ljava/lang/Throwable;] is marked
    afterwards. *)
Theorem constructor_writes_prelude (E : Env) (st : State) :
  headerStream (snd (TSTemplate.constructor E st)) = headerStream st +:+ TS_header_prelude E
  /\ stub (snd (TSTemplate.constructor E st)) = stub st
  /\ is_Some (headerSet (snd (TSTemplate.constructor E st)) !! "Ljava/lang/Throwable;").
Proof.
  split; [apply constructor_prelude|]. split; [apply constructor_stub_untouched|].
  destruct (constructor_unfold E st) as (s1 & _ & _ & ->).
  unfold seeding.
  apply (snd_bind_post headerSet_grows
           (fun s => is_Some (headerSet s !! "Ljava/lang/Throwable;"))).
  - intros s s' Hs HR. by apply HR.
  - by apply generateClassDefinition_marks.
  - intros _.
    repeat lazymatch goal with
           | |- always _ (TSTemplate.generateClassDefinition _ _) =>
               apply generateClassDefinition_headerSet_grows
           | |- _ => always_step
           end.
Qed.

(** X21: the header artifact.  When a TypeScript run returns, the header
    stream holds the prelude, then the declaration of each class that
    [_processHeader] was run on, in the order in which the worklist gave
    them out, then the closing of the module -- nothing else is ever
    written to it; and [headerCount], the number that the run reports,
    is the number of these declarations. *)
Theorem header_artifact_contents (E : Env) (fuel : nat) (st' : State) :
  typescript E = true ->
  main E fuel initialState = (Ok tt, st') ->
  headerStream st' = TS_header_text E (emits (trace st'))
  /\ headerCount st' = length (emits (trace st')).
Proof.
  intros Hts Hrun. rewrite main_typescript in Hrun by done.
  unfold mainBody in Hrun. rewrite Hts in Hrun.
  apply bind_Ok_inv in Hrun as ([] & s1 & Hcons & Hrun).
  pose proof (constructor_prelude E initialState) as (T1 & E1 & N1).
  rewrite Hcons in T1, E1, N1. cbn [snd] in T1, E1, N1.
  apply bind_Ok_inv in Hrun as ([] & s2 & [= <-] & Hrun).
  apply bind_Ok_inv in Hrun as ([] & s3 & Hcls & Hrun).
  assert (H3 : declares_nothing (set_stub (fun t => t +:+ TS_fileStart_text E) s1) s3).
  { eapply always_run; [|exact Hcls].
    apply TS_processClasses_always; try typeclasses eauto; try done.
    - intros. apply findClass_declares_nothing.
    - intros. apply generateClassDefinition_declares_nothing. }
  destruct H3 as (T3 & E3 & N3). cbn [headerStream trace headerCount set_stub] in T3, E3, N3.
  apply bind_Ok_inv in Hrun as ([] & s4 & Hend & Hrun).
  assert (H4 : declares_nothing s3 s4).
  { eapply always_run; [|exact Hend]. apply TS_fileEnd_always; [typeclasses eauto | done]. }
  destruct H4 as (T4 & E4 & N4).
  unfold TSTemplate.headersEnd in Hrun.
  apply bind_Ok_inv in Hrun as ([] & s5 & Hqueue & [= <-]).
  apply _processGenerateQueue_header_written in Hqueue.
  - destruct Hqueue as [Hq Hn]. unfold TS_header_text.
    cbn [headerStream trace headerCount set_headerStream].
    rewrite Hq. split; [by rewrite !append_assoc | exact Hn].
  - unfold header_written. rewrite T4, E4, N4, T3, E3, N3, T1, E1, N1.
    cbn [headerStream trace headerCount initialState emits map length].
    split; [|reflexivity]. unfold texts; simpl; by rewrite append_nil_r.
Qed.

Lemma header_artifact_contents_witness :
  let E := Samples.env true None ["LNat;"] in
  headerStream (snd (main E 16 initialState))
  = TS_header_text E (emits (trace (snd (main E 16 initialState))))
  /\ headerCount (snd (main E 16 initialState))
     = length (emits (trace (snd (main E 16 initialState)))).
Proof.
  apply (header_artifact_contents (Samples.env true None ["LNat;"]) 16).
  - reflexivity.
  - vm_compute. reflexivity.
Defined.


(** ** The exceptions of a run *)

Lemma throws_only_weaken (P Q : string -> Prop) {A} (m : M A) :
  (forall e, P e -> Q e) -> throws_only P m -> throws_only Q m.
Proof. intros HPQ Hm st e st' H. by eapply HPQ, Hm. Qed.

Section TemplateThrows.
Context (P : string -> Prop) (E : Env).
Hypothesis P_find : forall depth d, throws_only P (findClass E depth d).
Hypothesis P_getMethods : P "TypeError: classData.getMethods is not a function".
Hypothesis P_getInterfaces : P "TypeError: cls.getInterfaceClassReferences is not a function".

Lemma generateClassDefinition_throws desc :
  throws_only P (TSTemplate.generateClassDefinition E desc).
Proof.
  assert (Henq : forall d, throws_only P
    (modify (set_headerSet (<[d := true]>)) ;;;
     cls <- findClass E (stackDepth E) d ;;
     modify (set_generateQueue (fun q => q ++ [cls])) ;;;
     log (EvPush d cls))).
  { intros d.
    repeat lazymatch goal with
           | |- throws_only _ (findClass _ _ _) => apply P_find
           | |- _ => throws_step
           end. }
  induction desc as [|c desc IH]; intros st e st'; cbn [TSTemplate.generateClassDefinition].
  - destruct (_ || _); [discriminate | apply Henq].
  - destruct (_ || _); [discriminate|].
    destruct (Ascii.eqb c "["); [apply IH | apply Henq].
Qed.

Lemma jvmtype2tstype_throws desc prefix :
  throws_only P (TSTemplate.jvmtype2tstype E desc prefix).
Proof.
  induction desc as [|c desc IH]; cbn [TSTemplate.jvmtype2tstype]; [throws_step|].
  repeat lazymatch goal with
         | |- throws_only _ (TSTemplate.jvmtype2tstype _ desc _) => apply IH
         | |- throws_only _ (TSTemplate.generateClassDefinition _ _) =>
             apply generateClassDefinition_throws
         | |- _ => throws_step
         end.
Qed.

Ltac throws_template :=
  repeat lazymatch goal with
         | |- throws_only _ (findClass _ _ _) => apply P_find
         | |- throws_only _ (TSTemplate.jvmtype2tstype _ _ _) => apply jvmtype2tstype_throws
         | |- throws_only _ (TSTemplate.generateClassDefinition _ _) =>
             apply generateClassDefinition_throws
         | |- throws_only _ (throw _) => apply throws_only_throw; assumption
         | |- _ => throws_step
         end.

Lemma _processHeader_throws cls : throws_only P (TSTemplate._processHeader E cls).
Proof.
  unfold TSTemplate._processHeader, TSTemplate._outputInjectedField,
    TSTemplate._outputInjectedMethod, TSTemplate._outputInjectedStaticMethod,
    TSTemplate._outputField, TSTemplate._outputMethod.
  throws_template.
Qed.

Lemma headersEnd_throws fuel : throws_only P (TSTemplate.headersEnd E fuel).
Proof.
  unfold TSTemplate.headersEnd. apply throws_only_bind; [|intros; throws_template].
  induction fuel as [|fuel IH]; intros st e st'; cbn [TSTemplate._processGenerateQueue];
    destruct (last (generateQueue st)) as [cls|]; try discriminate.
  revert st e st'.
  change (throws_only P
            (modify (set_generateQueue (fun q => removelast q)) ;;;
             TSTemplate._processHeader E cls ;;;
             TSTemplate._processGenerateQueue E fuel)).
  repeat lazymatch goal with
         | |- throws_only _ (TSTemplate._processHeader _ _) => apply _processHeader_throws
         | |- throws_only _ (TSTemplate._processGenerateQueue _ _) => apply IH
         | |- _ => throws_step
         end.
Qed.

Lemma constructor_throws : throws_only P (TSTemplate.constructor E).
Proof.
  unfold TSTemplate.constructor, TSTemplate.headersStart,
    TSTemplate.generateArrayDefinition, TSTemplate.generateMiscDefinitions.
  throws_template.
Qed.

Lemma JS_classStart_throws n : throws_only P (JSTemplate.classStart n).
Proof.
  unfold JSTemplate.classStart.
  repeat lazymatch goal with
         | |- throws_only _ (fun st => if _ then _ else _) =>
             intros st e st'; destruct (firstClass st); discriminate
         | |- _ => throws_step
         end.
Qed.

Lemma JS_method_throws a b c d e : throws_only P (JSTemplate.method a b c d e).
Proof.
  unfold JSTemplate.method.
  repeat lazymatch goal with
         | |- throws_only _ (fun st => if _ then _ else _) =>
             intros st e0 st'; destruct (firstMethod st); discriminate
         | |- _ => throws_step
         end.
Qed.

(** The two templates of a run. *)
Lemma processClassData_throws classData :
  throws_only P (processClassData (if typescript E then TSTemplate_ E else JSTemplate_)
                   classData).
Proof.
  assert (Hms : forall fixed ms found,
            throws_only P (processMethods (if typescript E then TSTemplate_ E else JSTemplate_)
                             classData fixed ms found)).
  { intros fixed ms. induction ms as [|m ms IH]; intros found; cbn [processMethods];
      [throws_step|].
    destruct (typescript E); cbn [classStart method TSTemplate_ JSTemplate_] in *;
      unfold TSTemplate.classStart, TSTemplate.method;
      repeat lazymatch goal with
             | |- throws_only _ (processMethods _ _ _ _ _) => apply IH
             | |- throws_only _ (JSTemplate.classStart _) => apply JS_classStart_throws
             | |- throws_only _ (JSTemplate.method _ _ _ _ _) => apply JS_method_throws
             | |- _ => throws_template
             end. }
  unfold processClassData.
  apply throws_only_bind; [apply Hms | intros found].
  destruct found; [|apply throws_only_ret].
  destruct (typescript E); cbn [classEnd TSTemplate_ JSTemplate_];
    unfold TSTemplate.classEnd, JSTemplate.classEnd; throws_template.
Qed.

Lemma fileStart_throws :
  throws_only P (fileStart (if typescript E then TSTemplate_ E else JSTemplate_)).
Proof.
  destruct (typescript E); cbn [fileStart TSTemplate_ JSTemplate_];
    unfold TSTemplate.fileStart, JSTemplate.fileStart; throws_template.
Qed.

Lemma fileEnd_throws :
  throws_only P (fileEnd (if typescript E then TSTemplate_ E else JSTemplate_)).
Proof.
  destruct (typescript E); cbn [fileEnd TSTemplate_ JSTemplate_];
    unfold TSTemplate.fileEnd, TSTemplate.fileEnd_entry, JSTemplate.fileEnd; throws_template.
Qed.

Lemma mainBody_throws fuel :
  throws_only P (mainBody E fuel (if typescript E then TSTemplate_ E else JSTemplate_)).
Proof.
  unfold mainBody, processClasses.
  repeat lazymatch goal with
         | |- throws_only _ (fileStart _) => apply fileStart_throws
         | |- throws_only _ (fileEnd _) => apply fileEnd_throws
         | |- throws_only _ (processClassData _ _) => apply processClassData_throws
         | |- throws_only _ (TSTemplate.headersEnd _ _) => apply headersEnd_throws
         | |- _ => throws_template
         end.
Qed.

End TemplateThrows.

(** ** JavaScript runs *)

Lemma nd_forEach {A} (f : A -> M unit) (l : list A) :
  (forall x, never_diverges (f x)) -> never_diverges (forEach f l).
Proof.
  intros Hf. induction l as [|x l IH]; cbn [forEach]; [apply nd_ret|].
  apply nd_bind; [apply Hf | intros _; exact IH].
Qed.

Lemma JS_classStart_never_diverges n : never_diverges (JSTemplate.classStart n).
Proof.
  unfold JSTemplate.classStart.
  apply nd_bind; [apply nd_modify | intros _].
  apply nd_bind; [|intros _; apply nd_modify].
  intros st. by destruct (firstClass st).
Qed.

Lemma JS_method_never_diverges a b c d e : never_diverges (JSTemplate.method a b c d e).
Proof.
  unfold JSTemplate.method.
  apply nd_bind; [intros st; by destruct (firstMethod st) | intros _].
  apply nd_bind; [apply nd_modify | intros _].
  apply nd_bind; [apply nd_modify | intros _]. apply nd_modify.
Qed.

Lemma JS_processMethods_never_diverges classData fixed ms found :
  never_diverges (processMethods JSTemplate_ classData fixed ms found).
Proof.
  revert found; induction ms as [|m ms IH]; intros found; cbn [processMethods];
    [apply nd_ret|].
  apply nd_bind; [|intros; apply IH].
  destruct (m_isNative m); [|apply nd_ret].
  apply nd_bind.
  - destruct (negb found); [apply JS_classStart_never_diverges | apply nd_ret].
  - intros _. apply nd_bind; [apply JS_method_never_diverges | intros _; apply nd_ret].
Qed.

Lemma JS_mainBody_never_diverges E fuel :
  typescript E = false -> never_diverges (mainBody E fuel JSTemplate_).
Proof.
  intros Hjs. unfold mainBody. rewrite Hjs.
  apply nd_bind; [apply nd_modify | intros _].
  apply nd_bind; [|intros _; apply nd_bind; [apply nd_modify | intros _; apply nd_ret]].
  unfold processClasses. apply nd_forEach. intros desc.
  apply nd_bind; [apply findClass_never_diverges | intros cd].
  destruct cd; try apply nd_throw.
  unfold processClassData. apply nd_bind; [apply JS_processMethods_never_diverges|].
  intros found. destruct found; [apply nd_modify | apply nd_ret].
Qed.




(** ** What the JavaScript template writes to the stub *)

Lemma join_cons (sep x : string) (l : list string) :
  JS.join sep (x :: l) = x +:+ separated sep l.
Proof.
  revert x; induction l as [|y l IH]; intros x.
  - unfold separated, texts. simpl. by rewrite append_nil_r.
  - change (JS.join sep (x :: y :: l)) with (x +:+ sep +:+ JS.join sep (y :: l)).
    rewrite IH. unfold separated, texts. simpl. by rewrite !append_assoc.
Qed.

Lemma separated_cons (sep x : string) (l : list string) :
  separated sep (x :: l) = sep +:+ x +:+ separated sep l.
Proof. unfold separated, texts. simpl. by rewrite append_assoc. Qed.

Lemma listed_cons first sep x l :
  listed first sep (x :: l) = (if first then "" else sep) +:+ x +:+ listed false sep l.
Proof.
  unfold listed. destruct first; [by rewrite join_cons | by rewrite separated_cons].
Qed.

Lemma JS_method_writes classDesc methodName isStatic argTypes rType st :
  exists st',
    JSTemplate.method classDesc methodName isStatic argTypes rType st = (Ok tt, st')
    /\ stub st' = stub st +:+ (if firstMethod st then "" else "," +:+ nl)
                  +:+ JS_method_text methodName isStatic argTypes
    /\ firstMethod st' = false
    /\ firstClass st' = firstClass st
    /\ cache st' = cache st.
Proof.
  unfold JSTemplate.method, bind, write, modify.
  destruct (firstMethod st) eqn:Hf; eexists; (split; [reflexivity|]);
    cbn [stub firstMethod firstClass cache set_stub set_firstMethod]; cbv iota;
    (split; [|done]); unfold JS_method_text; cbv zeta;
    by rewrite !append_assoc, ?append_nil_l.
Qed.

Lemma forEach_JS_method_writes classDesc (ms : list Method) st st' :
  forEach (fun m => JSTemplate.method classDesc (signature m) (m_isStatic m)
                      (parameterTypes m) (returnType m)) ms st = (Ok tt, st') ->
  stub st' = stub st +:+
             listed (firstMethod st) ("," +:+ nl)
               (map (fun m => JS_method_text (signature m) (m_isStatic m) (parameterTypes m)) ms)
  /\ firstClass st' = firstClass st
  /\ cache st' = cache st.
Proof.
  revert st; induction ms as [|m ms IH]; intros st H; cbn [forEach map] in *.
  - apply ret_Ok_inv in H as [_ <-]. unfold listed. destruct (firstMethod st);
      simpl; by rewrite append_nil_r.
  - destruct (JS_method_writes classDesc (signature m) (m_isStatic m) (parameterTypes m)
                (returnType m) st) as (s1 & Hm & T1 & F1 & K1 & C1).
    rewrite (bind_step _ _ _ _ _ Hm) in H.
    apply IH in H as (T & K & C). rewrite T, T1, K, K1, C, C1, F1, listed_cons.
    split; [by rewrite !append_assoc | done].
Qed.


Lemma JS_classStart_writes className st :
  exists st',
    JSTemplate.classStart className st = (Ok tt, st')
    /\ stub st' = stub st +:+ (if firstClass st then "" else "," +:+ nl)
                  +:+ (nl +:+ "  '" +:+ JS.replace_char "_" "/" className +:+ "': {" +:+ nl)
    /\ firstMethod st' = true
    /\ firstClass st' = false
    /\ cache st' = cache st.
Proof.
  unfold JSTemplate.classStart, bind, write, modify.
  cbn [firstClass set_firstMethod].
  destruct (firstClass st) eqn:Hf; eexists; (split; [reflexivity|]);
    cbn [stub firstMethod firstClass cache set_stub set_firstMethod set_firstClass];
    cbv iota; (split; [|done]); by rewrite ?append_assoc, ?append_nil_l.
Qed.

(** What [processClassData] writes with the JavaScript template. *)
Lemma JS_processClassData_writes r st st' :
  processClassData JSTemplate_ r st = (Ok tt, st') ->
  match JS_class_text r with
  | None => stub st' = stub st /\ firstClass st' = firstClass st
  | Some t =>
      stub st' = stub st +:+ (if firstClass st then "" else "," +:+ nl) +:+ t
      /\ firstClass st' = false
  end
  /\ cache st' = cache st.
Proof.
  intros Hrun. unfold processClassData in Hrun. fold (fixedClassName r) in Hrun.
  apply bind_Ok_inv in Hrun as (found & s1 & Hms & Hrun).
  rewrite processMethods_not_found in Hms.
  unfold JS_class_text, nativeMethods.
  destruct (List.filter m_isNative (getMethods r)) as [|m ms].
  - apply ret_Ok_inv in Hms as [<- <-]. by apply ret_Ok_inv in Hrun as [_ <-].
  - cbn [classStart method classEnd JSTemplate_] in Hms, Hrun.
    destruct (JS_classStart_writes (fixedClassName r) st) as (s2 & Hs & T2 & F2 & K2 & C2).
    rewrite (bind_step _ _ _ _ _ Hs) in Hms.
    apply bind_Ok_inv in Hms as ([] & s3 & Hm & Hms).
    apply ret_Ok_inv in Hms as [<- <-].
    apply forEach_JS_method_writes in Hm as (T3 & K3 & C3).
    injection Hrun as <-.
    cbn [stub firstClass cache set_stub]. rewrite T3, T2, K3, K2, C3, C2, F2.
    unfold listed. split; [|done]. split; [|done]. by rewrite !append_assoc.
Qed.

Lemma omap_cons_Some {A B} (f : A -> option B) x y l :
  f x = Some y -> omap f (x :: l) = y :: omap f l.
Proof. intros H. change (omap f (x :: l)) with (match f x with Some y => y :: omap f l | None => omap f l end). by rewrite H. Qed.

Lemma omap_cons_None {A B} (f : A -> option B) x l :
  f x = None -> omap f (x :: l) = omap f l.
Proof. intros H. change (omap f (x :: l)) with (match f x with Some y => y :: omap f l | None => omap f l end). by rewrite H. Qed.

(** The loop over the requested descriptors, with the JavaScript
    template. *)
Lemma JS_processClasses_writes E (descs : list string) st st' :
  cache_canonical E st ->
  forEach (fun desc =>
             cd <- findClass E (stackDepth E) desc ;;
             match cd with
             | ReferenceCD classData => processClassData JSTemplate_ classData
             | _ => throw "TypeError: classData.getMethods is not a function"
             end) descs st = (Ok tt, st') ->
  stub st' = stub st +:+
             listed (firstClass st) ("," +:+ nl) (omap JS_class_text (requested E descs)).
Proof.
  revert st; induction descs as [|d descs IH]; intros st Hcan H; cbn [forEach] in H.
  - apply ret_Ok_inv in H as [_ <-]. unfold listed. destruct (firstClass st);
      simpl; by rewrite append_nil_r.
  - apply bind_Ok_inv in H as ([] & s2 & Hd & H).
    apply bind_Ok_inv in Hd as (cd & s1 & Hfind & Hd).
    pose proof (findClass_canonical E (stackDepth E) d st Hcan) as Hfc. cbn zeta in Hfc.
    rewrite Hfind in Hfc. destruct Hfc as [Hcan1 Hval]. specialize (Hval cd eq_refl).
    assert (U1 : stub s1 = stub st /\ firstClass s1 = firstClass st).
    { split; eapply (always_run (same _)); try exact Hfind;
        apply findClass_always; try typeclasses eauto; done. }
    destruct U1 as [U1 K1].
    destruct cd as [r| |]; try discriminate.
    apply JS_processClassData_writes in Hd as [Hd C2].
    assert (Hcan2 : cache_canonical E s2) by (intros x cd; rewrite C2; apply Hcan1).
    apply (IH s2 Hcan2) in H. rewrite requested_cons, <- Hval, H.
    destruct (JS_class_text r) as [t|] eqn:Ht.
    + destruct Hd as [T2 K2]. rewrite (omap_cons_Some _ _ _ _ Ht), listed_cons.
      rewrite T2, K2, U1, K1. by rewrite !append_assoc.
    + destruct Hd as [T2 K2]. rewrite (omap_cons_None _ _ _ Ht).
      by rewrite T2, K2, U1, K1.
Qed.

(** X24: the JavaScript stub is one object literal.  When a JavaScript
    run from the initial state returns, the stub holds the opening of the
    [registerNatives] call, then one entry for each requested class that
    has native methods, in the order requested, each entry holding one
    function per native method in the order of declaration, and then the
    closing; entries and functions are separated by commas, with no comma
    before the first and none after the last, and classes without native
    methods leave no trace. *)
Theorem javascript_stub_contents (E : Env) (fuel : nat) (st' : State) :
  typescript E = false ->
  main E fuel initialState = (Ok tt, st') ->
  stub st' = JS_stub_text E.
Proof.
  intros Hjs Hrun. rewrite main_javascript in Hrun by exact Hjs.
  unfold mainBody in Hrun. rewrite Hjs in Hrun.
  apply bind_Ok_inv in Hrun as ([] & s1 & [= <-] & Hrun).
  apply bind_Ok_inv in Hrun as ([] & s2 & Hcls & Hrun).
  apply bind_Ok_inv in Hrun as ([] & s3 & [= <-] & Hrun).
  apply ret_Ok_inv in Hrun as [_ <-].
  unfold processClasses in Hcls. apply JS_processClasses_writes in Hcls.
  - cbn [stub set_stub]. rewrite Hcls. unfold JS_stub_text, listed.
    cbn [stub firstClass set_stub initialState]. by rewrite append_nil_l, !append_assoc.
  - intros d cd Hd. cbn [cache set_stub initialState] in Hd.
    by rewrite lookup_empty in Hd.
Qed.

Lemma javascript_stub_contents_witness :
  stub (snd (main (Samples.env false None ["LPlain;"; "LNat;"]) 0 initialState))
  = JS_stub_text (Samples.env false None ["LPlain;"; "LNat;"]).
Proof.
  apply (javascript_stub_contents (Samples.env false None ["LPlain;"; "LNat;"]) 0).
  - reflexivity.
  - vm_compute. reflexivity.
Defined.

(** X25: the TypeScript stub.  When a TypeScript run from the initial
    state returns, the stub holds the imports, then one class for each
    requested class that has native methods, in the order requested, each
    with one static method per native method in the order of
    declaration, and then the [registerNatives] call that lists just
    these classes, in the same order; [classesSeen] is the list of their
    names. *)
Theorem typescript_stub_contents (E : Env) (fuel : nat) (st' : State) :
  typescript E = true ->
  main E fuel initialState = (Ok tt, st') ->
  stub st' = TS_stub_text E
  /\ classesSeen st' = concat (map TS_class_seen (requested E (classes E))).
Proof.
  intros Hts Hrun. split; [by eapply main_typescript_stub|].
  rewrite main_typescript in Hrun by done.
  unfold mainBody in Hrun. rewrite Hts in Hrun.
  apply bind_Ok_inv in Hrun as ([] & s1 & Hcons & Hrun).
  pose proof (always_run _ _ _ _ _ (constructor_stub_untouched E) Hcons) as [U1 V1].
  assert (Hcan1 : cache_canonical E s1).
  { eapply (always_run (keeps_canonical E));
      [apply constructor_keeps_canonical | exact Hcons |].
    intros d cd Hd. change (cache initialState) with (∅ : gmap string ClassData) in Hd.
    by rewrite lookup_empty in Hd. }
  apply bind_Ok_inv in Hrun as ([] & s2 & [= <-] & Hrun).
  apply bind_Ok_inv in Hrun as ([] & s3 & Hcls & Hrun).
  unfold processClasses in Hcls.
  apply TS_processClasses_writes in Hcls as [_ V3]; [|exact Hcan1].
  apply bind_Ok_inv in Hrun as ([] & s4 & Hend & Hrun).
  assert (V4 : classesSeen s4 = classesSeen s3).
  { eapply (always_run (same classesSeen)); [|exact Hend].
    apply TS_fileEnd_always; [typeclasses eauto | done]. }
  pose proof (always_run _ _ _ _ _ (headersEnd_stub_untouched E fuel) Hrun) as [_ V5].
  rewrite V5, V4, V3. cbn [classesSeen set_stub]. by rewrite V1.
Qed.

Lemma typescript_stub_contents_witness :
  stub (snd (main (Samples.env true None ["LPlain;"; "LNat;"]) 16 initialState))
  = TS_stub_text (Samples.env true None ["LPlain;"; "LNat;"])
  /\ classesSeen (snd (main (Samples.env true None ["LPlain;"; "LNat;"]) 16 initialState))
     = concat (map TS_class_seen
                 (requested (Samples.env true None ["LPlain;"; "LNat;"]) ["LPlain;"; "LNat;"])).
Proof.
  apply (typescript_stub_contents (Samples.env true None ["LPlain;"; "LNat;"]) 16).
  - reflexivity.
  - vm_compute. reflexivity.
Defined.


(** ** What a declaration seeds *)

Lemma seeded_grows st st' desc : headerSet_grows st st' -> seeded st desc -> seeded st' desc.
Proof. intros Hg Hs HL. by apply Hg, Hs. Qed.

Lemma seeds_ret {A} (a : A) : seeds (ret a) [].
Proof. intros st a' st' [= _ <-]. split; [reflexivity | constructor]. Qed.

Lemma seeds_write s : seeds (headerStream_write s) [].
Proof. intros st [] st' [= <-]. split; [by apply headerSet_grows_same | constructor]. Qed.

Lemma seeds_bind {A B} (m : M A) (k : A -> M B) ds1 ds2 :
  seeds m ds1 -> (forall a, seeds (k a) ds2) -> seeds (bind m k) (ds1 ++ ds2).
Proof.
  intros Hm Hk st b st' H. apply bind_Ok_inv in H as (a & s1 & H1 & H2).
  apply Hm in H1 as [G1 S1]. apply Hk in H2 as [G2 S2].
  split; [by etrans|]. apply Forall_app. split; [|exact S2].
  eapply Forall_impl; [exact S1|]. intros d. by apply seeded_grows.
Qed.

Lemma seeds_weaken {A} (m : M A) ds ds' :
  (forall d, d ∈ ds' -> d ∈ ds) -> seeds m ds -> seeds m ds'.
Proof.
  intros Hsub Hm st a st' Hrun. apply Hm in Hrun as [G S]. split; [exact G|].
  rewrite Forall_forall in S |- *. intros d Hd. by apply S, Hsub.
Qed.

Lemma seeds_forEach {A} (f : A -> M unit) (T : A -> list string) (l : list A) :
  (forall x, seeds (f x) (T x)) -> seeds (forEach f l) (flat_map T l).
Proof.
  intros Hf. induction l as [|x l IH]; cbn [forEach flat_map].
  - apply seeds_ret.
  - apply seeds_bind; [apply Hf | intros _; exact IH].
Qed.

Lemma seeds_bind_nil_l {A B} (m : M A) (k : A -> M B) ds :
  seeds m [] -> (forall a, seeds (k a) ds) -> seeds (bind m k) ds.
Proof. intros Hm Hk. by apply (seeds_bind m k [] ds). Qed.

Lemma seeds_bind_nil_r {A B} (m : M A) (k : A -> M B) ds :
  seeds m ds -> (forall a, seeds (k a) []) -> seeds (bind m k) ds.
Proof.
  intros Hm Hk. eapply seeds_weaken; [|by apply (seeds_bind m k ds [])].
  intros d Hd. by rewrite app_nil_r.
Qed.

Lemma seeds_bind_cons {A B} (m : M A) (k : A -> M B) d ds :
  seeds m [d] -> (forall a, seeds (k a) ds) -> seeds (bind m k) (d :: ds).
Proof. intros Hm Hk. by apply (seeds_bind m k [d] ds). Qed.

Lemma seeds_forEach_nothing {A} (f : A -> M unit) (l : list A) :
  (forall x, seeds (f x) []) -> seeds (forEach f l) [].
Proof.
  intros Hf. induction l as [|x l IH]; cbn [forEach]; [apply seeds_ret|].
  apply seeds_bind_nil_l; [apply Hf | intros _; exact IH].
Qed.

Lemma seeds_mapM_each {A B} (f : A -> M B) (g : A -> string) (l : list A) :
  (forall x, seeds (f x) [g x]) -> seeds (mapM f l) (map g l).
Proof.
  intros Hf. induction l as [|x l IH]; cbn [mapM map]; [apply seeds_ret|].
  apply seeds_bind_cons; [apply Hf|]. intros y.
  apply seeds_bind_nil_r; [exact IH | intros; apply seeds_ret].
Qed.

Lemma jvmtype2tstype_seeds E desc prefix :
  seeds (TSTemplate.jvmtype2tstype E desc prefix) [desc].
Proof.
  intros st s st' Hrun. split.
  { eapply always_run; [|exact Hrun].
    apply jvmtype2tstype_always; [typeclasses eauto|].
    apply generateClassDefinition_headerSet_grows. }
  constructor; [|constructor].
  revert st s st' Hrun; induction desc as [|c desc IH]; intros st s st' Hrun; [discriminate|].
  cbn [TSTemplate.jvmtype2tstype] in Hrun. unfold seeded. cbn [base_descriptor].
  destruct (Ascii.eqb c "[") eqn:Harr.
  - apply bind_Ok_inv in Hrun as (inner & s1 & Hinner & Hret).
    apply ret_Ok_inv in Hret as [_ <-]. by eapply IH.
  - intros HL. cbn [JS.head_is] in HL. rewrite HL in Hrun.
    apply bind_Ok_inv in Hrun as ([] & s1 & Hgen & Hret).
    apply ret_Ok_inv in Hret as [_ <-].
    pose proof (generateClassDefinition_marks E (String c desc) st) as Hm.
    rewrite Hgen in Hm. apply Hm.
    + destruct desc; [|reflexivity]. apply Ascii.eqb_eq in HL as ->. reflexivity.
    + cbn [JS.head_is]. exact Harr.
Qed.

Lemma jvmtype2tstype_then_seeds {B} E desc prefix (k : string -> B) :
  seeds (t <- TSTemplate.jvmtype2tstype E desc prefix ;; ret (k t)) [desc].
Proof.
  apply seeds_bind_nil_r; [apply jvmtype2tstype_seeds | intros; apply seeds_ret].
Qed.

Lemma _outputMethod_seeds E m b :
  seeds (TSTemplate._outputMethod E m b)
    ((if String.eqb (returnType m) "V" then [] else [returnType m]) ++ parameterTypes m).
Proof.
  unfold TSTemplate._outputMethod.
  apply seeds_bind.
  { destruct (String.eqb (returnType m) "V");
      [apply seeds_ret | apply jvmtype2tstype_then_seeds]. }
  intros cbSig. apply seeds_bind_nil_r.
  - destruct (0 <? length (parameterTypes m))%nat eqn:Hlen.
    + apply seeds_bind_nil_r; [|intros; apply seeds_ret].
      rewrite <- (map_id (parameterTypes m)) at 2.
      apply (seeds_mapM_each _ id). intros type. apply jvmtype2tstype_then_seeds.
    + destruct (parameterTypes m); [apply seeds_ret | discriminate].
  - intros args. destruct (m_cls_isInterface m).
    + destruct (m_isStatic m); [apply seeds_ret | apply seeds_write].
    + apply seeds_bind_nil_l; [|intros; apply seeds_write].
      destruct (negb b); [apply seeds_write | apply seeds_ret].
Qed.

Lemma _outputField_seeds E f :
  seeds (TSTemplate._outputField E f) (if f_cls_isInterface f then [] else [rawDescriptor f]).
Proof.
  unfold TSTemplate._outputField. destruct (f_cls_isInterface f); [apply seeds_ret|].
  apply seeds_bind_nil_r; [apply jvmtype2tstype_seeds | intros; apply seeds_write].
Qed.

Lemma seeds_modify f :
  (forall st, headerSet (f st) = headerSet st) -> seeds (modify f) [].
Proof.
  intros Hf st [] st' [= <-]. split; [by apply headerSet_grows_same | constructor].
Qed.

Lemma _processHeader_seeds E cls :
  seeds (TSTemplate._processHeader E (ReferenceCD cls)) (named_descriptors cls).
Proof.
  unfold TSTemplate._processHeader, named_descriptors.
  apply seeds_bind_nil_l; [by apply seeds_modify|]. intros _.
  apply seeds_bind; [apply jvmtype2tstype_seeds|]. intros name.
  apply seeds_bind_nil_l; [apply seeds_write|]. intros _.
  apply seeds_bind_nil_l; [by apply seeds_modify|]. intros _.
  apply seeds_bind.
  { destruct (getSuperClassReference cls) as [superName|]; [|apply seeds_ret].
    apply seeds_bind_nil_r; [apply jvmtype2tstype_seeds | intros; apply seeds_write]. }
  intros _. apply seeds_bind.
  { destruct (0 <? length (getInterfaceClassReferences cls))%nat eqn:Hlen.
    - apply seeds_bind_nil_l; [destruct (isInterface cls); apply seeds_write|]. intros _.
      apply seeds_bind_nil_r; [|intros; apply seeds_write].
      rewrite <- (map_id (getInterfaceClassReferences cls)) at 2.
      apply (seeds_mapM_each _ id). intros d. apply jvmtype2tstype_seeds.
    - destruct (getInterfaceClassReferences cls); [apply seeds_ret | discriminate]. }
  intros _.
  apply seeds_bind_nil_l; [apply seeds_write|]. intros _.
  apply seeds_bind_nil_l;
    [apply seeds_forEach_nothing; intros [n t]; apply seeds_write|]. intros _.
  apply seeds_bind_nil_l;
    [apply seeds_forEach_nothing; intros [n t]; apply seeds_write|]. intros _.
  apply seeds_bind_nil_l;
    [apply seeds_forEach_nothing; intros [n t]; apply seeds_write|]. intros _.
  apply seeds_bind; [apply seeds_forEach; intros; apply _outputField_seeds|]. intros _.
  apply seeds_bind; [apply seeds_forEach; intros; apply _outputMethod_seeds|]. intros _.
  apply seeds_bind_nil_r; [apply seeds_forEach; intros; apply _outputMethod_seeds|].
  intros; apply seeds_write.
Qed.

(** X26: a declaration seeds everything it names.  When
    [_processHeader] returns, the reference class at the base of every
    descriptor that the declaration names -- the class itself, its
    superclass and interfaces, the types of its fields and the return
    and parameter types of its methods, arrays counting for their
    component -- is marked for the header.  This includes the types of
    the static methods of an interface, for which no line is written. *)
Theorem declaration_seeds_what_it_names (E : Env) (cls : ReferenceClassData)
    (st st' : State) (desc : string) :
  TSTemplate._processHeader E (ReferenceCD cls) st = (Ok tt, st') ->
  desc ∈ named_descriptors cls ->
  JS.head_is "L" (base_descriptor desc) = true ->
  is_Some (headerSet st' !! base_descriptor desc).
Proof.
  intros Hrun Hin HL. apply _processHeader_seeds in Hrun as [_ Hs].
  rewrite Forall_forall in Hs. by apply Hs.
Qed.

Lemma declaration_seeds_what_it_names_witness :
  is_Some (headerSet (snd (TSTemplate._processHeader (Samples.env true None [])
                             (ReferenceCD Samples.Sub) initialState)) !! "Lp/Base;").
Proof.
  apply (declaration_seeds_what_it_names (Samples.env true None []) Samples.Sub initialState
           (snd (TSTemplate._processHeader (Samples.env true None [])
                   (ReferenceCD Samples.Sub) initialState)) "Lp/Base;").
  - vm_compute. reflexivity.
  - unfold named_descriptors. cbn. rewrite !elem_of_cons. tauto.
  - reflexivity.
Defined.


(** ** Invariants of the computations that return *)

Section Preserves.
Context (I : State -> Prop).

Lemma preserves_ret {A} (a : A) : preserves I (ret a).
Proof. intros st a' st' HI [= _ <-]. exact HI. Qed.

Lemma preserves_throw {A} (e : string) : preserves I (@throw A e).
Proof. intros st a st' _. discriminate. Qed.

Lemma preserves_lift {A} (o : outcome A) : preserves I (lift o).
Proof. intros st a st' HI [= _ <-]. exact HI. Qed.

Lemma preserves_read {A} (f : State -> A) : preserves I (fun st => (Ok (f st), st)).
Proof. intros st a st' HI [= _ <-]. exact HI. Qed.

Lemma preserves_modify (f : State -> State) :
  (forall st, I st -> I (f st)) -> preserves I (modify f).
Proof. intros Hf st [] st' HI [= <-]. by apply Hf. Qed.

Lemma preserves_bind {A B} (m : M A) (k : A -> M B) :
  preserves I m -> (forall a, preserves I (k a)) -> preserves I (bind m k).
Proof.
  intros Hm Hk st b st' HI H. apply bind_Ok_inv in H as (a & s1 & H1 & H2).
  eapply Hk; [|exact H2]. by eapply Hm.
Qed.

Lemma preserves_forEach {A} (f : A -> M unit) (l : list A) :
  (forall x, preserves I (f x)) -> preserves I (forEach f l).
Proof.
  intros Hf. induction l as [|x l IH]; cbn [forEach]; [apply preserves_ret|].
  apply preserves_bind; [apply Hf | intros _; exact IH].
Qed.

Lemma preserves_mapM {A B} (f : A -> M B) (l : list A) :
  (forall x, preserves I (f x)) -> preserves I (mapM f l).
Proof.
  intros Hf. induction l as [|x l IH]; cbn [mapM]; [apply preserves_ret|].
  apply preserves_bind; [apply Hf | intros y].
  apply preserves_bind; [exact IH | intros ys; apply preserves_ret].
Qed.

Lemma preserves_mapMi {A B} (f : A -> nat -> M B) (i : nat) (l : list A) :
  (forall x j, preserves I (f x j)) -> preserves I (mapMi f i l).
Proof.
  intros Hf. revert i; induction l as [|x l IH]; intros i; cbn [mapMi];
    [apply preserves_ret|].
  apply preserves_bind; [apply Hf | intros y].
  apply preserves_bind; [apply IH | intros ys; apply preserves_ret].
Qed.

End Preserves.

(** Splits a goal [preserves I m] along the structure of [m]. *)
Ltac preserves_step :=
  lazymatch goal with
  | |- preserves _ (bind _ _) => apply preserves_bind; [ | intros]
  | |- preserves _ (ret _) => apply preserves_ret
  | |- preserves _ (throw _) => apply preserves_throw
  | |- preserves _ (lift _) => apply preserves_lift
  | |- preserves _ (forEach _ _) => apply preserves_forEach; intros
  | |- preserves _ (mapM _ _) => apply preserves_mapM; intros
  | |- preserves _ (mapMi _ _ _) => apply preserves_mapMi; intros
  | |- preserves _ (fun st => (Ok _, st)) => apply preserves_read
  | |- preserves _ (modify _) => apply preserves_modify; intros; try solve [auto]
  | |- preserves _ (log _) => unfold log; apply preserves_modify; intros; try solve [auto]
  | |- preserves _ (write _) => unfold write; apply preserves_modify; intros; try solve [auto]
  | |- preserves _ (headerStream_write _) =>
      unfold headerStream_write; apply preserves_modify; intros; try solve [auto]
  | |- preserves _ (if ?b then _ else _) => destruct b
  | |- preserves _ (match ?x with _ => _ end) => destruct x
  | |- preserves _ ((fun _ => _) _) => cbv beta
  end.

Section TemplatePreserves.
Context (I : State -> Prop) (E : Env).
Hypothesis I_find : forall depth d, preserves I (findClass E depth d).
Hypothesis I_generate : forall d, preserves I (TSTemplate.generateClassDefinition E d).
Hypothesis I_header : forall s st, I st -> I (set_headerStream (fun t => t +:+ s) st).
Hypothesis I_stub : forall s st, I st -> I (set_stub (fun t => t +:+ s) st).
Hypothesis I_seen : forall c st, I st -> I (set_classesSeen (fun l => l ++ [c]) st).
Hypothesis I_count : forall st, I st -> I (set_headerCount S st).
Hypothesis I_emit : forall c st, I st -> I (set_trace (fun t => t ++ [EvEmit c]) st).
Hypothesis I_pop : forall st, I st -> I (set_generateQueue (fun q => removelast q) st).

Lemma jvmtype2tstype_preserves desc prefix :
  preserves I (TSTemplate.jvmtype2tstype E desc prefix).
Proof.
  induction desc as [|c desc IH]; cbn [TSTemplate.jvmtype2tstype]; [preserves_step|].
  repeat lazymatch goal with
         | |- preserves _ (TSTemplate.jvmtype2tstype _ desc _) => apply IH
         | |- preserves _ (TSTemplate.generateClassDefinition _ _) => apply I_generate
         | |- _ => preserves_step
         end.
Qed.

Ltac template_preserves :=
  repeat lazymatch goal with
         | |- preserves _ (findClass _ _ _) => apply I_find
         | |- preserves _ (TSTemplate.jvmtype2tstype _ _ _) => apply jvmtype2tstype_preserves
         | |- preserves _ (TSTemplate.generateClassDefinition _ _) => apply I_generate
         | |- _ => preserves_step
         end.

Lemma _processHeader_preserves cls : preserves I (TSTemplate._processHeader E cls).
Proof.
  unfold TSTemplate._processHeader, TSTemplate._outputInjectedField,
    TSTemplate._outputInjectedMethod, TSTemplate._outputInjectedStaticMethod,
    TSTemplate._outputField, TSTemplate._outputMethod.
  template_preserves.
Qed.

Lemma _processGenerateQueue_preserves fuel :
  preserves I (TSTemplate._processGenerateQueue E fuel).
Proof.
  induction fuel as [|fuel IH]; intros st a st' HI; cbn [TSTemplate._processGenerateQueue];
    destruct (last (generateQueue st)) as [cls|]; try discriminate;
    try (by intros [= _ <-]).
  revert st a st' HI.
  change (preserves I
            (modify (set_generateQueue (fun q => removelast q)) ;;;
             TSTemplate._processHeader E cls ;;;
             TSTemplate._processGenerateQueue E fuel)).
  repeat lazymatch goal with
         | |- preserves _ (TSTemplate._processHeader _ _) => apply _processHeader_preserves
         | |- preserves _ (TSTemplate._processGenerateQueue _ _) => apply IH
         | |- _ => preserves_step
         end.
Qed.

Lemma replayLoop_preserves marker n skip existing gas idx :
  preserves I (TSTemplate.replayLoop E marker n skip existing gas idx).
Proof.
  revert idx; induction gas as [|gas IH]; intros idx; cbn [TSTemplate.replayLoop].
  - template_preserves.
  - repeat lazymatch goal with
           | |- preserves _ (TSTemplate.replayLoop _ _ _ _ _ _ _) => apply IH
           | |- _ => template_preserves
           end.
Qed.

Lemma seeding_preserves : preserves I (seeding E).
Proof. unfold seeding. template_preserves. Qed.

Lemma TS_mainBody_preserves fuel :
  typescript E = true -> preserves I (mainBody E fuel (TSTemplate_ E)).
Proof.
  intros Hts. unfold mainBody, processClasses, processClassData. rewrite Hts.
  cbn [fileStart fileEnd TSTemplate_].
  unfold TSTemplate.fileStart, TSTemplate.fileEnd, TSTemplate.fileEnd_entry,
    TSTemplate.headersEnd.
  assert (Hms : forall classData fixed ms found,
            preserves I (processMethods (TSTemplate_ E) classData fixed ms found)).
  { intros classData fixed ms. induction ms as [|m ms IH]; intros found;
      cbn [processMethods]; [preserves_step|].
    cbn [classStart method TSTemplate_].
    unfold TSTemplate.classStart, TSTemplate.method.
    repeat lazymatch goal with
           | |- preserves _ (processMethods _ _ _ _ _) => apply IH
           | |- _ => template_preserves
           end. }
  repeat lazymatch goal with
         | |- preserves _ (processMethods _ _ _ _ _) => apply Hms
         | |- preserves _ (classEnd _ _) => cbn [classEnd TSTemplate_]; unfold TSTemplate.classEnd
         | |- preserves _ (TSTemplate._processGenerateQueue _ _) =>
             apply _processGenerateQueue_preserves
         | |- _ => template_preserves
         end.
Qed.

(** The constructor, when the prior header is missing or is replayed
    without a failure. *)
Lemma constructor_preserves st st' :
  existingHeaders E = None \/ fst (TSTemplate.replayExisting E st) = Ok tt ->
  I st -> TSTemplate.constructor E st = (Ok tt, st') -> I st'.
Proof.
  intros Hprior HI Hrun.
  assert (Hreplay : exists s1,
            try_catch (TSTemplate.replayExisting E) (fun _ => ret tt) st = (Ok tt, s1)
            /\ I s1).
  { destruct Hprior as [Hnone|Hok].
    - exists st. split; [|exact HI].
      unfold try_catch, TSTemplate.replayExisting, bind, throw. by rewrite Hnone.
    - destruct (TSTemplate.replayExisting E st) as [[[]|e|] s1] eqn:Hr; try discriminate.
      exists s1. split; [unfold try_catch; by rewrite Hr|].
      assert (Hp : preserves I (TSTemplate.replayExisting E)).
      { unfold TSTemplate.replayExisting.
        repeat lazymatch goal with
               | |- preserves _ (TSTemplate.replayLoop _ _ _ _ _ _ _) =>
                   apply replayLoop_preserves
               | |- _ => template_preserves
               end. }
      exact (Hp st tt s1 HI Hr). }
  destruct Hreplay as (s1 & Hreplay & HI1).
  change (TSTemplate.constructor E st)
    with ((try_catch (TSTemplate.replayExisting E) (fun _ => ret tt) ;;;
           (TSTemplate.headersStart E ;;;
            TSTemplate.generateArrayDefinition ;;;
            TSTemplate.generateMiscDefinitions ;;;
            seeding E)) st) in Hrun.
  rewrite (bind_step _ _ _ _ _ Hreplay), prelude_then in Hrun.
  eapply seeding_preserves; [|exact Hrun]. by apply I_header.
Qed.

End TemplatePreserves.


(** ** The header is closed under the classes it names *)

Lemma marked_are_pushed_frame E st st' :
  cache st' = cache st -> headerSet st' = headerSet st ->
  pushes (trace st') = pushes (trace st) ->
  marked_are_pushed E st -> marked_are_pushed E st'.
Proof.
  intros Hc Hh Hp [Hcan Hm]. split.
  - intros d cd. rewrite Hc. apply Hcan.
  - intros d. rewrite Hh, Hp. apply Hm.
Qed.

Lemma findClass_marked_are_pushed E depth d :
  preserves (marked_are_pushed E) (findClass E depth d).
Proof.
  intros st rv st' [Hcan Hm] Hrun.
  pose proof (findClass_canonical E depth d st Hcan) as Hfc. cbn zeta in Hfc.
  rewrite Hrun in Hfc. destruct Hfc as [Hcan' _].
  pose proof (always_run _ _ _ _ _ (findClass_resolver_frame E depth d) Hrun)
    as (Hh & _ & Hp & _).
  split; [exact Hcan'|]. intros d'. rewrite Hh, Hp. apply Hm.
Qed.

Lemma generateClassDefinition_marked_are_pushed E desc :
  preserves (marked_are_pushed E) (TSTemplate.generateClassDefinition E desc).
Proof.
  assert (Henq : forall d, preserves (marked_are_pushed E)
    (modify (set_headerSet (<[d := true]>)) ;;;
     cls <- findClass E (stackDepth E) d ;;
     modify (set_generateQueue (fun q => q ++ [cls])) ;;;
     log (EvPush d cls))).
  { intros d st [] st' [Hcan Hm] Hrun.
    apply bind_Ok_inv in Hrun as ([] & s0 & [= <-] & Hrun).
    apply bind_Ok_inv in Hrun as (cls & s1 & Hfind & Hrun).
    apply bind_Ok_inv in Hrun as ([] & s2 & [= <-] & [= <-]).
    pose proof (findClass_canonical E (stackDepth E) d
                  (set_headerSet (<[d := true]>) st) Hcan) as Hfc.
    cbn zeta in Hfc. rewrite Hfind in Hfc. destruct Hfc as [Hcan' Hval]. specialize (Hval cls eq_refl).
    pose proof (always_run _ _ _ _ _ (findClass_resolver_frame E _ _) Hfind)
      as (Hh & _ & Hp & _).
    split; [exact Hcan'|]. intros d'.
    cbn [headerSet trace set_trace set_generateQueue set_headerSet] in *.
    rewrite Hh, pushes_app, Hp. cbn [pushes]. rewrite lookup_insert_is_Some.
    intros [<-|[_ Hd']]; apply elem_of_app; [right | left; by apply Hm].
    rewrite Hval. apply list_elem_of_singleton. reflexivity. }
  induction desc as [|c desc IH]; intros st a st' HI;
    cbn [TSTemplate.generateClassDefinition].
  - destruct (_ || _); [by intros [= _ <-] | by apply Henq].
  - destruct (_ || _); [by intros [= _ <-]|].
    destruct (Ascii.eqb c "["); [by apply IH | by apply Henq].
Qed.

Lemma main_marked_are_pushed E fuel st' :
  typescript E = true ->
  existingHeaders E = None \/ fst (TSTemplate.replayExisting E initialState) = Ok tt ->
  main E fuel initialState = (Ok tt, st') ->
  marked_are_pushed E st'.
Proof.
  intros Hts Hprior Hrun. rewrite main_typescript in Hrun by exact Hts.
  apply bind_Ok_inv in Hrun as ([] & s1 & Hcons & Hrun).
  assert (Hframe : forall st st',
            cache st' = cache st -> headerSet st' = headerSet st ->
            pushes (trace st') = pushes (trace st) ->
            marked_are_pushed E st -> marked_are_pushed E st')
    by apply marked_are_pushed_frame.
  assert (Hemit : forall c st, marked_are_pushed E st ->
            marked_are_pushed E (set_trace (fun t => t ++ [EvEmit c]) st)).
  { intros c st. apply Hframe; try reflexivity.
    cbn [trace set_trace]. by rewrite pushes_app, app_nil_r. }
  eapply (TS_mainBody_preserves (marked_are_pushed E) E); try exact Hrun; try exact Hts;
    try (intros; by apply findClass_marked_are_pushed);
    try (intros; by apply generateClassDefinition_marked_are_pushed);
    try exact Hemit;
    try (intros; by apply (Hframe _ _ eq_refl eq_refl eq_refl)).
  eapply (constructor_preserves (marked_are_pushed E) E); try exact Hcons; try exact Hprior;
    try (intros; by apply findClass_marked_are_pushed);
    try (intros; by apply generateClassDefinition_marked_are_pushed);
    try (intros; by apply (Hframe _ _ eq_refl eq_refl eq_refl)).
  split.
  - intros d cd Hd. cbn [cache initialState] in Hd. by rewrite lookup_empty in Hd.
  - intros d [x Hx]. cbn [headerSet initialState] in Hx. by rewrite lookup_empty in Hx.
Qed.

Lemma _processGenerateQueue_declared E fuel st st' :
  declared_are_seeded st ->
  TSTemplate._processGenerateQueue E fuel st = (Ok tt, st') ->
  declared_are_seeded st'.
Proof.
  revert st; induction fuel as [|fuel IH]; intros st HJ Hrun;
    cbn [TSTemplate._processGenerateQueue] in Hrun;
    destruct (last (generateQueue st)) as [cls|]; try discriminate;
    try (by injection Hrun as <-).
  apply bind_Ok_inv in Hrun as ([] & s1 & [= <-] & Hrun).
  apply bind_Ok_inv in Hrun as ([] & s2 & Hcls & Hrun).
  destruct cls as [cls| |]; try discriminate.
  apply (IH s2); [|exact Hrun].
  pose proof (_processHeader_writes _ _ _ _ Hcls) as (_ & He & _).
  apply _processHeader_seeds in Hcls as [Hg Hs].
  intros cls'. rewrite He. cbn [trace set_generateQueue].
  intros [Hold| ->%list_elem_of_singleton]%elem_of_app; [|exact Hs].
  eapply Forall_impl; [by apply HJ|]. intros d. by apply seeded_grows.
Qed.

Lemma main_declared_are_seeded E fuel st' :
  typescript E = true ->
  main E fuel initialState = (Ok tt, st') ->
  declared_are_seeded st'.
Proof.
  intros Hts Hrun. rewrite main_typescript in Hrun by exact Hts.
  unfold mainBody in Hrun. rewrite Hts in Hrun.
  apply bind_Ok_inv in Hrun as ([] & s1 & Hcons & Hrun).
  apply bind_Ok_inv in Hrun as ([] & s2 & [= <-] & Hrun).
  apply bind_Ok_inv in Hrun as ([] & s3 & Hcls & Hrun).
  apply bind_Ok_inv in Hrun as ([] & s4 & Hend & Hrun).
  unfold TSTemplate.headersEnd in Hrun.
  apply bind_Ok_inv in Hrun as ([] & s5 & Hqueue & [= <-]).
  assert (H5 : declared_are_seeded s5).
  { eapply _processGenerateQueue_declared; [|exact Hqueue].
    intros cls Hin. exfalso.
    assert (He : emits (trace s4) = []).
    { pose proof (constructor_prelude E initialState) as (_ & E1 & _).
      rewrite Hcons in E1. cbn [snd] in E1.
      assert (H3 : declares_nothing (set_stub (fun t => t +:+ TS_fileStart_text E) s1) s3).
      { eapply always_run; [|exact Hcls].
        apply TS_processClasses_always; try typeclasses eauto; try done.
        - intros. apply findClass_declares_nothing.
        - intros. apply generateClassDefinition_declares_nothing. }
      assert (H4 : declares_nothing s3 s4).
      { eapply always_run; [|exact Hend].
        apply TS_fileEnd_always; [typeclasses eauto | done]. }
      destruct H3 as (_ & E3 & _), H4 as (_ & E4 & _).
      rewrite E4, E3. cbn [trace set_stub]. by rewrite E1. }
    rewrite He in Hin. by apply elem_of_nil in Hin. }
  intros cls Hin. apply H5. exact Hin.
Qed.

(** X27: the header is closed under the classes it names.  When a
    TypeScript run returns, and the prior header was missing or was
    replayed without a failure, then for every class declared in the
    header and every descriptor its declaration names, the reference
    class at the base of that descriptor is on the class path and is
    itself declared in the header.  (After a replay that failed half-way
    a class can stay marked without ever being declared.) *)
Theorem header_is_closed (E : Env) (fuel : nat) (st' : State)
    (cls : ReferenceClassData) (desc : string) :
  typescript E = true ->
  existingHeaders E = None \/ fst (TSTemplate.replayExisting E initialState) = Ok tt ->
  main E fuel initialState = (Ok tt, st') ->
  cls ∈ emits (trace st') ->
  desc ∈ named_descriptors cls ->
  JS.head_is "L" (base_descriptor desc) = true ->
  exists r,
    classpath E (descriptor2typestr (base_descriptor desc)) = Some r
    /\ setResolved r None [] ∈ emits (trace st').
Proof.
  intros Hts Hprior Hrun Hcls Hdesc HL.
  pose proof (main_declared_are_seeded E fuel st' Hts Hrun cls Hcls) as Hseeded.
  rewrite Forall_forall in Hseeded. specialize (Hseeded desc Hdesc HL).
  destruct (main_marked_are_pushed E fuel st' Hts Hprior Hrun) as [_ Hpushed].
  specialize (Hpushed _ Hseeded).
  pose proof (main_settles E fuel Hts) as Hsettled. cbn zeta in Hsettled.
  rewrite Hrun in Hsettled. cbn [fst snd] in Hsettled. destruct Hsettled as [Hacc Hq].
  unfold accounted in Hacc. rewrite Hq, !app_nil_r in Hacc.
  assert (Hin : canon E (base_descriptor desc) ∈ ReferenceCD <$> emits (trace st')).
  { rewrite <- Hacc. apply list_elem_of_fmap. by exists (base_descriptor desc, canon E (base_descriptor desc)). }
  apply list_elem_of_fmap in Hin as (cls' & Heq & Hin').
  unfold canon in Heq. rewrite HL in Heq.
  destruct (classpath E (descriptor2typestr (base_descriptor desc))) as [r|];
    [|discriminate].
  exists r. split; [reflexivity|]. by injection Heq as <-.
Qed.

Lemma header_is_closed_witness :
  exists r,
    classpath (Samples.env true None ["LNat;"]) (descriptor2typestr "Ljava/lang/Object;")
    = Some r
    /\ setResolved r None []
       ∈ emits (trace (snd (main (Samples.env true None ["LNat;"]) 16 initialState))).
Proof.
  apply (header_is_closed (Samples.env true None ["LNat;"]) 16
           (snd (main (Samples.env true None ["LNat;"]) 16 initialState))
           (setResolved Samples.Nat_ None []) "Ljava/lang/Object;").
  - reflexivity.
  - left. reflexivity.
  - vm_compute. reflexivity.
  - apply list_elem_of_In. vm_compute. repeat (first [left; reflexivity | right]).
  - unfold named_descriptors. cbn. rewrite !elem_of_cons. tauto.
  - reflexivity.
Defined.


(** ** The records of the requested classes *)

#[local] Instance keeps_kinds_preorder : PreOrder keeps_kinds.
Proof.
  split; unfold keeps_kinds; [intros st H; exact H | intros ??? H1 H2 H; auto].
Qed.

Lemma keeps_kinds_frame st st' : cache st' = cache st -> keeps_kinds st st'.
Proof. intros Hc H d cd. rewrite Hc. apply H. Qed.

Lemma resolveBody_kind E (rec : string -> M ClassData) descriptor st rv s1 :
  resolveBody E rec descriptor st = (Ok rv, s1) ->
  JS.head_is "L" descriptor = true -> exists r, rv = ReferenceCD r.
Proof.
  intros Hb HL. unfold resolveBody in Hb. rewrite HL in Hb.
  apply bind_Ok_inv in Hb as (r & s2 & _ & Hb).
  apply bind_Ok_inv in Hb as (superClass & s3 & _ & Hb).
  apply bind_Ok_inv in Hb as (interfaceClasses & s4 & _ & Hb).
  apply ret_Ok_inv in Hb as [<- _]. by eexists.
Qed.

Lemma findClass_keeps_kinds E depth descriptor :
  always keeps_kinds (findClass E depth descriptor).
Proof.
  revert descriptor; induction depth as [|depth IH]; intros descriptor st;
    cbn [findClass]; [reflexivity|].
  destruct (cache st !! descriptor) as [cd0|] eqn:Hc; [reflexivity|].
  rewrite resolveClass_unfold.
  assert (Hb : always keeps_kinds (resolveBody E (findClass E depth) descriptor)).
  { unfold resolveBody.
    repeat lazymatch goal with
           | |- always _ (loadClass _ _) =>
               intros s; apply keeps_kinds_frame, loadClass_cache
           | |- always _ (findClass _ _ _) => apply IH
           | |- _ => always_step
           end. }
  specialize (Hb st).
  destruct (resolveBody E (findClass E depth) descriptor st) as [[rv|e|] s1] eqn:Hrun;
    cbn [snd] in *; try exact Hb.
  intros Hk d cd. simpl. destruct (decide (descriptor = d)) as [<-|Hne].
  - rewrite lookup_insert_eq. intros [= <-] HL. by eapply resolveBody_kind.
  - rewrite lookup_insert_ne by done. by apply Hb.
Qed.

Lemma generateClassDefinition_keeps_kinds E desc :
  always keeps_kinds (TSTemplate.generateClassDefinition E desc).
Proof.
  apply generateClassDefinition_always; try typeclasses eauto;
    try (intros; by apply keeps_kinds_frame).
  intros. apply findClass_keeps_kinds.
Qed.

Lemma processClassData_keeps_kinds E classData :
  always keeps_kinds (processClassData (templateOf E) classData).
Proof.
  unfold templateOf. destruct (typescript E).
  - apply TS_processClassData_always; try typeclasses eauto;
      try (intros; by apply keeps_kinds_frame).
    apply generateClassDefinition_keeps_kinds.
  - apply JS_processClassData_always; try typeclasses eauto;
      intros; by apply keeps_kinds_frame.
Qed.

Lemma bind_Throw_inv {A B} (m : M A) (k : A -> M B) st e st' :
  bind m k st = (Throw e, st') ->
  m st = (Throw e, st') \/ exists a s1, m st = (Ok a, s1) /\ k a s1 = (Throw e, st').
Proof.
  unfold bind. destruct (m st) as [[a|e0|] s1]; intros H; try discriminate.
  - right. by exists a, s1.
  - left. by injection H as -> ->.
Qed.

(** The loop over requested reference descriptors throws only what the
    resolution throws. *)
Lemma processClasses_throws (P : string -> Prop) E (descs : list string) st e st' :
  (forall depth d, throws_only P (findClass E depth d)) ->
  cache_kinds st ->
  Forall (fun desc => JS.head_is "L" desc = true) descs ->
  forEach (fun desc =>
             cd <- findClass E (stackDepth E) desc ;;
             match cd with
             | ReferenceCD classData => processClassData (templateOf E) classData
             | _ => throw "TypeError: classData.getMethods is not a function"
             end) descs st = (Throw e, st') ->
  P e.
Proof.
  intros Hfind. revert st; induction descs as [|d descs IH]; intros st Hk Hall Hrun;
    cbn [forEach] in Hrun; [discriminate|].
  apply Forall_cons in Hall as [HL Hall].
  assert (Hstep : forall cd s1, findClass E (stackDepth E) d st = (Ok cd, s1) ->
            cache_kinds s1 /\ exists r, cd = ReferenceCD r).
  { intros cd s1 Hf.
    assert (Hk1 : cache_kinds s1)
      by (eapply (always_run keeps_kinds); [apply findClass_keeps_kinds | exact Hf | exact Hk]).
    split; [exact Hk1|]. apply findClass_Ok_cached in Hf. by eapply Hk1. }
  apply bind_Throw_inv in Hrun as [Hrun|([] & s2 & Hd & Hrun)].
  - apply bind_Throw_inv in Hrun as [Hrun|(cd & s1 & Hf & Hrun)]; [by eapply Hfind|].
    destruct (Hstep _ _ Hf) as [_ [r ->]].
    revert Hrun. unfold templateOf. by apply processClassData_throws.
  - apply (IH s2); [|exact Hall|exact Hrun].
    apply bind_Ok_inv in Hd as (cd & s1 & Hf & Hd).
    destruct (Hstep _ _ Hf) as [Hk1 [r ->]].
    eapply (always_run keeps_kinds); [apply processClassData_keeps_kinds | exact Hd | exact Hk1].
Qed.

Lemma resolution_error_is_no_TypeError e :
  resolution_error e \/ e = "TypeError: cls.getInterfaceClassReferences is not a function" ->
  e <> "TypeError: classData.getMethods is not a function".
Proof. intros [H| ->]; [|discriminate]. destruct H; discriminate. Qed.

(** X28: the cast in the main loop is safe for what [getClasses]
    returns.  If every requested descriptor is a reference descriptor --
    and [getClasses] returns no others -- then, in a run from the initial
    state, every record that [findClass] hands to [processClassData] is
    the record of a reference class: the run never fails with the
    [TypeError] of a missing [getMethods]. *)
Theorem requested_classes_are_reference_classes (E : Env) (fuel : nat) (e : string)
    (st' : State) :
  Forall (fun desc => JS.head_is "L" desc = true) (classes E) ->
  main E fuel initialState = (Throw e, st') ->
  e <> "TypeError: classData.getMethods is not a function".
Proof.
  intros Hall Hrun. apply resolution_error_is_no_TypeError.
  set (P := fun e => resolution_error e
                     \/ e = "TypeError: cls.getInterfaceClassReferences is not a function").
  assert (Hfind : forall depth d, throws_only P (findClass E depth d)).
  { intros. apply (throws_only_weaken resolution_error); [by left | apply findClass_throws]. }
  assert (Hk0 : cache_kinds initialState).
  { intros d cd Hd. cbn [cache initialState] in Hd. by rewrite lookup_empty in Hd. }
  assert (Hbody : forall st, cache_kinds st ->
            mainBody E fuel (templateOf E) st = (Throw e, st') -> P e).
  { intros st Hk Hb. unfold mainBody in Hb.
    apply bind_Throw_inv in Hb as [Hb|([] & s1 & Hs & Hb)].
    { revert Hb. unfold templateOf. by apply fileStart_throws. }
    assert (Hk1 : cache_kinds s1).
    { eapply (always_run keeps_kinds); [|exact Hs|exact Hk].
      unfold templateOf. destruct (typescript E); cbn [fileStart TSTemplate_ JSTemplate_];
        unfold TSTemplate.fileStart, JSTemplate.fileStart;
        always_step; by apply keeps_kinds_frame. }
    apply bind_Throw_inv in Hb as [Hb|([] & s2 & Hc & Hb)].
    { unfold processClasses in Hb. by eapply (processClasses_throws P). }
    apply bind_Throw_inv in Hb as [Hb|([] & s3 & He & Hb)].
    { revert Hb. unfold templateOf. by apply fileEnd_throws. }
    destruct (typescript E); [|discriminate].
    revert Hb. apply headersEnd_throws; [exact Hfind | by right]. }
  unfold main in Hrun. fold (templateOf E) in Hbody.
  destruct (typescript E) eqn:Hts.
  - apply bind_Throw_inv in Hrun as [Hrun|(template & s1 & Hc & Hrun)].
    + apply bind_Throw_inv in Hrun as [Hrun|(? & ? & _ & ?)]; [|discriminate].
      exact (constructor_throws P E Hfind _ _ _ Hrun).
    + apply bind_Ok_inv in Hc as ([] & s0 & Hc & Hret).
      apply ret_Ok_inv in Hret as [<- <-].
      apply (Hbody s0); [|unfold templateOf; by rewrite Hts].
      eapply (always_run keeps_kinds); [|exact Hc|exact Hk0].
      apply constructor_always; try typeclasses eauto;
        try (intros; by apply keeps_kinds_frame).
      apply generateClassDefinition_keeps_kinds.
  - apply (Hbody initialState Hk0). unfold templateOf. rewrite Hts. exact Hrun.
Qed.

Lemma requested_classes_are_reference_classes_witness :
  "Unable to read class file for Lp/Gone;: Error: Unable to find class p/Gone"
  <> "TypeError: classData.getMethods is not a function".
Proof.
  apply (requested_classes_are_reference_classes (Samples.env true None ["Lp/Gone;"]) 16
           "Unable to read class file for Lp/Gone;: Error: Unable to find class p/Gone"
           (snd (main (Samples.env true None ["Lp/Gone;"]) 16 initialState))).
  - repeat constructor.
  - vm_compute. reflexivity.
Defined.


(** ** Hierarchies that never end *)

Lemma loadClass_found E t st r :
  classpath E t = Some r ->
  loadClass E t st = (Ok r, set_trace (fun l => l ++ [EvLoad t]) st).
Proof. intros H. unfold loadClass, bind, log, modify, ret. by rewrite H. Qed.

Lemma bind_throws {A B} (m : M A) (k : A -> M B) st e s1 :
  m st = (Throw e, s1) -> bind m k st = (Throw e, s1).
Proof. intros H. unfold bind. by rewrite H. Qed.

(** X29: a class whose chain of superclasses never ends cannot be
    resolved.  Let [chain] be a set of reference descriptors, each on the
    class path with a superclass that is again in [chain] -- on a finite
    class path, a cycle.  If none of them is cached, [findClass] fails on
    each of them at every depth of the call stack, and none of them is
    cached afterwards. *)
Theorem endless_hierarchy_is_never_resolved (E : Env) (chain : string -> Prop)
    (depth : nat) (descriptor : string) (st : State) :
  (forall d, chain d ->
     JS.head_is "L" d = true
     /\ exists r superName,
          classpath E (descriptor2typestr d) = Some r
          /\ getSuperClassReference r = Some superName
          /\ chain superName) ->
  (forall d, chain d -> cache st !! d = None) ->
  chain descriptor ->
  fails (fst (findClass E depth descriptor st))
  /\ forall d, chain d -> cache (snd (findClass E depth descriptor st)) !! d = None.
Proof.
  intros Hchain. revert descriptor st; induction depth as [|depth IH];
    intros descriptor st Hnone Hd; cbn [findClass].
  { split; [by eexists | exact Hnone]. }
  rewrite (Hnone _ Hd), resolveClass_unfold.
  destruct (Hchain _ Hd) as (HL & r & superName & Hcp & Hsuper & Hnext).
  set (s1 := set_trace (fun t => t ++ [EvLoad (descriptor2typestr descriptor)]) st).
  destruct (IH superName s1 Hnone Hnext) as [[e He] Hnone1].
  destruct (findClass E depth superName s1) as [o s2] eqn:Hfind.
  cbn [fst snd] in He, Hnone1. subst o.
  assert (Hbody : resolveBody E (findClass E depth) descriptor st = (Throw e, s2)).
  { unfold resolveBody. rewrite HL.
    rewrite (bind_step _ _ _ _ _ (loadClass_found E _ st r Hcp)). rewrite Hsuper.
    apply bind_throws, bind_throws. exact Hfind. }
  rewrite Hbody. cbn [fst snd]. split; [by eexists | exact Hnone1].
Qed.

Lemma endless_hierarchy_is_never_resolved_witness :
  fails (fst (findClass (Samples.env true None []) 16 "LA;" initialState))
  /\ forall d, (d = "LA;" \/ d = "LB;") ->
       cache (snd (findClass (Samples.env true None []) 16 "LA;" initialState)) !! d = None.
Proof.
  apply (endless_hierarchy_is_never_resolved (Samples.env true None [])
           (fun d => d = "LA;" \/ d = "LB;") 16 "LA;" initialState).
  - intros d [-> | ->]; (split; [reflexivity|]).
    + exists Samples.A, "LB;". repeat split; auto.
    + exists Samples.B, "LA;". repeat split; auto.
  - intros d _. reflexivity.
  - by left.
Defined.

(** ** The descriptors that the decoder yields *)

Lemma tstype2jvmtype_rec_shape (gas : nat) (tsType : string) :
  match tstype2jvmtype_rec gas tsType with
  | Ok desc =>
      exists n, desc = array_of n "V"
                \/ exists name, desc = array_of n ("L" +:+ name +:+ ";")
  | Throw e => e = "Ambiguous."
  | Diverge => True
  end.
Proof.
  revert tsType; induction gas as [|gas IH]; intros tsType; cbn [tstype2jvmtype_rec].
  - destruct (_ =? 0)%Z; [exact Logic.I|].
    destruct (String.eqb tsType "number"); [reflexivity|].
    destruct (String.eqb tsType "void"); exists 0%nat; [by left | right; by eexists].
  - destruct (_ =? 0)%Z.
    + specialize (IH (JS.slice 9 (JS.len tsType - 1) tsType)).
      destruct (tstype2jvmtype_rec gas _) as [d|e|]; [|exact IH|exact Logic.I].
      destruct IH as [n [-> | [name ->]]]; exists (S n); [by left | right; by exists name].
    + destruct (String.eqb tsType "number"); [reflexivity|].
      destruct (String.eqb tsType "void"); exists 0%nat; [by left | right; by eexists].
Qed.

(** X30: what the decoder can yield.  [tstype2jvmtype] never runs out of
    its recursion budget; when it fails, the message is "Ambiguous."; and
    when it returns, the descriptor is [V] or a reference descriptor,
    possibly under array dimensions -- never a primitive other than
    [V].  So the replay of a prior header only ever hands such
    descriptors to [generateClassDefinition]. *)
Theorem tstype2jvmtype_yields_references (tsType : string) :
  match tstype2jvmtype tsType with
  | Ok desc =>
      exists n, desc = array_of n "V"
                \/ exists name, desc = array_of n ("L" +:+ name +:+ ";")
  | Throw e => e = "Ambiguous."
  | Diverge => False
  end.
Proof.
  pose proof (tstype2jvmtype_total tsType) as Htotal.
  pose proof (tstype2jvmtype_rec_shape (String.length tsType) tsType) as Hshape.
  unfold tstype2jvmtype in *.
  by destruct (tstype2jvmtype_rec (String.length tsType) tsType).
Qed.

(** * Whole resolutions and whole runs *)

(** ** Hierarchies that do not end *)

Lemma bind_run {A B} (m : M A) (k : A -> M B) st :
  bind m k st = match m st with
                | (Ok a, s1) => k a s1
                | (Throw e, s1) => (Throw e, s1)
                | (Diverge, s1) => (Diverge, s1)
                end.
Proof. reflexivity. Qed.

Lemma mapM_endless (C : string -> Prop) (rec : string -> M ClassData) (l : list string) st :
  (forall d s, uncached C s ->
     uncached C (snd (rec d s)) /\ (C d -> forall rv, fst (rec d s) <> Ok rv)) ->
  uncached C st ->
  uncached C (snd (mapM rec l st))
  /\ (forall d, d ∈ l -> C d -> forall rs, fst (mapM rec l st) <> Ok rs).
Proof.
  intros Hrec. revert st; induction l as [|x l IH]; intros st Hnone.
  { split; [exact Hnone|]. intros d Hd. by apply elem_of_nil in Hd. }
  cbn [mapM]. rewrite (bind_run (rec x)).
  destruct (Hrec x st Hnone) as [H1 H2].
  destruct (rec x st) as [[y|e|] s1] eqn:Hx; cbn [fst snd] in *.
  2,3: split; [exact H1 | intros; discriminate].
  destruct (IH s1 H1) as [H3 H4]. rewrite (bind_run (mapM rec l)). unfold ret.
  destruct (mapM rec l s1) as [[ys|e|] s2] eqn:Hl; cbn [fst snd] in *.
  2,3: split; [exact H3 | intros; discriminate].
  split; [exact H3|].
  intros d Hd HC rs. apply elem_of_cons in Hd as [->|Hd].
  - by destruct (H2 HC y).
  - by destruct (H4 d Hd HC ys).
Qed.

Lemma resolveBody_endless E (C : string -> Prop) (rec : string -> M ClassData) descriptor st :
  endless E C ->
  (forall d s, uncached C s ->
     uncached C (snd (rec d s)) /\ (C d -> forall rv, fst (rec d s) <> Ok rv)) ->
  uncached C st ->
  uncached C (snd (resolveBody E rec descriptor st))
  /\ (C descriptor -> forall rv, fst (resolveBody E rec descriptor st) <> Ok rv).
Proof.
  intros Hend Hrec Hnone. unfold resolveBody.
  destruct (JS.head_is "L" descriptor) eqn:HL.
  2: { split.
       - by destruct (JS.head_is "[" descriptor).
       - intros HC. destruct (Hend _ HC) as (d' & [HL' _] & _). congruence. }
  rewrite (bind_run (loadClass E _)).
  destruct (loadClass E (descriptor2typestr descriptor) st) as [[r|e|] s0] eqn:Hload.
  2,3: split; [|intros; discriminate]; cbn [snd]; intros d Hd;
       pose proof (loadClass_cache E (descriptor2typestr descriptor) st) as Hc;
       rewrite Hload in Hc; cbn [snd] in Hc; rewrite Hc; by apply Hnone.
  apply loadClass_inv in Hload as [Hcp ->].
  set (s0 := set_trace _ st).
  assert (H0 : uncached C s0) by exact Hnone.
  assert (Hsuper : let m := match getSuperClassReference r with
                            | Some name => c <- rec name ;; ret (Some c)
                            | None => ret None
                            end in
                   uncached C (snd (m s0))
                   /\ (forall name, getSuperClassReference r = Some name -> C name ->
                         forall c, fst (m s0) <> Ok c)).
  { cbn zeta. destruct (getSuperClassReference r) as [name|].
    - destruct (Hrec name s0 H0) as [H1 H2]. rewrite (bind_run (rec name)). unfold ret.
      destruct (rec name s0) as [[c|e|] s1]; cbn [fst snd] in *.
      + split; [exact H1|]. intros ? [= <-] HC c'. by destruct (H2 HC c).
      + split; [exact H1|]. intros; discriminate.
      + split; [exact H1|]. intros; discriminate.
    - split; [exact H0|]. intros; discriminate. }
  cbn zeta in Hsuper. destruct Hsuper as [H1 H2].
  rewrite (bind_run (match getSuperClassReference r with
                     | Some name => c <- rec name ;; ret (Some c)
                     | None => ret None
                     end)).
  destruct (match getSuperClassReference r with
            | Some name => c <- rec name ;; ret (Some c)
            | None => ret None
            end s0) as [[superClass|e|] s1] eqn:Hs; cbn [fst snd] in *.
  2,3: split; [exact H1 | intros; discriminate].
  destruct (mapM_endless C rec (getInterfaceClassReferences r) s1 Hrec H1) as [H3 H4].
  rewrite (bind_run (mapM rec _)). unfold ret.
  destruct (mapM rec (getInterfaceClassReferences r) s1) as [[ifs|e|] s2] eqn:Hi;
    cbn [fst snd] in *.
  2,3: split; [exact H3 | intros; discriminate].
  split; [exact H3|].
  intros HC rv. exfalso.
  destruct (Hend _ HC) as (d' & [_ (r' & Hcp' & Href)] & HC').
  rewrite Hcp in Hcp'. injection Hcp' as <-.
  destruct Href as [Hsup|Hin].
  - by destruct (H2 d' Hsup HC' superClass).
  - by destruct (H4 d' Hin HC' ifs).
Qed.

Lemma findClass_endless E (C : string -> Prop) depth descriptor st :
  endless E C ->
  uncached C st ->
  uncached C (snd (findClass E depth descriptor st))
  /\ (C descriptor -> forall rv, fst (findClass E depth descriptor st) <> Ok rv).
Proof.
  intros Hend. revert descriptor st; induction depth as [|depth IH];
    intros descriptor st Hnone; cbn [findClass].
  { split; [exact Hnone | intros; discriminate]. }
  destruct (cache st !! descriptor) as [cd|] eqn:Hc.
  { split; [exact Hnone|]. intros HC. rewrite (Hnone _ HC) in Hc. discriminate. }
  rewrite resolveClass_unfold.
  destruct (resolveBody_endless E C (findClass E depth) descriptor st Hend IH Hnone)
    as [H1 H2].
  destruct (resolveBody E (findClass E depth) descriptor st) as [[rv|e|] s1];
    cbn [fst snd] in *.
  - assert (HnC : ~ C descriptor) by (intros HC; by destruct (H2 HC rv)).
    split; [|intros HC; by destruct HnC].
    intros d Hd. simpl. rewrite lookup_insert_ne; [by apply H1|]. by intros ->.
  - split; [exact H1 | intros; discriminate].
  - split; [exact H1 | intros; discriminate].
Qed.

(** ** How a descriptor gets into the cache *)

Lemma pending_mono E st s a b : cache_grows st s -> pending E s a b -> pending E st a b.
Proof.
  intros Hg [Hn Hr]. split; [|exact Hr].
  destruct (cache st !! a) as [cd|] eqn:Ha; [|reflexivity].
  apply Hg in Ha. congruence.
Qed.

Lemma reach_mono E st s a b :
  cache_grows st s -> rtc (pending E s) a b -> rtc (pending E st) a b.
Proof. intros Hg. apply rtc_subrel. intros x y. by apply pending_mono. Qed.

Section Reach.
Context (E : Env) (D : string) (rec : string -> M ClassData).
Hypothesis rec_grows : forall d, always cache_grows (rec d).
Hypothesis rec_reach : forall X s,
  cache s !! D = None -> is_Some (cache (snd (rec X s)) !! D) -> rtc (pending E s) X D.

Lemma mapM_reach (l : list string) st :
  cache st !! D = None ->
  is_Some (cache (snd (mapM rec l st)) !! D) ->
  exists y, y ∈ l /\ rtc (pending E st) y D.
Proof.
  revert st; induction l as [|x l IH]; intros st Hnone Hsome.
  { cbn in Hsome. rewrite Hnone in Hsome. by destruct Hsome. }
  cbn [mapM] in Hsome. rewrite (bind_run (rec x)) in Hsome.
  pose proof (rec_grows x st) as Hg. pose proof (rec_reach x st Hnone) as Hr.
  destruct (rec x st) as [[y|e|] s1] eqn:Hx; cbn [snd] in *.
  2,3: exists x; split; [apply elem_of_cons; by left | by apply Hr].
  destruct (cache s1 !! D) as [cd|] eqn:Hd.
  { exists x. split; [apply elem_of_cons; by left | apply Hr; by eexists]. }
  rewrite (bind_run (mapM rec l)) in Hsome. unfold ret in Hsome.
  destruct (IH s1 Hd) as (z & Hz & Hpath).
  { destruct (mapM rec l s1) as [[ys|e|] s2]; exact Hsome. }
  exists z. split; [apply elem_of_cons; by right | by eapply reach_mono].
Qed.

Lemma resolveBody_reach X st :
  cache st !! D = None ->
  is_Some (cache (snd (resolveBody E rec X st)) !! D) ->
  exists y, refers E X y /\ rtc (pending E st) y D.
Proof.
  intros Hnone Hsome. unfold resolveBody in Hsome.
  destruct (JS.head_is "L" X) eqn:HL.
  2: { destruct (JS.head_is "[" X); cbn in Hsome; rewrite Hnone in Hsome; by destruct Hsome. }
  rewrite (bind_run (loadClass E _)) in Hsome.
  destruct (loadClass E (descriptor2typestr X) st) as [[r|e|] s0] eqn:Hload.
  2,3: pose proof (loadClass_cache E (descriptor2typestr X) st) as Hc;
       rewrite Hload in Hc; cbn [snd] in Hc, Hsome; rewrite Hc, Hnone in Hsome;
       by destruct Hsome.
  apply loadClass_inv in Hload as [Hcp ->].
  set (s0 := set_trace _ st) in *.
  assert (Hn0 : cache s0 !! D = None) by exact Hnone.
  assert (Hg0 : cache_grows st s0) by (by apply cache_grows_frame).
  rewrite (bind_run (match getSuperClassReference r with
                     | Some name => c <- rec name ;; ret (Some c)
                     | None => ret None
                     end)) in Hsome.
  assert (Hsup : forall s1, cache s1 !! D = None -> cache_grows s0 s1 ->
            is_Some (cache (snd ((interfaceClasses <- mapM rec (getInterfaceClassReferences r) ;;
                                  ret (ReferenceCD (setResolved r None interfaceClasses))) s1))
                       !! D) ->
            exists y, refers E X y /\ rtc (pending E st) y D).
  { intros s1 Hn1 Hg1 H. rewrite (bind_run (mapM rec _)) in H. unfold ret in H.
    destruct (mapM_reach (getInterfaceClassReferences r) s1 Hn1) as (y & Hy & Hpath).
    { destruct (mapM rec (getInterfaceClassReferences r) s1) as [[ys|e|] s2]; exact H. }
    exists y. split; [split; [exact HL|]; exists r; split; [exact Hcp | by right]|].
    eapply reach_mono; [|exact Hpath]. by transitivity s0. }
  destruct (getSuperClassReference r) as [name|] eqn:Hname.
  - rewrite (bind_run (rec name)) in Hsome. unfold ret at 1 in Hsome.
    pose proof (rec_grows name s0) as Hg. pose proof (rec_reach name s0 Hn0) as Hr.
    assert (Hedge : refers E X name).
    { split; [exact HL|]. exists r. split; [exact Hcp | by left]. }
    destruct (rec name s0) as [[c|e|] s1]; cbn [snd] in *.
    2,3: exists name; split; [exact Hedge | by apply Hr].
    destruct (cache s1 !! D) as [cd|] eqn:Hd.
    { exists name. split; [exact Hedge | apply Hr; by eexists]. }
    by apply (Hsup s1).
  - unfold ret at 1 in Hsome. by apply (Hsup s0).
Qed.

End Reach.

Lemma findClass_reach E depth X D st :
  cache st !! D = None ->
  is_Some (cache (snd (findClass E depth X st)) !! D) ->
  rtc (pending E st) X D.
Proof.
  revert X st; induction depth as [|depth IH]; intros X st Hnone Hsome; cbn [findClass] in Hsome.
  { cbn in Hsome. rewrite Hnone in Hsome. by destruct Hsome. }
  destruct (cache st !! X) as [cd|] eqn:Hc.
  { cbn in Hsome. rewrite Hnone in Hsome. by destruct Hsome. }
  rewrite resolveClass_unfold in Hsome.
  pose proof (resolveBody_reach E D (findClass E depth) (findClass_cache_grows E depth) IH X st
                Hnone) as Hb.
  destruct (resolveBody E (findClass E depth) X st) as [[rv|e|] s1]; cbn [snd] in *.
  - destruct (decide (X = D)) as [->|Hne]; [reflexivity|].
    simpl in Hsome. rewrite lookup_insert_ne in Hsome by done.
    destruct (Hb Hsome) as (y & Hedge & Hpath). by eapply rtc_l.
  - destruct (Hb Hsome) as (y & Hedge & Hpath). by eapply rtc_l.
  - destruct (Hb Hsome) as (y & Hedge & Hpath). by eapply rtc_l.
Qed.

(** A class whose resolution would have to go through the class itself is
    part of a hierarchy that does not end. *)
Lemma reach_endless E st D y :
  cache st !! D = None -> refers E D y -> rtc (pending E st) y D ->
  endless E (fun z => rtc (pending E st) z D)
  /\ uncached (fun z => rtc (pending E st) z D) st.
Proof.
  intros Hnone Hedge Hpath. split.
  - intros z Hz. destruct Hz as [|z z' D [_ Hzz'] Hz'].
    + by exists y.
    + by exists z'.
  - intros z Hz. destruct Hz as [|z z' D [Hn _] _]; done.
Qed.

(** While a class is being resolved, it is not put into the cache. *)
Lemma resolveBody_not_cached E depth D st :
  cache st !! D = None ->
  cache (snd (resolveBody E (findClass E depth) D st)) !! D = None.
Proof.
  intros Hnone.
  destruct (cache (snd (resolveBody E (findClass E depth) D st)) !! D) as [cd|] eqn:Hd;
    [|reflexivity]. exfalso.
  destruct (resolveBody_reach E D (findClass E depth) (findClass_cache_grows E depth)
              (fun X s => findClass_reach E depth X D s) D st Hnone) as (y & Hedge & Hpath).
  { rewrite Hd. by eexists. }
  destruct (reach_endless E st D y Hnone Hedge Hpath) as [Hend Hunc].
  destruct (resolveBody_endless E _ (findClass E depth) D st Hend
              (fun d s => findClass_endless E _ depth d s Hend) Hunc) as [H1 _].
  rewrite (H1 D) in Hd; [discriminate | reflexivity].
Qed.

Lemma findClass_Throw_not_cached E depth D st e st' :
  findClass E (S depth) D st = (Throw e, st') ->
  cache st !! D = None /\ cache st' !! D = None.
Proof.
  cbn [findClass]. destruct (cache st !! D) eqn:Hc; [discriminate|].
  rewrite resolveClass_unfold.
  pose proof (resolveBody_not_cached E depth D st Hc) as Hn.
  destruct (resolveBody E (findClass E depth) D st) as [[rv|e0|] s1]; try discriminate.
  intros [= _ <-]. done.
Qed.

(** ** What the trace tells about the cache *)

#[local] Instance cache_logged_preorder : PreOrder cache_logged.
Proof.
  split.
  - intros st. split; [done|]. exists []. split; [by rewrite app_nil_r|].
    intros d Hd. by apply elem_of_nil in Hd.
  - intros s1 s2 s3 [G1 (t1 & T1 & C1)] [G2 (t2 & T2 & C2)]. split; [auto|].
    exists (t1 ++ t2). split; [by rewrite T2, T1, app_assoc|].
    intros d [Hd|Hd]%elem_of_app; auto.
Qed.

Lemma cache_logged_load t st : cache_logged st (set_trace (fun l => l ++ [EvLoad t]) st).
Proof.
  split; [done|]. exists [EvLoad t]. split; [done|].
  intros d Hd%list_elem_of_singleton. discriminate.
Qed.

Lemma findClass_cache_logged E depth descriptor :
  always cache_logged (findClass E depth descriptor).
Proof.
  revert descriptor; induction depth as [|depth IH]; intros descriptor st;
    cbn [findClass]; [reflexivity|].
  destruct (cache st !! descriptor) as [cd0|] eqn:Hc; [reflexivity|].
  rewrite resolveClass_unfold.
  assert (Hb : always cache_logged (resolveBody E (findClass E depth) descriptor)).
  { unfold resolveBody, loadClass, log.
    repeat lazymatch goal with
           | |- always _ (findClass _ _ _) => apply IH
           | |- always _ (modify _) => intros s; apply cache_logged_load
           | |- _ => always_step
           end. }
  specialize (Hb st).
  destruct (resolveBody E (findClass E depth) descriptor st) as [[rv|e|] s1];
    cbn [snd] in *; try exact Hb.
  destruct Hb as [G (t & T & C)]. split.
  - intros d Hd. simpl. apply lookup_insert_is_Some'. right. by apply G.
  - exists (t ++ [EvCache descriptor]). split; [simpl; by rewrite T, app_assoc|].
    intros d Hd. simpl. apply lookup_insert_is_Some'.
    apply elem_of_app in Hd as [Hd|Hd%list_elem_of_singleton]; [right; by apply C|].
    left. by injection Hd as ->.
Qed.

(** C1 (amended): when [findClass] resolves a reference descriptor that is
    not cached and returns, it has first loaded the class file, then
    resolved the superclass, if there is one, then each interface, and
    only as its last step has it put the entry into the cache.  The
    resolution of the superclass starts in the state that the load has
    left, in which the descriptor is not cached, the resolution of the
    interfaces in the state that the superclass has left; the descriptor
    is not cached at any time before these resolutions are over, and the
    trace has no assignment for it between the load and the last event.
    From then on every [findClass] of the descriptor, at whatever depth
    of the call stack it is reached, returns the cached entry and does
    nothing else. *)
Theorem findClass_caches_after_resolution (E : Env) (depth : nat) (descriptor : string)
    (st st' : State) (rv : ClassData) :
  JS.head_is "L" descriptor = true ->
  cache st !! descriptor = None ->
  findClass E (S depth) descriptor st = (Ok rv, st') ->
  exists r superClass interfaceClasses s1 s2 t,
    classpath E (descriptor2typestr descriptor) = Some r
    /\ (match getSuperClassReference r with
        | Some name => c <- findClass E depth name ;; ret (Some c)
        | None => ret None
        end) (set_trace (fun l => l ++ [EvLoad (descriptor2typestr descriptor)]) st)
       = (Ok superClass, s1)
    /\ mapM (findClass E depth) (getInterfaceClassReferences r) s1 = (Ok interfaceClasses, s2)
    /\ cache s1 !! descriptor = None
    /\ cache s2 !! descriptor = None
    /\ rv = ReferenceCD (setResolved r superClass interfaceClasses)
    /\ st' = set_trace (fun l => l ++ [EvCache descriptor])
               (set_cache (<[descriptor := rv]>) s2)
    /\ trace st' = trace st ++ EvLoad (descriptor2typestr descriptor) :: t ++ [EvCache descriptor]
    /\ (EvCache descriptor ∉ t)
    /\ cache st' !! descriptor = Some rv
    /\ forall depth', findClass E (S depth') descriptor st' = (Ok rv, st').
Proof.
  intros HL Hmiss Hrun. cbn [findClass] in Hrun. rewrite Hmiss, resolveClass_unfold in Hrun.
  pose proof (resolveBody_not_cached E depth descriptor st Hmiss) as Hnot.
  destruct (resolveBody E (findClass E depth) descriptor st) as [[rv0|e0|] s2] eqn:Hb;
    try discriminate.
  injection Hrun as <- <-. cbn [snd] in Hnot.
  unfold resolveBody in Hb. rewrite HL in Hb.
  apply bind_Ok_inv in Hb as (r & s0 & Hload & Hb).
  apply loadClass_inv in Hload as [Hcp ->].
  apply bind_Ok_inv in Hb as (superClass & s1 & Hsuper & Hb).
  apply bind_Ok_inv in Hb as (interfaceClasses & s2' & Hifs & Hb).
  apply ret_Ok_inv in Hb as [<- ->].
  assert (Hlog : cache_logged s1 s2).
  { eapply (always_run cache_logged); [|exact Hifs].
    apply always_mapM; [typeclasses eauto|]. intros. apply findClass_cache_logged. }
  assert (Hlog0 : cache_logged
                    (set_trace (fun l => l ++ [EvLoad (descriptor2typestr descriptor)]) st) s1).
  { eapply (always_run cache_logged); [|exact Hsuper].
    destruct (getSuperClassReference r); repeat always_step. apply findClass_cache_logged. }
  assert (Hall : cache_logged
                   (set_trace (fun l => l ++ [EvLoad (descriptor2typestr descriptor)]) st) s2)
    by (by transitivity s1).
  destruct Hall as [_ (t & Ht & Hcached)]. simpl in Ht.
  exists r, superClass, interfaceClasses, s1, s2, t.
  split; [exact Hcp|]. split; [exact Hsuper|]. split; [exact Hifs|].
  split.
  { destruct (cache s1 !! descriptor) as [cd|] eqn:H1; [|reflexivity].
    destruct Hlog as [G _]. destruct (G descriptor) as [? ?]; [by eexists | congruence]. }
  split; [exact Hnot|]. split; [reflexivity|]. split; [reflexivity|].
  split; [simpl; by rewrite Ht, <- !app_assoc|].
  split.
  { intros Hin. apply Hcached in Hin. rewrite Hnot in Hin. by destruct Hin. }
  split; [simpl; by rewrite lookup_insert_eq|].
  intros depth'. apply findClass_cached. simpl. by rewrite lookup_insert_eq.
Qed.

Lemma findClass_caches_after_resolution_witness :
  exists t,
    trace (snd (findClass (Samples.env true None []) 16 "Ljava/lang/Throwable;" initialState))
    = [] ++ EvLoad "java/lang/Throwable" :: t ++ [EvCache "Ljava/lang/Throwable;"]
    /\ (EvCache "Ljava/lang/Throwable;" ∉ t).
Proof.
  destruct (findClass_caches_after_resolution (Samples.env true None []) 15
              "Ljava/lang/Throwable;" initialState
              (snd (findClass (Samples.env true None []) 16 "Ljava/lang/Throwable;" initialState))
              (ReferenceCD (setResolved Samples.Throwable_ None [])))
    as (r & superClass & interfaceClasses & s1 & s2 & t & _ & _ & _ & _ & _ & _ & _ & Ht & Hnin & _).
  - reflexivity.
  - reflexivity.
  - vm_compute. reflexivity.
  - exists t. split; [exact Ht | exact Hnin].
Defined.

(** X8: a resolution that fails leaves no entry.  When [findClass]
    throws, with room on the call stack, the descriptor was not cached,
    and it is not cached afterwards either: no activation that was
    entered for the same descriptor in the meantime has returned. *)
Theorem failed_resolution_is_not_cached (E : Env) (depth : nat) (descriptor : string)
    (st : State) (e : string) (st' : State) :
  findClass E (S depth) descriptor st = (Throw e, st') ->
  cache st !! descriptor = None /\ cache st' !! descriptor = None.
Proof. apply findClass_Throw_not_cached. Qed.

Lemma failed_resolution_is_not_cached_witness :
  cache initialState !! "LA;" = None
  /\ cache (snd (findClass (Samples.env true None []) 16 "LA;" initialState)) !! "LA;" = None.
Proof.
  eapply (failed_resolution_is_not_cached (Samples.env true None []) 15 "LA;" initialState).
  vm_compute. reflexivity.
Defined.

(** ** Computations that use no iteration budget *)

Lemma nd_read {A} (f : State -> A) : never_diverges (fun st => (Ok (f st), st)).
Proof. intros st. discriminate. Qed.

Lemma nd_mapMi {A B} (f : A -> nat -> M B) (i : nat) (l : list A) :
  (forall x j, never_diverges (f x j)) -> never_diverges (mapMi f i l).
Proof.
  intros Hf. revert i; induction l as [|x l IH]; intros i; cbn [mapMi]; [apply nd_ret|].
  apply nd_bind; [apply Hf|]. intros y. apply nd_bind; [apply IH|]. intros ys. apply nd_ret.
Qed.

(** Splits a goal [never_diverges m] along the structure of [m]. *)
Ltac nd_step :=
  lazymatch goal with
  | |- never_diverges (bind _ _) => apply nd_bind; [ | intros]
  | |- never_diverges (ret _) => apply nd_ret
  | |- never_diverges (throw _) => apply nd_throw
  | |- never_diverges (try_catch _ _) => apply nd_try_catch; [ | intros]
  | |- never_diverges (forEach _ _) => apply nd_forEach; intros
  | |- never_diverges (mapM _ _) => apply nd_mapM; intros
  | |- never_diverges (mapMi _ _ _) => apply nd_mapMi; intros
  | |- never_diverges (fun st => (Ok _, st)) => apply nd_read
  | |- never_diverges (modify _) => apply nd_modify
  | |- never_diverges (log _) => apply nd_modify
  | |- never_diverges (write _) => apply nd_modify
  | |- never_diverges (headerStream_write _) => apply nd_modify
  | |- never_diverges (findClass _ _ _) => apply findClass_never_diverges
  | |- never_diverges (TSTemplate.generateClassDefinition _ _) =>
      apply generateClassDefinition_never_diverges
  | |- never_diverges (if ?b then _ else _) => destruct b
  | |- never_diverges (match ?x with _ => _ end) => destruct x
  | |- never_diverges ((fun _ => _) _) => cbv beta
  end.

Lemma jvmtype2tstype_never_diverges E desc prefix :
  never_diverges (TSTemplate.jvmtype2tstype E desc prefix).
Proof.
  induction desc as [|c desc IH]; cbn [TSTemplate.jvmtype2tstype]; [nd_step|].
  repeat lazymatch goal with
         | |- never_diverges (TSTemplate.jvmtype2tstype _ desc _) => apply IH
         | |- _ => nd_step
         end.
Qed.

Ltac nd_template :=
  repeat lazymatch goal with
         | |- never_diverges (TSTemplate.jvmtype2tstype _ _ _) =>
             apply jvmtype2tstype_never_diverges
         | |- _ => nd_step
         end.

Lemma _processHeader_never_diverges E cls : never_diverges (TSTemplate._processHeader E cls).
Proof.
  unfold TSTemplate._processHeader, TSTemplate._outputInjectedField,
    TSTemplate._outputInjectedMethod, TSTemplate._outputInjectedStaticMethod,
    TSTemplate._outputField, TSTemplate._outputMethod.
  nd_template.
Qed.

Lemma constructor_never_diverges E : never_diverges (TSTemplate.constructor E).
Proof.
  unfold TSTemplate.constructor, TSTemplate.headersStart,
    TSTemplate.generateArrayDefinition, TSTemplate.generateMiscDefinitions.
  repeat lazymatch goal with
         | |- never_diverges (TSTemplate.replayExisting _) => apply replayExisting_never_diverges
         | |- _ => nd_template
         end.
Qed.

Lemma TS_processMethods_never_diverges E classData fixed ms found :
  never_diverges (processMethods (TSTemplate_ E) classData fixed ms found).
Proof.
  revert found; induction ms as [|m ms IH]; intros found; cbn [processMethods];
    [apply nd_ret|].
  cbn [classStart method TSTemplate_]. unfold TSTemplate.classStart, TSTemplate.method.
  repeat lazymatch goal with
         | |- never_diverges (processMethods _ _ _ _ _) => apply IH
         | |- _ => nd_template
         end.
Qed.

Lemma beforeHeadersEnd_never_diverges E : never_diverges (beforeHeadersEnd E).
Proof.
  unfold beforeHeadersEnd, processClasses, processClassData.
  cbn [fileStart fileEnd classEnd TSTemplate_].
  unfold TSTemplate.fileStart, TSTemplate.fileEnd, TSTemplate.fileEnd_entry,
    TSTemplate.classEnd.
  repeat lazymatch goal with
         | |- never_diverges (TSTemplate.constructor _) => apply constructor_never_diverges
         | |- never_diverges (processMethods _ _ _ _ _) => apply TS_processMethods_never_diverges
         | |- _ => nd_template
         end.
Qed.

Lemma main_headersEnd E fuel st :
  typescript E = true ->
  main E fuel st = (beforeHeadersEnd E ;;; TSTemplate.headersEnd E fuel) st.
Proof.
  intros Hts. rewrite main_typescript by done. unfold mainBody, beforeHeadersEnd.
  rewrite Hts. unfold bind.
  destruct (TSTemplate.constructor E st) as [[[]| |] s1]; try reflexivity.
  destruct (fileStart (TSTemplate_ E) s1) as [[[]| |] s2]; try reflexivity.
  destruct (processClasses E (TSTemplate_ E) s2) as [[[]| |] s3]; try reflexivity.
Qed.



Section BeforeHeadersEnd.
Context (R : relation State) `{!PreOrder R} (E : Env).
Hypothesis R_find : forall depth d, always R (findClass E depth d).
Hypothesis R_generate : forall d, always R (TSTemplate.generateClassDefinition E d).
Hypothesis R_header : forall s st, R st (set_headerStream (fun t => t +:+ s) st).
Hypothesis R_stub : forall s st, R st (set_stub (fun t => t +:+ s) st).
Hypothesis R_seen : forall c st, R st (set_classesSeen (fun l => l ++ [c]) st).

Lemma beforeHeadersEnd_always : always R (beforeHeadersEnd E).
Proof.
  unfold beforeHeadersEnd. cbn [fileStart fileEnd TSTemplate_].
  repeat lazymatch goal with
         | |- always _ (TSTemplate.constructor _) => by apply constructor_always
         | |- always _ (TSTemplate.fileStart _) => by apply TS_fileStart_always
         | |- always _ (processClasses _ _) => by apply TS_processClasses_always
         | |- always _ TSTemplate.fileEnd => by apply TS_fileEnd_always
         | |- _ => always_step
         end.
Qed.

End BeforeHeadersEnd.

(** *** Marks *)

#[local] Instance marks_within_preorder L : PreOrder (marks_within L).
Proof.
  split.
  - intros st d Hd. by left.
  - intros s1 s2 s3 H1 H2 d Hd. destruct (H2 d Hd) as [H|H]; [by apply H1 | by right].
Qed.

Lemma marks_within_frame L st st' : headerSet st' = headerSet st -> marks_within L st st'.
Proof. intros H d Hd. left. by rewrite <- H. Qed.

Lemma base_descriptor_array c component :
  Ascii.eqb c "[" = true -> base_descriptor (String c component) = base_descriptor component.
Proof. intros H. cbn [base_descriptor]. by rewrite H. Qed.

Lemma base_descriptor_self c component :
  Ascii.eqb c "[" = false -> base_descriptor (String c component) = String c component.
Proof. intros H. cbn [base_descriptor]. by rewrite H. Qed.

Lemma generateClassDefinition_marks_within E L desc :
  base_descriptor desc ∈ L ->
  always (marks_within L) (TSTemplate.generateClassDefinition E desc).
Proof.
  assert (Henq : forall d, d ∈ L -> always (marks_within L)
    (modify (set_headerSet (<[d := true]>)) ;;;
     cls <- findClass E (stackDepth E) d ;;
     modify (set_generateQueue (fun q => q ++ [cls])) ;;;
     log (EvPush d cls))).
  { intros d Hd.
    repeat lazymatch goal with
           | |- always _ (findClass _ _ _) =>
               intros s; apply marks_within_frame, findClass_resolver_frame
           | |- always _ (modify (set_headerSet _)) =>
               intros s x Hx; simpl in Hx; apply lookup_insert_is_Some in Hx as [<-|[_ Hx]];
               [by right | by left]
           | |- always _ (modify _) => intros s; by apply marks_within_frame
           | |- always _ (log _) => intros s; by apply marks_within_frame
           | |- _ => always_step
           end. }
  induction desc as [|c desc IH]; intros Hin st; cbn [TSTemplate.generateClassDefinition].
  - destruct (_ || _); [reflexivity | by apply Henq].
  - destruct (_ || _); [reflexivity|].
    destruct (Ascii.eqb c "[") eqn:Hc.
    + apply IH. by rewrite base_descriptor_array in Hin.
    + apply Henq. by rewrite base_descriptor_self in Hin.
Qed.

Lemma jvmtype2tstype_marks_within E L desc prefix :
  base_descriptor desc ∈ L ->
  always (marks_within L) (TSTemplate.jvmtype2tstype E desc prefix).
Proof.
  induction desc as [|c desc IH]; intros Hin; cbn [TSTemplate.jvmtype2tstype];
    [always_step|].
  destruct (Ascii.eqb c "[") eqn:Hc.
  - rewrite base_descriptor_array in Hin by done.
    repeat lazymatch goal with
           | |- always _ (TSTemplate.jvmtype2tstype _ desc _) => by apply IH
           | |- _ => always_step
           end.
  - repeat lazymatch goal with
           | |- always _ (TSTemplate.generateClassDefinition _ _) =>
               by apply generateClassDefinition_marks_within
           | |- _ => always_step
           end.
Qed.

Lemma always_forEach_in (R : relation State) `{!PreOrder R} {A} (f : A -> M unit)
    (l : list A) :
  (forall x, x ∈ l -> always R (f x)) -> always R (forEach f l).
Proof.
  induction l as [|x l IH]; intros Hf; cbn [forEach]; [always_step|].
  apply always_bind; [done | apply Hf, elem_of_cons; by left|].
  intros _. apply IH. intros y Hy. apply Hf, elem_of_cons. by right.
Qed.

Lemma always_mapM_in (R : relation State) `{!PreOrder R} {A B} (f : A -> M B)
    (l : list A) :
  (forall x, x ∈ l -> always R (f x)) -> always R (mapM f l).
Proof.
  induction l as [|x l IH]; intros Hf; cbn [mapM]; [always_step|].
  apply always_bind; [done | apply Hf, elem_of_cons; by left|].
  intros y. apply always_bind; [done | |intros; always_step].
  apply IH. intros z Hz. apply Hf, elem_of_cons. by right.
Qed.

Lemma _outputMethod_marks_within E L m b :
  (forall d, d ∈ (if String.eqb (returnType m) "V" then [] else [returnType m])
                 ++ parameterTypes m -> base_descriptor d ∈ L) ->
  always (marks_within L) (TSTemplate._outputMethod E m b).
Proof.
  intros Hin. unfold TSTemplate._outputMethod.
  apply always_bind; [typeclasses eauto| |intros cbSig].
  { destruct (String.eqb (returnType m) "V"); [always_step|].
    repeat lazymatch goal with
           | |- always _ (TSTemplate.jvmtype2tstype _ _ _) =>
               apply jvmtype2tstype_marks_within, Hin, elem_of_app; left;
               by apply list_elem_of_singleton
           | |- _ => always_step
           end. }
  apply always_bind; [typeclasses eauto| |intros args].
  { destruct (0 <? length (parameterTypes m))%nat; [|always_step].
    apply always_bind; [typeclasses eauto| |intros; always_step].
    apply always_mapM_in; [typeclasses eauto|]. intros type Htype.
    repeat lazymatch goal with
           | |- always _ (TSTemplate.jvmtype2tstype _ _ _) =>
               apply jvmtype2tstype_marks_within, Hin, elem_of_app; by right
           | |- _ => always_step
           end. }
  repeat lazymatch goal with
         | |- always _ (headerStream_write _) => intros s; by apply marks_within_frame
         | |- _ => always_step
         end.
Qed.

Lemma _outputField_marks_within E L f :
  (f_cls_isInterface f = false -> base_descriptor (rawDescriptor f) ∈ L) ->
  always (marks_within L) (TSTemplate._outputField E f).
Proof.
  intros Hin. unfold TSTemplate._outputField.
  destruct (f_cls_isInterface f); [always_step|].
  repeat lazymatch goal with
         | |- always _ (TSTemplate.jvmtype2tstype _ _ _) =>
             by apply jvmtype2tstype_marks_within, Hin
         | |- always _ (headerStream_write _) => intros s; by apply marks_within_frame
         | |- _ => always_step
         end.
Qed.

Lemma _processHeader_marks_within E cls :
  always (marks_within (base_descriptor <$> named_descriptors cls))
    (TSTemplate._processHeader E (ReferenceCD cls)).
Proof.
  set (L := base_descriptor <$> named_descriptors cls).
  assert (Hn : forall d, d ∈ named_descriptors cls -> base_descriptor d ∈ L).
  { intros d Hd. apply list_elem_of_fmap. by exists d. }
  unfold named_descriptors in Hn.
  assert (Hmethod : forall ms m, m ∈ ms ->
            (forall d, d ∈ flat_map (fun m => (if String.eqb (returnType m) "V" then []
                                               else [returnType m]) ++ parameterTypes m) ms ->
                       base_descriptor d ∈ L) ->
            always (marks_within L) (TSTemplate._outputMethod E m false)).
  { intros ms m Hm Hms. apply _outputMethod_marks_within. intros d Hd. apply Hms.
    apply list_elem_of_In, in_flat_map. exists m. split; by apply list_elem_of_In. }
  unfold TSTemplate._processHeader, TSTemplate._outputInjectedField,
    TSTemplate._outputInjectedMethod, TSTemplate._outputInjectedStaticMethod.
  apply always_bind; [typeclasses eauto | intros s; by apply marks_within_frame | intros _].
  apply always_bind; [typeclasses eauto | | intros name].
  { apply jvmtype2tstype_marks_within, Hn. apply elem_of_app. left.
    by apply list_elem_of_singleton. }
  apply always_bind; [typeclasses eauto | intros s; by apply marks_within_frame | intros _].
  apply always_bind; [typeclasses eauto | intros s; by apply marks_within_frame | intros _].
  apply always_bind; [typeclasses eauto | | intros _].
  { destruct (getSuperClassReference cls) as [superName|] eqn:Hs; [|always_step].
    apply always_bind; [typeclasses eauto | | intros; intros s; by apply marks_within_frame].
    apply jvmtype2tstype_marks_within, Hn.
    apply elem_of_app. right. apply elem_of_app. left. by apply list_elem_of_singleton. }
  apply always_bind; [typeclasses eauto | | intros _].
  { destruct (0 <? length (getInterfaceClassReferences cls))%nat; [|always_step].
    apply always_bind; [typeclasses eauto | | intros _].
    { destruct (isInterface cls); intros s; by apply marks_within_frame. }
    apply always_bind; [typeclasses eauto | | intros; intros s; by apply marks_within_frame].
    apply always_mapM_in; [typeclasses eauto|]. intros iface Hi.
    apply jvmtype2tstype_marks_within, Hn.
    apply elem_of_app. right. apply elem_of_app. right. apply elem_of_app. by left. }
  apply always_bind; [typeclasses eauto | intros s; by apply marks_within_frame | intros _].
  apply always_bind; [typeclasses eauto | | intros _].
  { apply always_forEach; [typeclasses eauto|]. intros [n t] s. by apply marks_within_frame. }
  apply always_bind; [typeclasses eauto | | intros _].
  { apply always_forEach; [typeclasses eauto|]. intros [n t] s. by apply marks_within_frame. }
  apply always_bind; [typeclasses eauto | | intros _].
  { apply always_forEach; [typeclasses eauto|]. intros [n t] s. by apply marks_within_frame. }
  apply always_bind; [typeclasses eauto | | intros _].
  { apply always_forEach_in; [typeclasses eauto|]. intros f Hf.
    apply _outputField_marks_within. intros Hi. apply Hn.
    do 3 (apply elem_of_app; right). apply elem_of_app. left.
    apply list_elem_of_In, in_flat_map. exists f. split; [by apply list_elem_of_In|].
    rewrite Hi. by left. }
  apply always_bind; [typeclasses eauto | | intros _].
  { apply always_forEach_in; [typeclasses eauto|]. intros m Hm.
    apply (Hmethod _ m Hm). intros d Hd. apply Hn.
    do 4 (apply elem_of_app; right). apply elem_of_app. by left. }
  apply always_bind; [typeclasses eauto | | intros _].
  { apply always_forEach_in; [typeclasses eauto|]. intros m Hm.
    apply (Hmethod _ m Hm). intros d Hd. apply Hn.
    do 5 (apply elem_of_app; right). done. }
  intros s. by apply marks_within_frame.
Qed.

(** *** The worklist and the pushes *)

#[local] Instance balance_preorder : PreOrder balance.
Proof.
  split; unfold balance.
  - intros st. lia.
  - intros s1 s2 s3 H1 H2. lia.
Qed.

Lemma balance_frame st st' :
  generateQueue st' = generateQueue st -> pushes (trace st') = pushes (trace st) ->
  balance st st'.
Proof. unfold balance. intros -> ->. lia. Qed.

Lemma findClass_balance E depth d : always balance (findClass E depth d).
Proof.
  intros st. destruct (findClass_resolver_frame E depth d st) as (_ & Hq & Hp & _).
  by apply balance_frame.
Qed.

Lemma generateClassDefinition_balance E desc :
  always balance (TSTemplate.generateClassDefinition E desc).
Proof.
  assert (Henq : forall d, always balance
    (modify (set_headerSet (<[d := true]>)) ;;;
     cls <- findClass E (stackDepth E) d ;;
     modify (set_generateQueue (fun q => q ++ [cls])) ;;;
     log (EvPush d cls))).
  { intros d st. cbv beta iota zeta delta [bind modify log].
    set (st1 := set_headerSet <[d:=true]> st).
    pose proof (findClass_resolver_frame E (stackDepth E) d st1) as (_ & Hq & Hp & _).
    destruct (findClass E (stackDepth E) d st1) as [[cls| |] st2]; cbn [snd] in *;
      unfold balance; simpl; rewrite ?pushes_app, ?length_app, Hq, Hp; simpl; lia. }
  induction desc as [|c desc IH]; intros st; cbn [TSTemplate.generateClassDefinition].
  - destruct (_ || _); [reflexivity | apply Henq].
  - destruct (_ || _); [reflexivity|].
    destruct (Ascii.eqb c "["); [apply IH | apply Henq].
Qed.

Lemma _processHeader_balance E cls : always balance (TSTemplate._processHeader E cls).
Proof.
  apply _processHeader_always; try typeclasses eauto.
  - apply generateClassDefinition_balance.
  - intros. by apply balance_frame.
  - intros. by apply balance_frame.
  - intros. apply balance_frame; [done|]. simpl. by rewrite pushes_app, app_nil_r.
Qed.

(** *** The records on the worklist *)

#[local] Instance keeps_known_preorder E : PreOrder (keeps_known E).
Proof. split; unfold keeps_known; [intros st H; exact H | intros ??? H1 H2 H; auto]. Qed.

Lemma keeps_known_frame E st st' :
  cache st' = cache st -> generateQueue st' = generateQueue st -> keeps_known E st st'.
Proof.
  intros Hc Hq [Hcan Hk]. split; [|by rewrite Hq].
  intros d cd. rewrite Hc. apply Hcan.
Qed.

Lemma canon_known E d : known E (canon E d).
Proof.
  unfold canon, known. intros c.
  destruct (JS.head_is "L" d).
  - destruct (classpath E (descriptor2typestr d)) as [r|] eqn:Hcp; [|discriminate].
    intros [= <-]. by exists (descriptor2typestr d), r.
  - destruct (JS.head_is "[" d); discriminate.
Qed.

Lemma findClass_keeps_known E depth d : always (keeps_known E) (findClass E depth d).
Proof.
  intros st [Hcan Hk].
  destruct (findClass_resolver_frame E depth d st) as (_ & Hq & _).
  split; [by apply findClass_canonical | by rewrite Hq].
Qed.

Lemma generateClassDefinition_keeps_known E desc :
  always (keeps_known E) (TSTemplate.generateClassDefinition E desc).
Proof.
  assert (Henq : forall d, always (keeps_known E)
    (modify (set_headerSet (<[d := true]>)) ;;;
     cls <- findClass E (stackDepth E) d ;;
     modify (set_generateQueue (fun q => q ++ [cls])) ;;;
     log (EvPush d cls))).
  { intros d st [Hcan Hk]. cbv beta iota zeta delta [bind modify log].
    set (st1 := set_headerSet <[d:=true]> st).
    assert (H1 : cache_canonical E st1) by exact Hcan.
    pose proof (findClass_canonical E (stackDepth E) d st1 H1) as Hc. cbn zeta in Hc.
    pose proof (findClass_resolver_frame E (stackDepth E) d st1) as (_ & Hq & _).
    destruct (findClass E (stackDepth E) d st1) as [[cls| |] st2]; cbn [fst snd] in *;
      destruct Hc as [Hc Hv].
    - split; [exact Hc|]. simpl. rewrite Hq. apply Forall_app. split; [exact Hk|].
      apply Forall_singleton. rewrite (Hv cls eq_refl). apply canon_known.
    - split; [exact Hc | by rewrite Hq].
    - split; [exact Hc | by rewrite Hq]. }
  induction desc as [|c desc IH]; intros st; cbn [TSTemplate.generateClassDefinition].
  - destruct (_ || _); [reflexivity | apply Henq].
  - destruct (_ || _); [reflexivity|].
    destruct (Ascii.eqb c "["); [apply IH | apply Henq].
Qed.

Lemma _processHeader_keeps_known E cls : always (keeps_known E) (TSTemplate._processHeader E cls).
Proof.
  apply _processHeader_always; try typeclasses eauto.
  - apply generateClassDefinition_keeps_known.
  - intros. by apply keeps_known_frame.
  - intros. by apply keeps_known_frame.
  - intros. by apply keeps_known_frame.
Qed.

Lemma _processHeader_keeps_pushed_once E cls :
  always keeps_pushed_once (TSTemplate._processHeader E cls).
Proof.
  apply _processHeader_always; try typeclasses eauto.
  - apply generateClassDefinition_keeps_pushed_once.
  - intros. by apply pushed_once_frame.
  - intros. by apply pushed_once_frame.
  - intros. apply pushed_once_frame; [|done]. simpl. by rewrite pushes_app, app_nil_r.
Qed.

(** *** The worklist loop ends *)

Lemma named_descriptors_setResolved r s i :
  named_descriptors (setResolved r s i) = named_descriptors r.
Proof. reflexivity. Qed.

Lemma known_nameable E dom cls :
  (forall t, is_Some (classpath E t) -> t ∈ dom) ->
  known E (ReferenceCD cls) ->
  forall d, d ∈ base_descriptor <$> named_descriptors cls -> d ∈ nameable E dom.
Proof.
  intros Hdom Hk d Hd. destruct (Hk cls eq_refl) as (t & r & Hcp & ->).
  rewrite named_descriptors_setResolved in Hd.
  unfold nameable. apply list_elem_of_In, in_flat_map. exists t. split.
  - apply list_elem_of_In, Hdom. rewrite Hcp. by eexists.
  - rewrite Hcp. by apply list_elem_of_In.
Qed.

Lemma pushes_bounded U st :
  pushed_once st -> marks_in U st -> length (pushes (trace st)) <= length U.
Proof.
  intros [Hnd Hin] Hm.
  rewrite <- (length_fmap fst (pushes (trace st))).
  apply submseteq_length, NoDup_submseteq; [exact Hnd|].
  intros d Hd. by apply Hm, Hin.
Qed.

Lemma _processGenerateQueue_ends E dom U fuel st :
  (forall t, is_Some (classpath E t) -> t ∈ dom) ->
  (forall d, d ∈ nameable E dom -> d ∈ U) ->
  pushed_once st -> marks_in U st -> queue_known E st ->
  length U + length (generateQueue st) < fuel + length (pushes (trace st)) ->
  fst (TSTemplate._processGenerateQueue E fuel st) <> Diverge.
Proof.
  intros Hdom HU. revert st; induction fuel as [|fuel IH];
    intros st Honce Hmarks Hknown Hfuel; cbn [TSTemplate._processGenerateQueue].
  { pose proof (pushes_bounded U st Honce Hmarks). lia. }
  destruct (last (generateQueue st)) as [cls|] eqn:Hlast; [|discriminate].
  apply last_Some in Hlast as [q Hq].
  rewrite (bind_run (modify _)). cbn [modify].
  set (s1 := set_generateQueue (fun q => removelast q) st).
  assert (Honce1 : pushed_once s1) by exact Honce.
  assert (Hmarks1 : marks_in U s1) by exact Hmarks.
  destruct Hknown as [Hcan Hk]. rewrite Hq in Hk. apply Forall_app in Hk as [Hk Hcls].
  apply Forall_inv in Hcls.
  assert (Hknown1 : queue_known E s1).
  { split; [exact Hcan|]. simpl. by rewrite Hq, removelast_last. }
  assert (Hlen1 : length (generateQueue s1) + 1 = length (generateQueue st)).
  { simpl. rewrite Hq, removelast_last, length_app. simpl. lia. }
  rewrite (bind_run (TSTemplate._processHeader E cls)).
  pose proof (_processHeader_never_diverges E cls s1) as Hnd.
  pose proof (_processHeader_balance E cls s1) as Hbal.
  pose proof (_processHeader_keeps_pushed_once E cls s1 Honce1) as Honce2.
  pose proof (_processHeader_keeps_known E cls s1 Hknown1) as Hknown2.
  destruct (TSTemplate._processHeader E cls s1) as [[[]|e|] s2] eqn:Hrun;
    cbn [fst snd] in *; [|discriminate|done].
  destruct cls as [cls| |]; try discriminate.
  assert (Hmarks2 : marks_in U s2).
  { intros d Hd.
    pose proof (_processHeader_marks_within E cls s1) as Hw. rewrite Hrun in Hw.
    destruct (Hw d Hd) as [H|H]; [by apply Hmarks1|].
    apply HU. exact (known_nameable E dom cls Hdom Hcls d H). }
  apply IH; try done.
  unfold balance in Hbal. change (pushes (trace s1)) with (pushes (trace st)) in Hbal. lia.
Qed.

(** With a class path of finitely many classes, a budget can be named
    within which every run comes to an end. *)
Lemma main_ends E (dom : list string) :
  (forall t, is_Some (classpath E t) -> t ∈ dom) ->
  exists N, forall fuel, N <= fuel -> fst (main E fuel initialState) <> Diverge.
Proof.
  intros Hdom. destruct (typescript E) eqn:Hts.
  2: { exists 0. intros fuel _. rewrite main_javascript by done.
       by apply JS_mainBody_never_diverges. }
  pose proof (beforeHeadersEnd_never_diverges E initialState) as Hnd.
  destruct (beforeHeadersEnd E initialState) as [o s4] eqn:Hpre.
  set (U := (map_to_list (headerSet s4)).*1 ++ nameable E dom).
  exists (S (length U + length (generateQueue s4))).
  intros fuel Hfuel. rewrite main_headersEnd by done.
  rewrite (bind_run (beforeHeadersEnd E)), Hpre.
  destruct o as [[]|e|]; cbn [fst] in *; [|discriminate|done].
  unfold TSTemplate.headersEnd. rewrite (bind_run (TSTemplate._processGenerateQueue E fuel)).
  assert (Hloop : fst (TSTemplate._processGenerateQueue E fuel s4) <> Diverge).
  { apply (_processGenerateQueue_ends E dom U); try done.
    - intros d Hd. apply elem_of_app. by right.
    - eapply (always_run keeps_pushed_once); [|exact Hpre|].
      + apply beforeHeadersEnd_always; try typeclasses eauto.
        * apply findClass_keeps_pushed_once.
        * apply generateClassDefinition_keeps_pushed_once.
        * intros. by apply pushed_once_frame.
        * intros. by apply pushed_once_frame.
        * intros. by apply pushed_once_frame.
      + split; [apply NoDup_nil_2 | intros d Hd; by apply elem_of_nil in Hd].
    - intros d [b Hd]. apply elem_of_app. left.
      apply list_elem_of_fmap. exists (d, b). split; [done|]. by apply elem_of_map_to_list.
    - eapply (always_run (keeps_known E)); [|exact Hpre|].
      + apply beforeHeadersEnd_always; try typeclasses eauto.
        * apply findClass_keeps_known.
        * apply generateClassDefinition_keeps_known.
        * intros. by apply keeps_known_frame.
        * intros. by apply keeps_known_frame.
        * intros. by apply keeps_known_frame.
      + split; [|by apply Forall_nil].
        intros d cd Hd. cbn [cache initialState] in Hd. by rewrite lookup_empty in Hd.
    - lia. }
  destruct (TSTemplate._processGenerateQueue E fuel s4) as [[[]|e|] s5]; cbn [fst] in *;
    [discriminate | discriminate | done].
Qed.

(** ** The header and the worklist of a run *)

(** In a header-mode run that returns, the header holds the prelude, the
    declarations that were recorded, in this order, and the closing
    lines. *)
Lemma main_header_written E fuel st' :
  typescript E = true ->
  main E fuel initialState = (Ok tt, st') ->
  headerStream st' = TS_header_text E (emits (trace st')).
Proof.
  intros Hts Hrun. rewrite main_typescript in Hrun by done.
  unfold mainBody in Hrun. rewrite Hts in Hrun.
  apply bind_Ok_inv in Hrun as ([] & s1 & Hcons & Hrun).
  pose proof (constructor_prelude E initialState) as (T1 & E1 & N1).
  rewrite Hcons in T1, E1, N1. cbn [snd] in T1, E1, N1.
  apply bind_Ok_inv in Hrun as ([] & s2 & [= <-] & Hrun).
  apply bind_Ok_inv in Hrun as ([] & s3 & Hcls & Hrun).
  assert (H3 : declares_nothing (set_stub (fun t => t +:+ TS_fileStart_text E) s1) s3).
  { eapply always_run; [|exact Hcls].
    apply TS_processClasses_always; try typeclasses eauto; try done.
    - intros. apply findClass_declares_nothing.
    - intros. apply generateClassDefinition_declares_nothing. }
  destruct H3 as (T3 & E3 & N3). cbn [headerStream trace headerCount set_stub] in T3, E3, N3.
  apply bind_Ok_inv in Hrun as ([] & s4 & Hend & Hrun).
  assert (H4 : declares_nothing s3 s4).
  { eapply always_run; [|exact Hend]. apply TS_fileEnd_always; [typeclasses eauto | done]. }
  destruct H4 as (T4 & E4 & N4).
  unfold TSTemplate.headersEnd in Hrun.
  apply bind_Ok_inv in Hrun as ([] & s5 & Hqueue & [= <-]).
  apply _processGenerateQueue_header_written in Hqueue.
  - destruct Hqueue as [Hq Hn]. unfold TS_header_text.
    cbn [headerStream trace headerCount set_headerStream].
    rewrite Hq. by rewrite !append_assoc.
  - unfold header_written. rewrite T4, E4, N4, T3, E3, N3, T1, E1, N1.
    cbn [headerStream trace headerCount initialState emits map length].
    split; [|reflexivity]. unfold texts; simpl; by rewrite append_nil_r.
Qed.

(** The sample class path holds the classes of [Samples.all]. *)
Lemma Samples_cp_dom (t : string) :
  is_Some (Samples.cp t)
  -> t ∈ map (fun r => descriptor2typestr (getInternalName r)) Samples.all.
Proof.
  intros [r Hr]. unfold Samples.cp in Hr. apply find_some in Hr as [Hin Heq].
  apply String.eqb_eq in Heq. subst t. apply list_elem_of_In.
  exact (in_map (fun r => descriptor2typestr (getInternalName r)) _ _ Hin).
Qed.

(** ** Claim on the header worklist *)

(** C7 (as stated, refuted): not every record that is pushed is emitted.
    A run that fails leaves the worklist as it is: here the declaration of
    [Stale] names a class that is not on the class path, the run ends
    with the exception of [findClass], and [java/lang/Throwable] and
    [java/lang/Object], pushed before, are still on the worklist and have
    no declaration in the header. *)
Lemma failed_run_leaves_worklist :
  let r := main (Samples.stale_env true None ["LStale;"]) 16 initialState in
  fails (fst r)
  /\ (pushes (trace (snd r))).*1 = ["Ljava/lang/Throwable;"; "LStale;"; "Ljava/lang/Object;"]
  /\ emits (trace (snd r)) = [setResolved Samples.Stale None []]
  /\ generateQueue (snd r)
     = [ReferenceCD (setResolved Samples.Throwable_ None []);
        ReferenceCD (setResolved Samples.Object_ None [])]
  /\ JS.indexOf "export class java_lang_Throwable" 0 (headerStream (snd r)) = (-1)%Z.
Proof.
  cbn zeta. split; [eexists; vm_compute; reflexivity|].
  repeat split; vm_compute; reflexivity.
Qed.

(** C7 (amended): in every run, with any iteration budget and whatever
    the outcome, no descriptor is pushed onto the header worklist twice,
    every pushed descriptor is marked in the membership set, and no record
    is emitted that was not pushed, or more often than it was pushed: the
    records pushed are those emitted, those in flight when the run failed
    and those still on the worklist.  When a header-mode run returns, the worklist is empty, every record
    pushed has been emitted exactly once, and the header holds, after the
    prelude, the declarations of the emitted records, one each, in the
    order of emission.  And the run does come to an end: on a class path
    of finitely many classes there is an iteration budget from which on
    no run uses up its budget. *)
Theorem worklist_pushes_once_emits_once (E : Env) (fuel : nat) (o : outcome unit)
    (st' : State) :
  main E fuel initialState = (o, st') ->
  NoDup (pushes (trace st')).*1
  /\ (forall d, d ∈ (pushes (trace st')).*1 -> is_Some (headerSet st' !! d))
  /\ (ReferenceCD <$> emits (trace st')) ⊆+ (pushes (trace st')).*2
  /\ (exists inflight,
        (pushes (trace st')).*2
        ≡ₚ (ReferenceCD <$> emits (trace st')) ++ inflight ++ generateQueue st')
  /\ (typescript E = true -> o = Ok tt ->
      generateQueue st' = []
      /\ (pushes (trace st')).*2 ≡ₚ ReferenceCD <$> emits (trace st')
      /\ headerStream st' = TS_header_text E (emits (trace st')))
  /\ (forall dom : list string,
        (forall t, is_Some (classpath E t) -> t ∈ dom) ->
        exists N, forall fuel', N <= fuel' -> fst (main E fuel' initialState) <> Diverge).
Proof.
  intros Hrun.
  assert (Honce : pushed_once st').
  { eapply (always_run keeps_pushed_once); [apply main_keeps_pushed_once | exact Hrun |].
    split; [apply NoDup_nil_2 | intros d Hd; by apply elem_of_nil in Hd]. }
  destruct Honce as [Hnd Hin]. split; [exact Hnd|]. split; [exact Hin|].
  split; [|split; [|split]].
  - destruct (main_accounts E fuel) as [fl Hacc]. rewrite Hrun in Hacc.
    unfold accounted in Hacc. simpl in Hacc. rewrite Hacc. by apply submseteq_inserts_r.
  - destruct (main_accounts E fuel) as [fl Hacc]. rewrite Hrun in Hacc. by exists fl.
  - intros Hts ->. pose proof (main_settles E fuel Hts) as Hs. cbn zeta in Hs.
    rewrite Hrun in Hs. destruct Hs as [Hacc Hq]. unfold accounted in Hacc.
    split; [exact Hq|]. split; [by rewrite Hq, !app_nil_r in Hacc|].
    by apply (main_header_written E fuel).
  - apply main_ends.
Qed.

Lemma worklist_pushes_once_emits_once_witness :
  let E := Samples.env true None ["LNat;"] in
  let st' := snd (main E 16 initialState) in
  (pushes (trace st')).*1 = ["Ljava/lang/Throwable;"; "LNat;"; "Ljava/lang/Object;"]
  /\ (pushes (trace st')).*2 ≡ₚ ReferenceCD <$> emits (trace st')
  /\ headerStream st' = TS_header_text E (emits (trace st'))
  /\ exists N, forall fuel', N <= fuel' -> fst (main E fuel' initialState) <> Diverge.
Proof.
  destruct (worklist_pushes_once_emits_once (Samples.env true None ["LNat;"]) 16 (Ok tt)
              (snd (main (Samples.env true None ["LNat;"]) 16 initialState)))
    as (_ & _ & _ & _ & Hret & Hends).
  - vm_compute. reflexivity.
  - destruct (Hret eq_refl eq_refl) as (_ & Hperm & Htext).
    split; [vm_compute; reflexivity|]. split; [exact Hperm|]. split; [exact Htext|].
    apply (Hends (map (fun r => descriptor2typestr (getInternalName r)) Samples.all)).
    apply Samples_cp_dom.
Defined.

(** ** Claim on the class block of the stub *)






(** ** Claim on the replay of a prior header *)

#[local] Instance queue_extends_preorder : PreOrder queue_extends.
Proof.
  split.
  - intros st. exists []. by rewrite app_nil_r.
  - intros s1 s2 s3 [q1 H1] [q2 H2]. exists (q1 ++ q2). by rewrite H2, H1, app_assoc.
Qed.

Lemma queue_extends_frame st st' : generateQueue st' = generateQueue st -> queue_extends st st'.
Proof. intros H. exists []. by rewrite app_nil_r. Qed.

Lemma generateClassDefinition_queue_extends E desc :
  always queue_extends (TSTemplate.generateClassDefinition E desc).
Proof.
  apply generateClassDefinition_always; try typeclasses eauto.
  - intros depth d st. apply queue_extends_frame, findClass_resolver_frame.
  - intros. by apply queue_extends_frame.
  - intros c st. by exists [c].
  - intros. by apply queue_extends_frame.
Qed.

Lemma replayExisting_always (R : relation State) `{!PreOrder R} (E : Env) :
  (forall d, always R (TSTemplate.generateClassDefinition E d)) ->
  always R (TSTemplate.replayExisting E).
Proof.
  intros Hgen. unfold TSTemplate.replayExisting.
  repeat lazymatch goal with
         | |- always _ (TSTemplate.replayLoop _ _ _ _ _ _ _) => by apply replayLoop_always
         | |- _ => always_step
         end.
Qed.

(** C9 (as stated, refuted): with a prior header whose second declaration
    cannot be resolved, the failure is swallowed but the first declaration
    stays replayed: after the [try] block the worklist holds [Foo_Bar] and
    both descriptors are marked, and the finished header differs from the
    one of a run without prior header, which declares no [Foo__Bar].  And
    a run can fail because of what was replayed: [Stale], declared by the
    prior header, names a class that is not on the class path, so the run
    that replays the header ends with the exception of [findClass] where
    the run without prior header returns. *)
Lemma partial_replay_carries_over :
  let broken := Samples.env true (Some brokenHeader) [] in
  let fresh := Samples.env true None [] in
  let after := snd (try_catch (TSTemplate.replayExisting broken) (fun _ => ret tt) initialState) in
  fails (fst (TSTemplate.replayExisting broken initialState))
  /\ snd (try_catch (TSTemplate.replayExisting fresh) (fun _ => ret tt) initialState) = initialState
  /\ generateQueue after = [ReferenceCD (setResolved Samples.Foo_Bar None [])]
  /\ headerSet after = <["LMissing;" := true]> {["LFoo_Bar;" := true]}
  /\ fst (main broken 16 initialState) = Ok tt
  /\ fst (main fresh 16 initialState) = Ok tt
  /\ JS.indexOf "export class Foo__Bar " 0 (headerStream (snd (main broken 16 initialState)))
     <> (-1)%Z
  /\ JS.indexOf "export class Foo__Bar " 0 (headerStream (snd (main fresh 16 initialState)))
     = (-1)%Z
  /\ fails (fst (TSTemplate.replayExisting (Samples.stale_env true (Some staleHeader) [])
                   initialState))
  /\ fst (main (Samples.stale_env true None []) 16 initialState) = Ok tt
  /\ fails (fst (main (Samples.stale_env true (Some staleHeader) []) 16 initialState)).
Proof.
  repeat split; try (vm_compute; reflexivity).
  - eexists. vm_compute. reflexivity.
  - vm_compute. discriminate.
  - eexists. vm_compute. reflexivity.
  - eexists. vm_compute. reflexivity.
Qed.

(** C9 (amended): a failure while the prior header is replayed is
    swallowed: the [try] block of the constructor ends normally, in the
    state that the replay had reached, and the constructor goes on.
    Nothing is undone: the replay writes to neither artifact, and the
    marks, the cache entries and the worklist records it has added stay.
    When the file cannot be read, or its text has no declaration marker,
    the state is the one of a run without prior header. *)
Theorem replay_failure_is_swallowed (E : Env) (st : State) :
  let replayed := snd (TSTemplate.replayExisting E st) in
  try_catch (TSTemplate.replayExisting E) (fun _ => ret tt) st = (Ok tt, replayed)
  /\ headerStream replayed = headerStream st
  /\ stub replayed = stub st
  /\ headerSet_grows st replayed
  /\ cache_grows st replayed
  /\ queue_extends st replayed
  /\ (existingHeaders E = None -> replayed = st)
  /\ (forall text,
        existingHeaders E = Some text ->
        JS.indexOf "export class " 0 text = (-1)%Z ->
        JS.indexOf "export interface " 0 text = (-1)%Z ->
        replayed = st).
Proof.
  cbn zeta. split; [|split; [|split; [|split; [|split; [|split; [|split]]]]]].
  - pose proof (replayExisting_never_diverges E st) as Hnd.
    unfold try_catch. destruct (TSTemplate.replayExisting E st) as [[[]| |] st1]; done.
  - assert (H : declares_nothing st (snd (TSTemplate.replayExisting E st))).
    { apply replayExisting_always; [typeclasses eauto|].
      apply generateClassDefinition_declares_nothing. }
    apply H.
  - assert (H : stub_untouched st (snd (TSTemplate.replayExisting E st))).
    { apply replayExisting_always; [typeclasses eauto|].
      apply generateClassDefinition_stub_untouched. }
    apply H.
  - apply replayExisting_always; [typeclasses eauto|].
    apply generateClassDefinition_headerSet_grows.
  - apply replayExisting_always; [typeclasses eauto|].
    apply generateClassDefinition_cache_grows.
  - apply replayExisting_always; [typeclasses eauto|].
    apply generateClassDefinition_queue_extends.
  - intros Hnone. unfold TSTemplate.replayExisting. rewrite Hnone. reflexivity.
  - intros text Hsome Hc Hi. unfold TSTemplate.replayExisting. rewrite Hsome.
    unfold bind, ret. cbn [TSTemplate.replayLoop]. rewrite Hc, Hi. reflexivity.
Qed.

Lemma replay_failure_is_swallowed_witness :
  fst (try_catch (TSTemplate.replayExisting (Samples.env true (Some brokenHeader) []))
         (fun _ => ret tt) initialState) = Ok tt
  /\ snd (TSTemplate.replayExisting (Samples.env true None []) initialState) = initialState
  /\ snd (TSTemplate.replayExisting (Samples.env true (Some "no declarations") []) initialState)
     = initialState.
Proof.
  split; [|split].
  - by rewrite (proj1 (replay_failure_is_swallowed (Samples.env true (Some brokenHeader) [])
                         initialState)).
  - apply (replay_failure_is_swallowed (Samples.env true None []) initialState).
    reflexivity.
  - apply (replay_failure_is_swallowed (Samples.env true (Some "no declarations") [])
             initialState) with (text := "no declarations");
      vm_compute; reflexivity.
Defined.
